(** * Event-type resolution and caching of the recorder

    A shallow embedding of
    [homeassistant/components/recorder/table_managers/event_types.py]
    (class [EventTypeManager]) and of the parts of
    [homeassistant/components/recorder/util.py] it calls ([take], [chunked],
    [execute_stmt_lambda_element], [_is_retryable_error]), followed by the
    properties of the resolver: negative caching, the pending buffer, chunked
    fetches and the retry loop. *)

From Stdlib Require Import List String ZArith QArith Bool Arith Lia.
From Stdlib Require Import DecimalString.
Import ListNotations.

Local Open Scope string_scope.
Local Open Scope list_scope.
Local Open Scope nat_scope.

(** ** Python dictionaries with string keys

    A [dict] keeps its keys in insertion order, and assigning to a key that is
    already present replaces the value where the key stands.  The order is
    observable here: [post_commit_pending] walks [_pending.items()] and writes
    an LRU cache in that order. *)
Module PyDict.

Section Dict.
Context {V : Type}.

Definition t := list (string * V).

Definition empty : t := [].

Definition keys (d : t) : list string := map fst d.

(** [d.get(k)] *)
Fixpoint get (k : string) (d : t) : option V :=
  match d with
  | [] => None
  | (k', v) :: r => if String.eqb k k' then Some v else get k r
  end.

(** [k in d] *)
Definition contains (k : string) (d : t) : bool :=
  match get k d with Some _ => true | None => false end.

(** [d[k] = v] *)
Fixpoint set (k : string) (v : V) (d : t) : t :=
  match d with
  | [] => [(k, v)]
  | (k', v') :: r =>
      if String.eqb k k' then (k, v) :: r else (k', v') :: set k v r
  end.

(** [d.items()] *)
Definition items (d : t) : list (string * V) := d.

(** A dictionary holds each key once. *)
Definition wf (d : t) : Prop := NoDup (keys d).
End Dict.

Arguments t : clear implicits.

End PyDict.

(** ** The bounded LRU mapping ([lru.LRU])

    [lru.LRU] is the third-party mapping behind both caches; it is modelled
    after its documented behaviour, which section 4.1 of the specification
    repeats for BoundedKeyedCache: a fixed capacity, [get] refreshes the
    recency of the key it finds, a membership test does not, and storing a key
    drops what exceeds the capacity from the least recently used end.
    The entries are kept most recently used first. *)
Module LRU.

Section Cache.
Context {V : Type}.

Record t := mk { size : nat; entries : list (string * V) }.

(** [LRU(size)] *)
Definition create (n : nat) : t := mk n [].

Definition keys (c : t) : list string := map fst (entries c).

Definition remove_key (k : string) (l : list (string * V)) :=
  filter (fun e => negb (String.eqb k (fst e))) l.

(** What the cache holds for [k], without touching the recency order. *)
Fixpoint assoc (k : string) (l : list (string * V)) : option V :=
  match l with
  | [] => None
  | (k', v) :: r => if String.eqb k k' then Some v else assoc k r
  end.

Definition peek (k : string) (c : t) : option V := assoc k (entries c).

(** [k in c] *)
Definition contains (k : string) (c : t) : bool :=
  match peek k c with Some _ => true | None => false end.

(** [c.get(k)]: the value and the cache with [k] moved to the front. *)
Definition get (k : string) (c : t) : option V * t :=
  match peek k c with
  | Some v => (Some v, mk (size c) ((k, v) :: remove_key k (entries c)))
  | None => (None, c)
  end.

(** [c[k] = v] *)
Definition set (k : string) (v : V) (c : t) : t :=
  mk (size c) (firstn (size c) ((k, v) :: remove_key k (entries c))).

(** [c.pop(k, None)] *)
Definition pop (k : string) (c : t) : t :=
  mk (size c) (remove_key k (entries c)).
End Cache.

Arguments t : clear implicits.

End LRU.

(** ** Exceptions, statements and observable events *)

(** The exceptions the modelled code can meet.  [SQLAlchemyError orig_code]
    stands for every exception of that class, [orig_code] being
    [err.orig.args[0]] when the driver gave one; [OtherException] is any
    exception outside that class. *)
Inductive exn : Type :=
  | SQLAlchemyError (orig_code : option Z)
  | OtherException (name : string)
  | AssertionError
  | KeyError (key : string)
  | RuntimeError.

Definition is_SQLAlchemyError (e : exn) : bool :=
  match e with SQLAlchemyError _ => true | _ => false end.

Inductive SupportedDialect : Type := MYSQL | POSTGRESQL | SQLITE.

Definition dialect_is_mysql (d : SupportedDialect) : bool :=
  match d with MYSQL => true | _ => false end.

(** The lambda statements of [..queries] that the resolver runs. *)
Inductive statement : Type :=
  | find_event_type_ids (event_types : list string).

(** A row of the [event_types] table as the query selects it:
    [(event_type_id, event_type)]. *)
Definition Row : Type := (Z * string)%type.

Inductive task : Type :=
  | RefreshEventTypesTask (event_types : list string).

Inductive event : Type :=
  | EvExecute (stmt : statement)
  | EvLogError (err : exn)
  | EvSleep (seconds : Q)
  | EvQueueTask (tsk : task).

(** ** The session and the effect monad *)

(** The database as one call sees it: the rows of [event_types], and the
    outcome the next attempts to execute a statement will meet ([None]: the
    attempt succeeds; after the list is used up every attempt succeeds). *)
Record Session : Type := mkSession {
  dialect : SupportedDialect;
  table : list Row;
  faults : list (option exn)
}.

(** [EventTypes] rows of [..db_schema]; [event_type] is nullable. *)
Record EventTypes : Type := mkEventTypes {
  event_type_id : Z;
  event_type : option string
}.

(** [EventTypeManager]: [_id_map] and [_pending] come from
    [BaseLRUTableManager.__init__], [_non_existent_event_types] from
    [EventTypeManager.__init__]. *)
Record EventTypeManager : Type := mkManager {
  _id_map : LRU.t Z;
  _pending : PyDict.t EventTypes;
  _non_existent_event_types : LRU.t unit
}.

Record World : Type := mkWorld {
  self : EventTypeManager;
  session : Session
}.

(** A computation returns or raises, leaves a world behind and emits the
    events it performed, oldest first. *)
Definition M (A : Type) : Type := World -> (exn + A) * World * list event.

Definition ret {A} (a : A) : M A := fun w => (inr a, w, []).

Definition raise {A} (e : exn) : M A := fun w => (inl e, w, []).

Definition bind {A B} (m : M A) (f : A -> M B) : M B :=
  fun w =>
    match m w with
    | (inl e, w1, t1) => (inl e, w1, t1)
    | (inr a, w1, t1) =>
        match f a w1 with
        | (r, w2, t2) => (r, w2, t1 ++ t2)
        end
    end.

Definition emit (e : event) : M unit := fun w => (inr tt, w, [e]).

Definition get_self : M EventTypeManager := fun w => (inr (self w), w, []).

Definition put_self (m : EventTypeManager) : M unit :=
  fun w => (inr tt, mkWorld m (session w), []).

Declare Scope eff_scope.
Delimit Scope eff_scope with eff.
Notation "x <- c1 ;; c2" := (bind c1 (fun x => c2))
  (at level 61, c1 at next level, right associativity) : eff_scope.
Notation "' pat <- c1 ;; c2" := (bind c1 (fun pat => c2))
  (at level 61, pat pattern, c1 at next level, right associativity)
  : eff_scope.
Notation "c1 ;;; c2" := (bind c1 (fun _ => c2))
  (at level 61, right associativity) : eff_scope.
Local Open Scope eff_scope.

(** [for x in l: body x] *)
Fixpoint for_each {A} (l : list A) (body : A -> M unit) : M unit :=
  match l with
  | [] => ret tt
  | x :: r => body x ;;; for_each r body
  end.

(** ** [util.py] *)

Definition RETRIES : nat := 3.
Definition QUERY_RETRY_WAIT : Q := 1 # 10.

Definition RETRYABLE_MYSQL_ERRORS : list Z := [1205; 1206; 1213]%Z.

(** [_is_retryable_error(instance, err)], the engine's dialect being the
    session's. *)
Definition _is_retryable_error (d : SupportedDialect) (err : exn) : bool :=
  dialect_is_mysql d &&
  match err with
  | SQLAlchemyError (Some code) =>
      existsb (Z.eqb code) RETRYABLE_MYSQL_ERRORS
  | _ => false
  end.

(** [take(take_num, iterable)]: the items taken and what the iterator still
    holds. *)
Definition take {A} (take_num : nat) (it : list A) : list A * list A :=
  (firstn take_num it, skipn take_num it).

(** [chunked(iterable, chunked_num)] calls [take] on one shared iterator until
    it returns the sentinel [[]].  [fuel] bounds the number of calls. *)
Fixpoint chunked_from {A} (fuel : nat) (chunked_num : nat) (it : list A)
  : list (list A) :=
  match fuel with
  | O => []
  | S fuel' =>
      match take chunked_num it with
      | ([], _) => []
      | (chunk, it') => chunk :: chunked_from fuel' chunked_num it'
      end
  end.

Definition chunked {A} (iterable : list A) (chunked_num : nat)
  : list (list A) :=
  chunked_from (S (List.length iterable)) chunked_num iterable.

(** Modelled from the spec: [..queries.find_event_type_ids] is not among the
    sources; section 4.2 gives the statement as
    [SELECT id, name FROM event_types WHERE name IN (chunk)]. *)
Definition run_statement (stmt : statement) (rows : list Row) : list Row :=
  match stmt with
  | find_event_type_ids event_types =>
      filter (fun r => existsb (String.eqb (snd r)) event_types) rows
  end.

(** [session.connection().execute(stmt)] followed by [.all()]: one attempt. *)
Definition session_execute (stmt : statement) : M (list Row) :=
  fun w =>
    let s := session w in
    let ok := inr (run_statement stmt (table s)) in
    match faults s with
    | [] => (ok, w, [EvExecute stmt])
    | None :: fs =>
        (ok, mkWorld (self w) (mkSession (dialect s) (table s) fs),
         [EvExecute stmt])
    | Some e :: fs =>
        (inl e, mkWorld (self w) (mkSession (dialect s) (table s) fs),
         [EvExecute stmt])
    end.

(** [try: body except SQLAlchemyError as err: handler err] *)
Definition try_except_SQLAlchemyError {A}
  (body : M A) (handler : exn -> M A) : M A :=
  fun w =>
    match body w with
    | (inl e, w1, t1) =>
        if is_SQLAlchemyError e then
          match handler e w1 with
          | (r, w2, t2) => (r, w2, t1 ++ t2)
          end
        else (inl e, w1, t1)
    | r => r
    end.

(** The loop [for tryno in range(RETRIES)] of [execute_stmt_lambda_element],
    over the attempts still to make.  The resolver calls it with
    [orm_rows=False] and no time window, so every attempt is
    [session.connection().execute(stmt)] and returns [executed.all()];
    [retries] is the constant the body compares [tryno] with. *)
Fixpoint execute_attempts (retries : nat) (trynos : list nat)
  (stmt : statement) : M (list Row) :=
  match trynos with
  | [] => raise RuntimeError
  | tryno :: rest =>
      try_except_SQLAlchemyError
        (session_execute stmt)
        (fun err =>
           emit (EvLogError err) ;;;
           if Nat.eqb tryno (retries - 1) then raise err
           else emit (EvSleep QUERY_RETRY_WAIT) ;;;
                execute_attempts retries rest stmt)
  end.

Definition execute_stmt_lambda_element (stmt : statement) : M (list Row) :=
  execute_attempts RETRIES (seq 0 RETRIES) stmt.

(** ** [table_managers/event_types.py] *)

Definition CACHE_SIZE : nat := 2048.

(** [EventTypeManager(recorder)] *)
Definition init : EventTypeManager :=
  mkManager (LRU.create CACHE_SIZE) PyDict.empty (LRU.create CACHE_SIZE).

Definition with_id_map (m : EventTypeManager) (c : LRU.t Z) :=
  mkManager c (_pending m) (_non_existent_event_types m).

Definition with_pending (m : EventTypeManager) (p : PyDict.t EventTypes) :=
  mkManager (_id_map m) p (_non_existent_event_types m).

Definition with_non_existent (m : EventTypeManager) (c : LRU.t unit) :=
  mkManager (_id_map m) (_pending m) c.

Definition modify_self (f : EventTypeManager -> EventTypeManager) : M unit :=
  m <- get_self ;; put_self (f m).

Definition is_None {A} (o : option A) : bool :=
  match o with None => true | Some _ => false end.

Definition is_empty {A} (l : list A) : bool :=
  match l with [] => true | _ => false end.

(** [d[k]] as an expression *)
Definition getitem {V} (d : PyDict.t V) (k : string) : M V :=
  match PyDict.get k d with
  | Some v => ret v
  | None => raise (KeyError k)
  end.

(** [[x for x in l if keep x]] *)
Fixpoint filter_m {A} (keep : A -> M bool) (l : list A) : M (list A) :=
  match l with
  | [] => ret []
  | x :: r =>
      b <- keep x ;;
      r' <- filter_m keep r ;;
      ret (if b then x :: r' else r')
  end.

(** A [for] loop that updates a local variable. *)
Fixpoint fold_m {A B} (l : list A) (body : B -> A -> M B) (b : B) : M B :=
  match l with
  | [] => ret b
  | x :: r => b' <- body b x ;; fold_m r body b'
  end.

(** The state of the loop of [_get_initial_results_and_missing]. *)
Definition Partition : Type := (PyDict.t (option Z) * list string)%type.

Definition _get_initial_results_and_missing_step
  (acc : Partition) (event_type : string) : M Partition :=
  let '(results, missing) := acc in
  m <- get_self ;;
  let '(event_type_id, id_map') := LRU.get event_type (_id_map m) in
  put_self (with_id_map m id_map') ;;;
  let '(results, missing) :=
    if is_None event_type_id
       && LRU.contains event_type (_non_existent_event_types m)
    then (PyDict.set event_type None results, missing)
    else if is_None event_type_id
    then (results, missing ++ [event_type])
    else (results, missing) in
  ret (PyDict.set event_type event_type_id results, missing).

Definition _get_initial_results_and_missing (event_types : list string)
  : M Partition :=
  fold_m event_types _get_initial_results_and_missing_step (PyDict.empty, []).

(** [self._non_existent_event_types[event_type] = None] for each name, or one
    [RefreshEventTypesTask] on the recorder's queue. *)
Definition _handle_non_existent_event_types
  (non_existent : list string) (from_recorder : bool) : M unit :=
  if from_recorder then
    for_each non_existent (fun event_type =>
      modify_self (fun m =>
        with_non_existent m
          (LRU.set event_type tt (_non_existent_event_types m))))
  else
    emit (EvQueueTask (RefreshEventTypesTask non_existent)).

Definition add_pending (db_event_type : EventTypes) : M unit :=
  match event_type db_event_type with
  | None => raise AssertionError
  | Some event_type =>
      modify_self (fun m =>
        with_pending m (PyDict.set event_type db_event_type (_pending m)))
  end.

Definition clear_non_existent (event_type : string) : M unit :=
  modify_self (fun m =>
    with_non_existent m (LRU.pop event_type (_non_existent_event_types m))).

Definition post_commit_pending : M unit :=
  m <- get_self ;;
  for_each (PyDict.items (_pending m)) (fun '(event_type, db_event_types) =>
    modify_self (fun m =>
      with_id_map m
        (LRU.set event_type (event_type_id db_event_types) (_id_map m))) ;;;
    clear_non_existent event_type) ;;;
  modify_self (fun m => with_pending m PyDict.empty).

Definition evict_purged (event_types : list string) : M unit :=
  for_each event_types (fun event_type =>
    modify_self (fun m => with_id_map m (LRU.pop event_type (_id_map m)))).

Section Resolver.

(** [..const.SQLITE_MAX_BIND_VARS], a constant of a module that is not
    among the sources. *)
Variable SQLITE_MAX_BIND_VARS : nat.

Definition _fetch_missing_event_ids_from_db_row
  (results : PyDict.t (option Z)) (row : Row) : M (PyDict.t (option Z)) :=
  let '(event_type_id, event_type) := row in
  modify_self (fun m =>
    with_id_map m (LRU.set event_type event_type_id (_id_map m))) ;;;
  ret (PyDict.set event_type (Some event_type_id) results).

(** [results] is the caller's dictionary, updated in place; it is returned
    here. *)
Definition _fetch_missing_event_ids_from_db
  (missing : list string) (results : PyDict.t (option Z))
  : M (PyDict.t (option Z)) :=
  fold_m (chunked missing SQLITE_MAX_BIND_VARS)
    (fun results missing_chunk =>
       rows <- execute_stmt_lambda_element
                 (find_event_type_ids missing_chunk) ;;
       fold_m rows _fetch_missing_event_ids_from_db_row results)
    results.

(** [session.no_autoflush] only suspends the ORM's flushing and has no
    counterpart here. *)
Definition get_many (event_types : list string) (from_recorder : bool)
  : M (PyDict.t (option Z)) :=
  '(results, missing) <- _get_initial_results_and_missing event_types ;;
  if is_empty missing then ret results
  else
    results <- _fetch_missing_event_ids_from_db missing results ;;
    non_existent <-
      filter_m (fun event_type =>
                  v <- getitem results event_type ;; ret (is_None v))
               missing ;;
    (if negb (is_empty non_existent)
     then _handle_non_existent_event_types non_existent from_recorder
     else ret tt) ;;;
    ret results.

(** [from_recorder] is a parameter of [get] that its body does not use. *)
Definition get (event_type : string) (from_recorder : bool)
  : M (option Z) :=
  results <- get_many [event_type] false ;;
  getitem results event_type.

End Resolver.

(** * Vocabulary of the properties

    Functions and predicates in which the properties below are stated. *)

(** [recent c seen]: the keys of [seen] are exactly those of a prefix of the
    cache, which holds each of them once. *)
Definition recent {V} (c : LRU.t V) (seen : list string) : Prop :=
  exists front back,
    LRU.entries c = front ++ back /\
    NoDup (map fst front) /\
    (forall k, In k (map fst front) <-> In k seen).

(** [c[k] = v] for each pair of a list, in order. *)
Definition lru_set_all {V} (kvs : list (string * V)) (c : LRU.t V)
  : LRU.t V :=
  fold_left (fun c kv => LRU.set (fst kv) (snd kv) c) kvs c.

(** The manager after the loop of [post_commit_pending] over [items]. *)
Definition commit_items (items : list (string * EventTypes))
  (m : EventTypeManager) : EventTypeManager :=
  mkManager
    (lru_set_all (map (fun kv => (fst kv, event_type_id (snd kv))) items)
                 (_id_map m))
    (_pending m)
    (fold_left (fun c k => LRU.pop k c) (map fst items)
               (_non_existent_event_types m)).

(** What one step of [_get_initial_results_and_missing] does to the loop
    state, as a function. *)
Definition partition_step (m : EventTypeManager) (acc : Partition)
  (name : string) : Partition :=
  let '(results, missing) := acc in
  match LRU.peek name (_id_map m) with
  | Some id => (PyDict.set name (Some id) results, missing)
  | None =>
      if LRU.contains name (_non_existent_event_types m)
      then (PyDict.set name None (PyDict.set name None results), missing)
      else (PyDict.set name None results, missing ++ [name])
  end.

(** [get(event_type)] called [n] times in a row; the results in order. *)
Fixpoint get_repeatedly (bind_vars : nat) (event_type : string)
  (from_recorder : bool) (n : nat) : M (list (option Z)) :=
  match n with
  | O => ret []
  | S n' =>
      r <- get bind_vars event_type from_recorder ;;
      rs <- get_repeatedly bind_vars event_type from_recorder n' ;;
      ret (r :: rs)
  end.

(** The trace of a run begins with event [e]. *)
Definition starts_with {A} (e : event) (run : (exn + A) * World * list event)
  : Prop :=
  exists t, snd run = e :: t.

(** The value the specification gives as an example of the bound on bind
    parameters. *)
Definition example_max_bind_vars : nat := 990.

(** Event types numbered [i], with distinct names, and their records. *)
Definition name_of (i : nat) : string :=
  "event_" ++ NilEmpty.string_of_uint (Nat.to_uint i).

Definition record_of (i : nat) : EventTypes :=
  mkEventTypes (Z.of_nat i) (Some (name_of i)).

(** A commit interval in which more event types are new than the id cache
    has room for: [crowded] is the manager after [add_pending] of
    [CACHE_SIZE + 1] records with distinct names, the store holding their
    rows. *)
Definition crowded : World :=
  snd (fst (for_each (seq 0 (S CACHE_SIZE))
              (fun i => add_pending (record_of i))
              (mkWorld init
                 (mkSession SQLITE
                    (map (fun i => (Z.of_nat i, name_of i))
                         (seq 0 (S CACHE_SIZE)))
                    [])))).

(** The world once the session has used up its next fault. *)
Definition after_attempt (w : World) (fs : list (option exn)) : World :=
  mkWorld (self w) (mkSession (dialect (session w)) (table (session w)) fs).

(** The events of a run of attempts that all fail: every error but the last
    is logged and slept on, the last is logged only. *)
Fixpoint exhausted_trace (stmt : statement) (errs : list exn) : list event :=
  match errs with
  | [] => []
  | [e] => [EvExecute stmt; EvLogError e]
  | e :: rest =>
      [EvExecute stmt; EvLogError e; EvSleep QUERY_RETRY_WAIT]
      ++ exhausted_trace stmt rest
  end.

(** How many times a run executed a statement. *)
Definition attempts (t : list event) : nat :=
  List.length (filter (fun e => match e with EvExecute _ => true
                                        | _ => false end) t).

(** The durations a run slept, in order. *)
Definition sleeps (t : list event) : list Q :=
  flat_map (fun e => match e with EvSleep s => [s] | _ => [] end) t.

(** The number of chunks of [n] names: the quotient rounded up. *)
Definition ceil_div (total n : nat) : nat := (total + n - 1) / n.

(** The refresh tasks a run put on the recorder's queue. *)
Definition queued_tasks (t : list event) : list task :=
  flat_map (fun e => match e with EvQueueTask k => [k] | _ => [] end) t.

(** [results[event_type] = event_type_id] for the rows of a chunk. *)
Definition store_rows (rows : list Row) (results : PyDict.t (option Z))
  : PyDict.t (option Z) :=
  fold_left (fun res (row : Row) => PyDict.set (snd row) (Some (fst row)) res)
            rows results.

(** [self._id_map[event_type] = event_type_id] for the rows of a chunk. *)
Definition cache_rows (rows : list Row) (c : LRU.t Z) : LRU.t Z :=
  lru_set_all (map (fun row : Row => (snd row, fst row)) rows) c.

(** A session none of whose coming attempts fails. *)
Definition healthy (s : Session) : Prop :=
  Forall (fun f => f = None) (faults s).

(** The body of the loop over the chunks. *)
Definition fetch_chunk (results : PyDict.t (option Z))
  (missing_chunk : list string) : M (PyDict.t (option Z)) :=
  rows <- execute_stmt_lambda_element (find_event_type_ids missing_chunk) ;;
  fold_m rows _fetch_missing_event_ids_from_db_row results.

(** The unresolved names for which the results hold [None] after the
    fetch. *)
Definition absent_names (missing : list string)
  (results : PyDict.t (option Z)) : list string :=
  filter (fun n => match PyDict.get n results with
                   | Some None => true
                   | _ => false
                   end) missing.

(** The comprehension [[event_type for event_type in missing
    if results[event_type] is None]], as a function. *)
Fixpoint non_existent_of (results : PyDict.t (option Z))
  (missing : list string) : exn + list string :=
  match missing with
  | [] => inr []
  | n :: rest =>
      match PyDict.get n results with
      | None => inl (KeyError n)
      | Some v =>
          match non_existent_of results rest with
          | inl e => inl e
          | inr l => inr (if is_None v then n :: l else l)
          end
      end
  end.

(** * The rest of the resolver and of [util.py] *)

(** ** [EventTypeManager.load] and sequences of calls *)

(** An [Event] of [homeassistant.core], as far as [load] reads it. *)
Record Event : Type := mkEvent {
  ev_event_type : option string
}.

(** [{event.event_type for event in events if event.event_type is not None}]
    as the list of its elements in the order [set_order] gives them: a Python
    set iterates in an order the language leaves open, so [set_order] is a
    parameter (see [set_order_ok]). *)
Definition event_types_of (events : list Event) : list string :=
  flat_map (fun e => match ev_event_type e with
                     | Some t => [t]
                     | None => []
                     end) events.

(** What is asked of an iteration order: the elements, each once. *)
Definition set_order_ok (set_order : list string -> list string) : Prop :=
  forall l, NoDup (set_order l) /\ forall x, In x (set_order l) <-> In x l.

Definition load (SQLITE_MAX_BIND_VARS : nat)
  (set_order : list string -> list string)
  (events : list Event) : M unit :=
  get_many SQLITE_MAX_BIND_VARS (set_order (event_types_of events)) true ;;;
  ret tt.

(** The calls the recorder makes on the manager. *)
Inductive call : Type :=
  | CallLoad (events : list Event)
  | CallGet (event_type : string) (from_recorder : bool)
  | CallGetMany (event_types : list string) (from_recorder : bool)
  | CallAddPending (db_event_type : EventTypes)
  | CallPostCommitPending
  | CallEvictPurged (event_types : list string).

Definition run_call (SQLITE_MAX_BIND_VARS : nat)
  (set_order : list string -> list string) (c : call) : M unit :=
  match c with
  | CallLoad events => load SQLITE_MAX_BIND_VARS set_order events
  | CallGet event_type from_recorder =>
      get SQLITE_MAX_BIND_VARS event_type from_recorder ;;; ret tt
  | CallGetMany event_types from_recorder =>
      get_many SQLITE_MAX_BIND_VARS event_types from_recorder ;;; ret tt
  | CallAddPending db_event_type => add_pending db_event_type
  | CallPostCommitPending => post_commit_pending
  | CallEvictPurged event_types => evict_purged event_types
  end.

(** The world after a sequence of calls; a call that raises leaves the world
    it reached and the next call goes on from there. *)
Fixpoint after_calls (SQLITE_MAX_BIND_VARS : nat)
  (set_order : list string -> list string) (calls : list call) (w : World)
  : World :=
  match calls with
  | [] => w
  | c :: rest =>
      after_calls SQLITE_MAX_BIND_VARS set_order rest
        (snd (fst (run_call SQLITE_MAX_BIND_VARS set_order c w)))
  end.

(** The caches as [lru.LRU] keeps them: no key twice and never more entries
    than the capacity [CACHE_SIZE] they were made with; [_pending] a
    dictionary. *)
Definition lru_wf {V} (c : LRU.t V) : Prop :=
  LRU.size c = CACHE_SIZE /\
  List.length (LRU.entries c) <= LRU.size c /\
  NoDup (LRU.keys c).

Definition manager_wf (m : EventTypeManager) : Prop :=
  lru_wf (_id_map m) /\
  lru_wf (_non_existent_event_types m) /\
  PyDict.wf (_pending m).

(** No name is in the id cache and in the negative cache at once. *)
Definition caches_disjoint (m : EventTypeManager) : Prop :=
  forall k,
    LRU.peek k (_id_map m) <> None ->
    LRU.contains k (_non_existent_event_types m) = false.

(** A name that [get_many] has to ask the store for. *)
Definition unresolved (m : EventTypeManager) (name : string) : bool :=
  is_None (LRU.peek name (_id_map m))
  && negb (LRU.contains name (_non_existent_event_types m)).

(** The id the table holds for a name, if any. *)
Definition table_id (tb : list Row) (name : string) : option Z :=
  option_map fst (find (fun row : Row => String.eqb (snd row) name) tb).

(** The results and the unresolved names with which the cache partition of
    [get_many] leaves its loop. *)
Definition partition_results (m : EventTypeManager) (names : list string)
  (results : PyDict.t (option Z)) : PyDict.t (option Z) :=
  fold_left (fun res n => PyDict.set n (LRU.peek n (_id_map m)) res)
            names results.

Definition partition_missing (m : EventTypeManager) (names : list string)
  : list string :=
  filter (unresolved m) names.

(** ** Programs with a state, exceptions and a trace

    The other functions of [util.py] work on other objects than the
    resolver (queries, jobs, sessions, connections, files); they are
    embedded in this one monad, over the state [S], the exceptions [X] and
    the events [E] of each. *)

Definition prog (S X E A : Type) : Type := S -> (X + A) * S * list E.

Section Prog.
Context {S X E : Type}.

Definition pret {A} (a : A) : prog S X E A := fun s => (inr a, s, []).

Definition praise {A} (x : X) : prog S X E A := fun s => (inl x, s, []).

Definition pbind {A B} (m : prog S X E A) (f : A -> prog S X E B)
  : prog S X E B :=
  fun s =>
    match m s with
    | (inl x, s1, t1) => (inl x, s1, t1)
    | (inr a, s1, t1) =>
        match f a s1 with
        | (r, s2, t2) => (r, s2, t1 ++ t2)
        end
    end.

Definition pemit (e : E) : prog S X E unit := fun s => (inr tt, s, [e]).

Definition pget : prog S X E S := fun s => (inr s, s, []).

Definition pput (s : S) : prog S X E unit := fun _ => (inr tt, s, []).

(** [try: body / except <the exceptions handled> as err: handler err] *)
Definition ptry {A} (body : prog S X E A) (handled : X -> bool)
  (handler : X -> prog S X E A) : prog S X E A :=
  fun s =>
    match body s with
    | (inl x, s1, t1) =>
        if handled x then
          match handler x s1 with
          | (r, s2, t2) => (r, s2, t1 ++ t2)
          end
        else (inl x, s1, t1)
    | r => r
    end.

(** [try: body / finally: final]: [final] runs whatever [body] did; what
    [final] raises replaces the outcome of [body]. *)
Definition pfinally {A} (body : prog S X E A) (final : prog S X E unit)
  : prog S X E A :=
  fun s =>
    match body s with
    | (r, s1, t1) =>
        match final s1 with
        | (inl x, s2, t2) => (inl x, s2, t1 ++ t2)
        | (inr _, s2, t2) => (r, s2, t1 ++ t2)
        end
    end.
End Prog.

Declare Scope prog_scope.
Delimit Scope prog_scope with prog.
Notation "x <~ c1 ;; c2" := (pbind c1 (fun x => c2))
  (at level 61, c1 at next level, right associativity) : prog_scope.
Notation "c1 ~;; c2" := (pbind c1 (fun _ => c2))
  (at level 61, right associativity) : prog_scope.
Local Open Scope prog_scope.

(** ** [execute], [execute_query], [handle_query_error], [log_debug] *)

Module Queries.

(** The exceptions a query can meet: those of class [SQLAlchemyError], and
    the others. *)
Inductive exc : Type :=
  | SQLAlchemyError (msg : string)
  | Other (name : string)
  | RuntimeError.

Definition is_SQLAlchemyError (e : exc) : bool :=
  match e with SQLAlchemyError _ => true | _ => false end.

Section Rows.
(** The rows of the query and what [to_native] turns them into. *)
Variables row native : Type.
Variable to_native : row -> bool -> option native.

(** [execute] returns native objects or the rows as they are. *)
Inductive result : Type :=
  | Natives (l : list native)
  | Rows (l : list row).

Definition len (r : result) : nat :=
  match r with Natives l => List.length l | Rows l => List.length l end.

Inductive event : Type :=
  | EvQuery
  | EvPerfCounter
  | EvLogDebug (converting : bool) (rows : nat)
  | EvLogError (err : exc)
  | EvSleep (seconds : Q).

(** The query [qry] and its surroundings: the rows the database holds for
    it, what the coming round trips to the database will meet (as for
    [Session]), and whether the logger is enabled for [DEBUG]. *)
Record state : Type := mkState {
  qry_rows : list row;
  qry_faults : list (option exc);
  debug_enabled : bool
}.

Definition P := prog state exc event.

(** Iterating [qry] or calling [qry.all()]: one round trip. *)
Definition run_qry : P (list row) :=
  fun s =>
    match qry_faults s with
    | [] => (inr (qry_rows s), s, [EvQuery])
    | None :: fs =>
        (inr (qry_rows s), mkState (qry_rows s) fs (debug_enabled s),
         [EvQuery])
    | Some e :: fs =>
        (inl e, mkState (qry_rows s) fs (debug_enabled s), [EvQuery])
    end.

(** [time.perf_counter()]; the reading itself only goes into the message
    of [log_debug]. *)
Definition perf_counter : P unit := pemit EvPerfCounter.

Definition log_debug (debug to_native_flag : bool) (res : result) : P unit :=
  perf_counter ~;;
  if to_native_flag
  then pemit (EvLogDebug true (len res))
  else pemit (EvLogDebug false (len res)).

Definition handle_query_error (err : exc) (tryno : nat) : P unit :=
  pemit (EvLogError err) ~;;
  if Nat.eqb tryno (RETRIES - 1) then praise err
  else pemit (EvSleep QUERY_RETRY_WAIT).

Definition execute_query (to_native_flag validate_entity_ids : bool)
  : P result :=
  rows <~ run_qry ;;
  if to_native_flag
  then pret (Natives
               (flat_map (fun r => match to_native r validate_entity_ids with
                                   | Some n => [n]
                                   | None => []
                                   end) rows))
  else pret (Rows rows).

(** The loop [for tryno in range(RETRIES)] of [execute], over the attempts
    still to make. *)
Fixpoint execute_from (debug : bool) (trynos : list nat)
  (to_native_flag validate_entity_ids : bool) : P result :=
  match trynos with
  | [] => praise RuntimeError
  | tryno :: rest =>
      ptry
        ((if debug then perf_counter else pret tt) ~;;
         res <~ execute_query to_native_flag validate_entity_ids ;;
         (if debug then log_debug debug to_native_flag res else pret tt) ~;;
         pret res)
        is_SQLAlchemyError
        (fun err =>
           handle_query_error err tryno ~;;
           execute_from debug rest to_native_flag validate_entity_ids)
  end.

(** [_LOGGER.isEnabledFor(logging.DEBUG)] is read once, before the loop. *)
Definition execute (to_native_flag validate_entity_ids : bool) : P result :=
  s <~ pget ;;
  execute_from (debug_enabled s) (seq 0 RETRIES)
               to_native_flag validate_entity_ids.

(** What [execute_query] makes of the rows. *)
Definition converted (to_native_flag validate_entity_ids : bool)
  (rows : list row) : result :=
  if to_native_flag
  then Natives (flat_map (fun r => match to_native r validate_entity_ids with
                                   | Some n => [n]
                                   | None => []
                                   end) rows)
  else Rows rows.

(** What a trace shows: the round trips, the sleeps, the debug messages and
    the errors logged. *)
Definition queries (t : list event) : nat :=
  List.length (filter (fun e => match e with EvQuery => true
                                        | _ => false end) t).

Definition slept (t : list event) : list Q :=
  flat_map (fun e => match e with EvSleep q => [q] | _ => [] end) t.

Definition debug_messages (t : list event) : list (bool * nat) :=
  flat_map (fun e => match e with EvLogDebug c n => [(c, n)]
                             | _ => [] end) t.

Definition errors_logged (t : list event) : list exc :=
  flat_map (fun e => match e with EvLogError x => [x] | _ => [] end) t.

(** The state once the coming round trips [fs] are what is left. *)
Definition with_faults (s : state) (fs : list (option exc)) : state :=
  mkState (qry_rows s) fs (debug_enabled s).

End Rows.

Arguments qry_rows {row}.
Arguments qry_faults {row}.
Arguments debug_enabled {row}.
Arguments mkState {row}.
Arguments with_faults {row}.
Arguments len {row native}.
Arguments Natives {row native}.
Arguments Rows {row native}.

End Queries.

(** ** [_is_retryable_error], [retryable_database_job],
    [database_job_retry_wrapper] *)

Module Jobs.

(** An argument of the driver's exception [err.orig]. *)
Inductive arg : Type :=
  | AInt (z : Z)
  | AStr (s : string).

(** The exceptions a job can meet.  [OperationalError orig] carries
    [err.orig]: [None], or the [args] of the driver's exception. *)
Inductive exc : Type :=
  | OperationalError (orig : option (list arg))
  | AssertionError
  | IndexError
  | Other (name : string).

Definition is_OperationalError (e : exc) : bool :=
  match e with OperationalError _ => true | _ => false end.

(** The recorder as the wrappers read it: [instance.engine] (its dialect
    name) and [instance.db_retry_wait]. *)
Record Recorder : Type := mkRecorder {
  engine : option SupportedDialect;
  db_retry_wait : Q
}.

Inductive event : Type :=
  | EvJob (label : string)
  | EvLogInfo (message : arg) (description : string)
  | EvLogWarning (description : string) (err : exc)
  | EvSleep (seconds : Q).

(** [x in RETRYABLE_MYSQL_ERRORS] *)
Definition in_retryable (a : arg) : bool :=
  match a with
  | AInt z => existsb (Z.eqb z) RETRYABLE_MYSQL_ERRORS
  | AStr _ => false
  end.

Section WithState.
Variable S : Type.

Definition P := prog S exc event.

(** [_is_retryable_error(instance, err)] for an [OperationalError] whose
    [orig] is given. *)
Definition _is_retryable_error (instance : Recorder)
  (orig : option (list arg)) : P bool :=
  match engine instance with
  | None => praise AssertionError
  | Some dialect_name =>
      pret (dialect_is_mysql dialect_name
            && match orig with
               | Some (a :: _) => in_retryable a
               | _ => false
               end)
  end.

(** [err.orig.args[1]] *)
Definition orig_args_1 (orig : option (list arg)) : P arg :=
  match orig with
  | Some (_ :: a :: _) => pret a
  | Some _ => praise IndexError
  | None => praise AssertionError
  end.

Definition retryable_database_job (description : string)
  (job : Recorder -> P bool) (instance : Recorder) : P bool :=
  ptry (job instance) is_OperationalError
    (fun err =>
       match err with
       | OperationalError orig =>
           retryable <~ _is_retryable_error instance orig ;;
           if retryable then
             message <~ orig_args_1 orig ;;
             pemit (EvLogInfo message description) ~;;
             pemit (EvSleep (db_retry_wait instance)) ~;;
             pret false
           else
             pemit (EvLogWarning description err) ~;;
             pret true
       | _ => praise err
       end).

(** The loop [for attempt in range(attempts)] of the wrapper, over the
    attempts still to make; the loop that ends returns [None]. *)
Fixpoint retry_from (description : string) (attempts : nat)
  (todo : list nat) (job : Recorder -> P unit) (instance : Recorder)
  : P unit :=
  match todo with
  | [] => pret tt
  | attempt :: rest =>
      ptry (job instance) is_OperationalError
        (fun err =>
           match err with
           | OperationalError orig =>
               stop_now <~
                 (if Nat.eqb attempt (attempts - 1) then pret true
                  else retryable <~ _is_retryable_error instance orig ;;
                       pret (negb retryable)) ;;
               if stop_now then praise err
               else
                 message <~ orig_args_1 orig ;;
                 pemit (EvLogInfo message description) ~;;
                 pemit (EvSleep (db_retry_wait instance)) ~;;
                 retry_from description attempts rest job instance
           | _ => praise err
           end)
  end.

Definition database_job_retry_wrapper (description : string)
  (attempts : nat) (job : Recorder -> P unit) (instance : Recorder)
  : P unit :=
  retry_from description attempts (seq 0 attempts) job instance.

End WithState.

(** A job that does what a script says: each call takes the next outcome
    ([None]: the job returns), and returns once the script is used up. *)
Definition scripted_job (label : string) (_ : Recorder)
  : prog (list (option exc)) exc event unit :=
  fun script =>
    match script with
    | [] => (inr tt, [], [EvJob label])
    | None :: rest => (inr tt, rest, [EvJob label])
    | Some e :: rest => (inl e, rest, [EvJob label])
    end.

Definition calls (t : list event) : nat :=
  List.length (filter (fun e => match e with EvJob _ => true
                                        | _ => false end) t).

Definition slept (t : list event) : list Q :=
  flat_map (fun e => match e with EvSleep q => [q] | _ => [] end) t.

(** An [OperationalError] whose first argument is one of
    [RETRYABLE_MYSQL_ERRORS]: what [_is_retryable_error] accepts on MySQL. *)
Definition has_retryable_code (e : exc) : bool :=
  match e with
  | OperationalError (Some (a :: _)) => in_retryable a
  | _ => false
  end.

(** Such an error that also carries the message the wrappers log. *)
Definition transient (e : exc) : bool :=
  match e with
  | OperationalError (Some (a :: _ :: _)) => in_retryable a
  | _ => false
  end.

(** The message [err.orig.args[1]] that the wrappers log. *)
Definition message_of (e : exc) : arg :=
  match e with
  | OperationalError (Some (_ :: m :: _)) => m
  | _ => AStr EmptyString
  end.

End Jobs.

(** ** The second Sunday of a month ([util.py], [second_sunday])

    [datetime.date] as Python defines it: a proleptic Gregorian date, made
    by [date(year, month, day)], which raises [ValueError] outside the
    calendar; [toordinal] counts days from 0001-01-01 = 1 and [weekday] has
    Monday = 0 ... Sunday = 6. *)

Module Dates.

Definition FIRST_POSSIBLE_SUNDAY : Z := 8.
Definition SUNDAY_WEEKDAY : Z := 6.
Definition DAYS_IN_WEEK : Z := 7.

Definition MINYEAR : Z := 1.
Definition MAXYEAR : Z := 9999.

Inductive exc := ValueError.

Record date := mkDate { year : Z; month : Z; day : Z }.

Definition is_leap (y : Z) : bool :=
  (y mod 4 =? 0)%Z && (negb (y mod 100 =? 0)%Z || (y mod 400 =? 0)%Z).

Definition days_in_month (y m : Z) : Z :=
  if (m =? 2)%Z && is_leap y then 29%Z
  else nth (Z.to_nat m)
         [-1; 31; 28; 31; 30; 31; 30; 31; 31; 30; 31; 30; 31]%Z 0%Z.

Definition days_before_year (y : Z) : Z :=
  let y' := (y - 1)%Z in
  (y' * 365 + y' / 4 - y' / 100 + y' / 400)%Z.

Definition days_before_month (y m : Z) : Z :=
  (nth (Z.to_nat m)
     [-1; 0; 31; 59; 90; 120; 151; 181; 212; 243; 273; 304; 334] 0
   + (if (2 <? m) && is_leap y then 1 else 0))%Z.

(** [date(year, month, day)] *)
Definition new_date (y m d : Z) : exc + date :=
  if (MINYEAR <=? y)%Z && (y <=? MAXYEAR)%Z
     && (1 <=? m)%Z && (m <=? 12)%Z
     && (1 <=? d)%Z && (d <=? days_in_month y m)%Z
  then inr (mkDate y m d) else inl ValueError.

Definition toordinal (d : date) : Z :=
  (days_before_year (year d) + days_before_month (year d) (month d)
   + day d)%Z.

Definition weekday (d : date) : Z := ((toordinal d + 6) mod 7)%Z.

(** [d.replace(day=new_day)] *)
Definition replace_day (d : date) (new_day : Z) : exc + date :=
  new_date (year d) (month d) new_day.

Definition second_sunday (year month : Z) : exc + date :=
  match new_date year month FIRST_POSSIBLE_SUNDAY with
  | inl e => inl e
  | inr second =>
      let day_of_week := weekday second in
      if (day_of_week =? SUNDAY_WEEKDAY)%Z then inr second
      else
        replace_day second
          (FIRST_POSSIBLE_SUNDAY
           + (SUNDAY_WEEKDAY - day_of_week) mod DAYS_IN_WEEK)%Z
  end.

Definition is_second_sunday (date_time : date) : exc + bool :=
  match second_sunday (year date_time) (month date_time) with
  | inl e => inl e
  | inr d => inr (day d =? day date_time)%Z
  end.

(** A year and a month of the calendar. *)
Definition in_calendar (y m : Z) : Prop :=
  (MINYEAR <= y <= MAXYEAR /\ 1 <= m <= 12)%Z.

End Dates.

(** ** [session_scope]

    The context manager is embedded together with the [with] block it
    guards: [body] is the block, which runs where the generator yields and
    whose exception is thrown into the generator at that point.  The block
    that ends returns [Some] of its value; [None] says that its exception
    was suppressed and the program goes on after the block. *)

Section Locals.
Context {S X E L : Type}.

(** A local variable of type [L] around a program. *)
Definition plocal {A} (init : L) (m : prog (S * L) X E A) : prog S X E A :=
  fun s =>
    match m (s, init) with
    | (r, (s1, _), t) => (r, s1, t)
    end.

Definition plift {A} (m : prog S X E A) : prog (S * L) X E A :=
  fun sl =>
    match m (fst sl) with
    | (r, s1, t) => (r, (s1, snd sl), t)
    end.

Definition pget_local : prog (S * L) X E L :=
  fun sl => (inr (snd sl), sl, []).

Definition pset_local (l : L) : prog (S * L) X E unit :=
  fun sl => (inr tt, (fst sl, l), []).
End Locals.

Module Scope.

(** The exceptions: [RuntimeError] and the other classes under
    [Exception], and those that are a [BaseException] only
    ([KeyboardInterrupt], [SystemExit], ...), which [except Exception]
    does not catch. *)
Inductive exc : Type :=
  | RuntimeError (msg : string)
  | Error (name : string)
  | BaseOnly (name : string).

Definition is_Exception (e : exc) : bool :=
  match e with BaseOnly _ => false | _ => true end.

Inductive event : Type :=
  | EvGetSession
  | EvBlock (label : string)
  | EvLogException (err : exc)
  | EvCommit
  | EvRollback
  | EvClose.

(** The session: whether it is in a transaction, and what its methods
    will raise, if anything. *)
Record Session : Type := mkSession {
  transaction : bool;
  commit_fault : option exc;
  rollback_fault : option exc;
  close_fault : option exc
}.

Inductive HomeAssistant : Type := Hass.
Inductive SessionRef : Type := TheSession.

Definition P := prog Session exc event.

Definition method (e : event) (fault : Session -> option exc) : P unit :=
  fun s =>
    match fault s with
    | Some x => (inl x, s, [e])
    | None => (inr tt, s, [e])
    end.

(** [get_instance(hass).get_session()] *)
Definition get_session (_ : HomeAssistant) : P SessionRef :=
  pemit EvGetSession ~;; pret TheSession.

Definition get_transaction (_ : SessionRef) : P bool :=
  s <~ pget ;; pret (transaction s).

Definition commit (_ : SessionRef) : P unit := method EvCommit commit_fault.
Definition rollback (_ : SessionRef) : P unit :=
  method EvRollback rollback_fault.
Definition close (_ : SessionRef) : P unit := method EvClose close_fault.

Definition session_scope {A} (hass : option HomeAssistant)
  (session : option SessionRef) (exception_filter : option (exc -> bool))
  (read_only : bool) (body : SessionRef -> P A) : P (option A) :=
  session <~
    (match session, hass with
     | None, Some hass => s <~ get_session hass ;; pret (Some s)
     | _, _ => pret session
     end) ;;
  match session with
  | None => praise (RuntimeError "Session required")
  | Some session =>
      plocal false
        (pfinally
           (ptry
              (a <~ plift (body session) ;;
               tx <~ plift (get_transaction session) ;;
               (if tx && negb read_only then
                  pset_local true ~;; plift (commit session)
                else pret tt) ~;;
               pret (Some a))
              is_Exception
              (fun err =>
                 pemit (EvLogException err) ~;;
                 need_rollback <~ pget_local (L := bool) ;;
                 (if need_rollback then plift (rollback session)
                  else pret tt) ~;;
                 if match exception_filter with
                    | None => true
                    | Some f => negb (f err)
                    end
                 then praise err
                 else pret None))
           (plift (close session)))
  end.

Definition count (p : event -> bool) (t : list event) : nat :=
  List.length (filter p t).

Definition commits : list event -> nat :=
  count (fun e => match e with EvCommit => true | _ => false end).
Definition rollbacks : list event -> nat :=
  count (fun e => match e with EvRollback => true | _ => false end).
Definition closes : list event -> nat :=
  count (fun e => match e with EvClose => true | _ => false end).
Definition logged (t : list event) : list exc :=
  flat_map (fun e => match e with EvLogException x => [x] | _ => [] end) t.

(** What [session_scope] does before the block: it asks [hass] for a
    session when it was given none. *)
Definition before_block (hass : option HomeAssistant)
  (session : option SessionRef) : list event :=
  match session, hass with
  | None, Some _ => [EvGetSession]
  | _, _ => []
  end.

(** [exception_filter] is given and accepts [err]. *)
Definition accepts (exception_filter : option (exc -> bool)) (err : exc)
  : bool :=
  match exception_filter with
  | None => false
  | Some f => f err
  end.

Definition raised {A} (r : exc + A) : option exc :=
  match r with inl e => Some e | inr _ => None end.

End Scope.

(** The exception that the [try] block of [session_scope] ends with, if
    any: that of the [with] block or, when the block returned and a commit
    is due (in a transaction, not read only), that of [session.commit()]. *)
Definition scope_commit_due {A} (r0 : Scope.exc + A) (s0 : Scope.Session)
  (read_only : bool) : bool :=
  match r0 with
  | inl _ => false
  | inr _ => Scope.transaction s0 && negb read_only
  end.

Definition scope_failure {A} (r0 : Scope.exc + A) (s0 : Scope.Session)
  (read_only : bool) : option Scope.exc :=
  match r0 with
  | inl e => Some e
  | inr _ =>
      if Scope.transaction s0 && negb read_only then Scope.commit_fault s0
      else None
  end.

(** ** [write_lock_db_sqlite], [periodic_db_cleanups]

    Both work on a connection of the engine.  The state is what the coming
    calls of [engine.connect()] and [connection.execute()] will meet, in
    the order of the calls: [Some e] for a call that raises [e], [None]
    (or nothing left) for one that succeeds.  Leaving the
    [with instance.engine.connect() as connection] block closes the
    connection. *)

Module Connections.

Inductive exc : Type :=
  | AssertionError
  | Raised (name : string).

Inductive event : Type :=
  | EvConnect
  | EvExecute (statement : string)
  | EvLogDebug (message : string)
  | EvClose
  | EvBlock (label : string).

Definition P := prog (list (option exc)) exc event.

(** A call that meets the next outcome; [events] is what it leaves in the
    trace when it succeeds, [attempt] when it raises. *)
Definition call (events attempt : list event) : P unit :=
  fun script =>
    match script with
    | Some e :: rest => (inl e, rest, attempt)
    | None :: rest => (inr tt, rest, events)
    | [] => (inr tt, [], events)
    end.

(** [instance.engine.connect()]: the connection exists if it returns. *)
Definition connect : P unit := call [EvConnect] [].

Definition execute (statement : string) : P unit :=
  call [EvExecute statement] [EvExecute statement].

Definition close : P unit := pemit EvClose.

(** [with instance.engine.connect() as connection: block] *)
Definition with_connection {A} (block : P A) : P A :=
  connect ~;; pfinally block close.

Definition periodic_db_cleanups (instance : Jobs.Recorder) : P unit :=
  match Jobs.engine instance with
  | None => praise AssertionError
  | Some dialect =>
      match dialect with
      | SQLITE =>
          pemit (EvLogDebug "WAL checkpoint") ~;;
          with_connection
            (execute "PRAGMA wal_checkpoint(TRUNCATE);" ~;;
             execute "PRAGMA OPTIMIZE;")
      | _ => pret tt
      end
  end.

(** [with write_lock_db_sqlite(instance): block] *)
Definition write_lock_db_sqlite {A} (instance : Jobs.Recorder)
  (block : P A) : P A :=
  match Jobs.engine instance with
  | None => praise AssertionError
  | Some _ =>
      with_connection
        (execute "PRAGMA wal_checkpoint(TRUNCATE)" ~;;
         pemit (EvLogDebug "Lock database") ~;;
         execute "BEGIN IMMEDIATE;" ~;;
         pfinally block
           (pemit (EvLogDebug "Unlock database") ~;;
            execute "END;"))
  end.

Definition count (p : event -> bool) (t : list event) : nat :=
  List.length (filter p t).

Definition connects : list event -> nat :=
  count (fun e => match e with EvConnect => true | _ => false end).
Definition closes : list event -> nat :=
  count (fun e => match e with EvClose => true | _ => false end).

(** The statements sent to the database, in order. *)
Definition executed (t : list event) : list string :=
  flat_map (fun e => match e with EvExecute q => [q] | _ => [] end) t.

Definition trace_of {A} (run : (exc + A) * list (option exc) * list event)
  : list event := snd run.

(** The outcome of the block, unless unlocking fails with what the script
    says next. *)
Definition unlocked {A} (r0 : exc + A) (script : list (option exc))
  : exc + A :=
  match script with
  | Some e :: _ => inl e
  | _ => r0
  end.

End Connections.

(** ** The database files: [dburl_to_path],
    [validate_or_move_away_sqlite_database], [validate_sqlite_database],
    [move_away_broken_database]

    The state is the directory (what each path holds, if it exists) and
    the clock that [dt_util.utcnow().isoformat()] reads. *)

Section ForEach.
Context {S X E A : Type}.

Fixpoint pfor_each (l : list A) (f : A -> prog S X E unit)
  : prog S X E unit :=
  match l with
  | [] => pret tt
  | a :: l' => f a ~;; pfor_each l' f
  end.
End ForEach.

Module Files.

Definition SQLITE3_POSTFIXES : list string := [""; "-wal"; "-shm"].

(** [s[n:]] *)
Fixpoint slice_from (n : nat) (s : string) : string :=
  match n, s with
  | O, _ => s
  | Datatypes.S n', String _ s' => slice_from n' s'
  | Datatypes.S _, EmptyString => EmptyString
  end.

(** [s.removeprefix(prefix)] *)
Definition removeprefix (s prefix : string) : string :=
  if String.prefix prefix s then slice_from (String.length prefix) s else s.

(** [sqlite3.DatabaseError] and the other exceptions. *)
Inductive exc : Type :=
  | DatabaseError (msg : string)
  | Raised (name : string).

Definition is_DatabaseError (e : exc) : bool :=
  match e with DatabaseError _ => true | _ => false end.

Inductive event : Type :=
  | EvChecks (dbpath : string)
  | EvLogException (dbpath : string)
  | EvLogError (dbfile renamed : string)
  | EvRename (src dst : string).

Record Disk (content : Type) : Type := mkDisk {
  files : string -> option content;
  isotime : string
}.
Arguments files {content}.
Arguments isotime {content}.
Arguments mkDisk {content}.

Section WithContent.
Variable content : Type.
(** [SQLITE_URL_PREFIX], of [.const]. *)
Variable SQLITE_URL_PREFIX : string.

Definition P := prog (Disk content) exc event.

(** Opening the database at [dbpath] and running the checks of
    [run_checks_on_open_db] on it, which raise if it is corrupt. *)
Variable open_and_check : string -> P unit.

Definition os_path_exists (path : string) : P bool :=
  d <~ pget ;;
  pret (match files d path with Some _ => true | None => false end).

(** [os.rename(src, dst)] of a file that exists. *)
Definition os_rename (src dst : string) : P unit :=
  d <~ pget ;;
  pemit (EvRename src dst) ~;;
  pput (mkDisk
          (fun p =>
             if String.eqb p dst then files d src
             else if String.eqb p src then None
             else files d p)
          (isotime d)).

Definition utcnow_isoformat : P string :=
  d <~ pget ;; pret (isotime d).

Definition dburl_to_path (dburl : string) : string :=
  removeprefix dburl SQLITE_URL_PREFIX.

Definition validate_sqlite_database (dbpath : string) : P bool :=
  ptry (open_and_check dbpath ~;; pret true)
    is_DatabaseError
    (fun _ => pemit (EvLogException dbpath) ~;; pret false).

Definition move_away_broken_database (dbfile : string) : P unit :=
  isotime <~ utcnow_isoformat ;;
  let corrupt_postfix := String.append ".corrupt." isotime in
  pemit (EvLogError dbfile (String.append dbfile corrupt_postfix)) ~;;
  pfor_each SQLITE3_POSTFIXES
    (fun postfix =>
       let path := String.append dbfile postfix in
       found <~ os_path_exists path ;;
       if negb found then pret tt
       else os_rename path (String.append path corrupt_postfix)).

Definition validate_or_move_away_sqlite_database (dburl : string) : P bool :=
  let dbpath := dburl_to_path dburl in
  found <~ os_path_exists dbpath ;;
  if negb found then pret true
  else
    valid <~ validate_sqlite_database dbpath ;;
    if negb valid then
      move_away_broken_database dbpath ~;;
      pret false
    else pret true.

End WithContent.

(** Where [move_away_broken_database] moves [path] at the time of the
    disk [d]. *)
Definition moved_away {content} (d : Disk content) (path : string) : string :=
  String.append path (String.append ".corrupt." (isotime d)).

Definition renames (t : list event) : list (string * string) :=
  flat_map (fun e => match e with EvRename a b => [(a, b)] | _ => [] end) t.

End Files.

(** ** [end_incomplete_runs], [get_index_by_name]

    The session holds the rows of [RecorderRuns]; the query
    [filter_by(end=None)] gives the rows without an end, which the loop
    then changes one by one, each where it is. *)

Module Runs.

Record RecorderRuns : Type := mkRun {
  run_id : Z;
  start : Z;
  end_ : option Z;
  closed_incorrect : bool
}.

Inductive exc : Type := Raised (name : string).

Inductive event : Type :=
  | EvLogWarning (run_id start : Z)
  | EvAdd (run_id : Z).

Definition P := prog (list RecorderRuns) exc event.

Definition is_incomplete (run : RecorderRuns) : bool :=
  match end_ run with None => true | Some _ => false end.

(** [session.query(RecorderRuns).filter_by(end=None)]: the places of the
    rows found. *)
Definition query_incomplete : P (list nat) :=
  session <~ pget ;;
  pret (filter (fun i => match nth_error session i with
                         | Some run => is_incomplete run
                         | None => false
                         end)
               (seq 0 (List.length session))).

Fixpoint update_at {A} (i : nat) (f : A -> A) (l : list A) : list A :=
  match l, i with
  | [], _ => []
  | a :: l', O => f a :: l'
  | a :: l', Datatypes.S i' => a :: update_at i' f l'
  end.

(** An assignment to attributes of the row at place [i]. *)
Definition modify_run (i : nat) (f : RecorderRuns -> RecorderRuns) : P unit :=
  session <~ pget ;; pput (update_at i f session).

Definition read_run (i : nat) : P RecorderRuns :=
  session <~ pget ;;
  match nth_error session i with
  | Some run => pret run
  | None => praise (Raised "ObjectDeletedError")
  end.

Definition end_incomplete_runs (start_time : Z) : P unit :=
  found <~ query_incomplete ;;
  pfor_each found
    (fun i =>
       modify_run i (fun run => mkRun (run_id run) (start run) (end_ run)
                                  true) ~;;
       modify_run i (fun run => mkRun (run_id run) (start run)
                                  (Some start_time)
                                  (closed_incorrect run)) ~;;
       run <~ read_run i ;;
       pemit (EvLogWarning (run_id run) (start run)) ~;;
       pemit (EvAdd (run_id run))).

(** What the loop makes of a row without an end. *)
Definition ended (start_time : Z) (run : RecorderRuns) : RecorderRuns :=
  if is_incomplete run
  then mkRun (run_id run) (start run) (Some start_time) true
  else run.

Definition warnings (t : list event) : list (Z * Z) :=
  flat_map (fun e => match e with EvLogWarning i s => [(i, s)] | _ => [] end)
           t.

(** [s.endswith(suffix)] *)
Definition endswith (s suffix : string) : bool :=
  Nat.leb (String.length suffix) (String.length s)
  && String.eqb
       (Files.slice_from (String.length s - String.length suffix) s) suffix.

(** The generator expression and [next(..., None)] of
    [get_index_by_name], over what [inspector.get_indexes(table_name)]
    gave: the names of the indexes, [None] for an index without a name. *)
Fixpoint get_index_by_name (indexes : list (option string))
  (index_name : string) : option string :=
  match indexes with
  | [] => None
  | possible_index :: rest =>
      match possible_index with
      | Some name =>
          if negb (String.eqb name "")
             && (String.eqb name index_name
                 || endswith name (String.append "_" index_name))
          then Some name
          else get_index_by_name rest index_name
      | None => get_index_by_name rest index_name
      end
  end.

(** The condition of the generator expression. *)
Definition index_matches (index_name : string) (possible : option string)
  : bool :=
  match possible with
  | Some name =>
      negb (String.eqb name "")
      && (String.eqb name index_name
          || endswith name (String.append "_" index_name))
  | None => false
  end.

End Runs.

(** ** [execute_stmt_lambda_element] with its time window

    The resolver calls it without a window; here it is with all its
    parameters.  Times are in microseconds, as [datetime] counts them;
    [timedelta.days] is the number of whole days, rounded down. *)

Module Statements.

Inductive exc : Type :=
  | SQLAlchemyError (msg : string)
  | Other (name : string)
  | RuntimeError.

Definition is_SQLAlchemyError (e : exc) : bool :=
  match e with SQLAlchemyError _ => true | _ => false end.

Inductive event : Type :=
  | EvSessionExecute
  | EvConnectionExecute
  | EvLogError (err : exc)
  | EvSleep (seconds : Q).

Definition DAY : Z := 86400000000.

(** [(b - a).days] *)
Definition days_between (a b : Z) : Z := ((b - a) / DAY)%Z.

Section Rows.
Variable row : Type.

(** [executed.all()] or [executed.yield_per(yield_per)] *)
Inductive result : Type :=
  | All (rows : list row)
  | YieldPer (yield_per : Z) (rows : list row).

Record state : Type := mkState {
  stmt_rows : list row;
  stmt_faults : list (option exc);
  utcnow : Z
}.

Definition P := prog state exc event.

(** One round trip, by [session.execute(stmt)] or by
    [session.connection().execute(stmt)]. *)
Definition round_trip (how : event) : P (list row) :=
  fun s =>
    match stmt_faults s with
    | Some e :: rest =>
        (inl e, mkState (stmt_rows s) rest (utcnow s), [how])
    | None :: rest =>
        (inr (stmt_rows s), mkState (stmt_rows s) rest (utcnow s), [how])
    | [] => (inr (stmt_rows s), s, [how])
    end.

Definition use_all_of (start_time end_time : option Z) (now : Z) : bool :=
  match start_time with
  | None => true
  | Some start_time =>
      (days_between start_time
         (match end_time with Some end_time => end_time | None => now end)
       <=? 1)%Z
  end.

Fixpoint execute_from (use_all : bool) (yield_per : Z) (orm_rows : bool)
  (trynos : list nat) : P result :=
  match trynos with
  | [] => praise RuntimeError
  | tryno :: rest =>
      ptry
        (executed <~
           (if orm_rows then round_trip EvSessionExecute
            else round_trip EvConnectionExecute) ;;
         if use_all then pret (All executed)
         else pret (YieldPer yield_per executed))
        is_SQLAlchemyError
        (fun err =>
           pemit (EvLogError err) ~;;
           if Nat.eqb tryno (RETRIES - 1) then praise err
           else
             pemit (EvSleep QUERY_RETRY_WAIT) ~;;
             execute_from use_all yield_per orm_rows rest)
  end.

Definition execute_stmt_lambda_element (start_time end_time : option Z)
  (yield_per : Z) (orm_rows : bool) : P result :=
  s <~ pget ;;
  let use_all := use_all_of start_time end_time (utcnow s) in
  execute_from use_all yield_per orm_rows (seq 0 RETRIES).

End Rows.

Arguments stmt_rows {row}.
Arguments stmt_faults {row}.
Arguments utcnow {row}.
Arguments mkState {row}.
Arguments All {row}.
Arguments YieldPer {row}.

Definition round_trips (t : list event) : list event :=
  filter (fun e => match e with
                   | EvSessionExecute | EvConnectionExecute => true
                   | _ => false
                   end) t.

(** The end of the window: [end_time or dt_util.utcnow()]. *)
Definition window_end (end_time : option Z) (now : Z) : Z :=
  match end_time with Some end_time => end_time | None => now end.

End Statements.

(** * Properties *)

(** ** Facts about the containers *)

Section ContainerFacts.
Context {V : Type}.
Implicit Types (k : string) (l : list (string * V)) (c : LRU.t V).

Lemma lru_assoc_remove_key k k' l :
  LRU.assoc k' (LRU.remove_key k l) =
  if String.eqb k k' then None else LRU.assoc k' l.
Proof.
  induction l as [|[k0 v0] l IH]; simpl.
  - now destruct (String.eqb k k').
  - destruct (String.eqb k k0) eqn:E0; simpl.
    + apply String.eqb_eq in E0; subst k0.
      rewrite IH. rewrite (String.eqb_sym k' k).
      now destruct (String.eqb k k').
    + rewrite IH.
      destruct (String.eqb k' k0) eqn:E1; [|reflexivity].
      apply String.eqb_eq in E1; subst k0. now rewrite E0.
Qed.

Lemma lru_peek_pop k k' c :
  LRU.peek k' (LRU.pop k c) =
  if String.eqb k k' then None else LRU.peek k' c.
Proof. apply lru_assoc_remove_key. Qed.

Lemma lru_peek_pop_all (ks : list string) : forall c k',
  LRU.peek k' (fold_left (fun c k => LRU.pop k c) ks c) =
  if existsb (String.eqb k') ks then None else LRU.peek k' c.
Proof.
  induction ks as [|k ks IH]; intros c k'; simpl; [reflexivity|].
  rewrite IH, lru_peek_pop, (String.eqb_sym k' k).
  destruct (String.eqb k k'); simpl; [|reflexivity].
  now destruct (existsb _ ks).
Qed.

Lemma lru_size_pop_all (ks : list string) : forall c,
  LRU.size (fold_left (fun c k => LRU.pop k c) ks c) = LRU.size c.
Proof. induction ks as [|k ks IH]; intros c; simpl; [|rewrite IH]; reflexivity. Qed.

(** A hit of [get] returns the cached value and only reorders. *)
Lemma lru_peek_get k k' c :
  LRU.peek k' (snd (LRU.get k c)) = LRU.peek k' c.
Proof.
  unfold LRU.get. destruct (LRU.peek k c) as [v|] eqn:E; simpl; [|reflexivity].
  unfold LRU.peek; simpl. rewrite lru_assoc_remove_key, (String.eqb_sym k' k).
  destruct (String.eqb k k') eqn:E'; [|reflexivity].
  apply String.eqb_eq in E'; subst k'. now rewrite <- E.
Qed.

Lemma lru_get_fst k c : fst (LRU.get k c) = LRU.peek k c.
Proof. unfold LRU.get. now destruct (LRU.peek k c). Qed.

Lemma lru_size_get k c : LRU.size (snd (LRU.get k c)) = LRU.size c.
Proof. unfold LRU.get. now destruct (LRU.peek k c). Qed.

Lemma lru_peek_set_same k (v : V) c :
  0 < LRU.size c -> LRU.peek k (LRU.set k v c) = Some v.
Proof.
  intros H. unfold LRU.peek, LRU.set; simpl.
  destruct (LRU.size c) as [|n]; [lia|]. simpl. now rewrite String.eqb_refl.
Qed.

Lemma lru_assoc_app_front k l l' :
  In k (map fst l) -> LRU.assoc k (l ++ l') = LRU.assoc k l.
Proof.
  induction l as [|[k0 v0] l IH]; simpl; [tauto|].
  intros [->|H]; [now rewrite String.eqb_refl|].
  destruct (String.eqb k k0); [reflexivity|auto].
Qed.

Lemma lru_keys_remove_key k k' l :
  In k' (map fst (LRU.remove_key k l)) <-> k' <> k /\ In k' (map fst l).
Proof.
  unfold LRU.remove_key. rewrite !in_map_iff. split.
  - intros [[k0 v0] [<- H]]. apply filter_In in H as [H E]. simpl in *.
    split; [|now exists (k0, v0)].
    intros ->. now rewrite String.eqb_refl in E.
  - intros [N [[k0 v0] [<- H]]]. exists (k0, v0). split; [reflexivity|].
    apply filter_In. split; [assumption|]. simpl in *.
    destruct (String.eqb k k0) eqn:E; [|reflexivity].
    apply String.eqb_eq in E. congruence.
Qed.

Lemma lru_NoDup_remove_key k l :
  NoDup (map fst l) -> NoDup (map fst (LRU.remove_key k l)).
Proof.
  induction l as [|[k0 v0] l IH]; simpl; [auto|].
  intros H. inversion H as [|? ? Hn Hd]; subst.
  destruct (String.eqb k k0); simpl; [auto|].
  constructor; [|auto]. rewrite lru_keys_remove_key. tauto.
Qed.

Lemma lru_remove_key_app k l l' :
  LRU.remove_key k (l ++ l') = LRU.remove_key k l ++ LRU.remove_key k l'.
Proof. apply filter_app. Qed.

Lemma recent_nil c : recent c [].
Proof. exists [], (LRU.entries c). simpl. repeat split; try constructor; tauto. Qed.

(** Storing a key keeps the recently stored ones as long as they fit. *)
Lemma recent_set k (v : V) c seen :
  recent c seen ->
  List.length (nodup string_dec (k :: seen)) <= LRU.size c ->
  recent (LRU.set k v c) (k :: seen) /\
  (forall k', In k' seen -> k' <> k ->
              LRU.peek k' (LRU.set k v c) = LRU.peek k' c).
Proof.
  intros (front & back & He & Hnd & Hin) Hfit.
  set (front' := (k, v) :: LRU.remove_key k front).
  assert (Hnd' : NoDup (map fst front')).
  { simpl. constructor; [|now apply lru_NoDup_remove_key].
    rewrite lru_keys_remove_key. tauto. }
  assert (Hin' : forall k0, In k0 (map fst front') <-> In k0 (k :: seen)).
  { intros k0. simpl. rewrite lru_keys_remove_key, Hin.
    destruct (string_dec k k0); intuition congruence. }
  assert (Hlen : List.length front' <= LRU.size c).
  { etransitivity; [|exact Hfit].
    rewrite <- (length_map fst front').
    apply NoDup_incl_length; [assumption|].
    intros k0 Hk0. apply nodup_In. now apply Hin'. }
  assert (Hent : LRU.entries (LRU.set k v c) =
                 front' ++ firstn (LRU.size c - List.length front')
                                  (LRU.remove_key k back)).
  { unfold LRU.set; simpl LRU.entries. rewrite He, lru_remove_key_app.
    change ((k, v) :: LRU.remove_key k front ++ LRU.remove_key k back)
      with (front' ++ LRU.remove_key k back).
    rewrite firstn_app, firstn_all2 by assumption. reflexivity. }
  split.
  - exists front', (firstn (LRU.size c - List.length front')
                           (LRU.remove_key k back)).
    auto.
  - intros k' Hk' Hne. unfold LRU.peek. rewrite Hent, He.
    rewrite !lru_assoc_app_front.
    + unfold front'. simpl.
      destruct (String.eqb k' k) eqn:E;
        [apply String.eqb_eq in E; congruence|].
      rewrite lru_assoc_remove_key.
      destruct (String.eqb k k') eqn:E';
        [apply String.eqb_eq in E'; congruence|reflexivity].
    + now apply Hin.
    + apply Hin'. now right.
Qed.

Lemma lru_size_set k (v : V) c : LRU.size (LRU.set k v c) = LRU.size c.
Proof. reflexivity. Qed.

Lemma lru_contains_peek k c :
  LRU.contains k c = negb (is_None (LRU.peek k c)).
Proof. unfold LRU.contains. now destruct (LRU.peek k c). Qed.
End ContainerFacts.

Section StoreMany.
Context {V : Type}.
Implicit Types (c : LRU.t V) (kvs : list (string * V)).

Lemma lru_size_set_all kvs : forall c,
  LRU.size (lru_set_all kvs c) = LRU.size c.
Proof.
  unfold lru_set_all.
  induction kvs as [|kv kvs IH]; intros c; simpl; [|rewrite IH]; reflexivity.
Qed.

Lemma nodup_length_incl (l1 l2 : list string) :
  incl l1 l2 ->
  List.length (nodup string_dec l1) <= List.length (nodup string_dec l2).
Proof.
  intros H. apply NoDup_incl_length; [apply NoDup_nodup|].
  intros k Hk. apply nodup_In. apply H. now apply nodup_In in Hk.
Qed.

Lemma recent_set_all kvs : forall c seen,
  recent c seen ->
  List.length (nodup string_dec (rev (map fst kvs) ++ seen)) <= LRU.size c ->
  recent (lru_set_all kvs c) (rev (map fst kvs) ++ seen) /\
  (forall k, In k seen -> ~ In k (map fst kvs) ->
             LRU.peek k (lru_set_all kvs c) = LRU.peek k c).
Proof.
  induction kvs as [|[k v] kvs IH]; intros c seen Hrec Hfit.
  - simpl. split; [assumption|reflexivity].
  - simpl map in *. simpl rev in *. rewrite <- app_assoc in *. simpl app in *.
    destruct (recent_set k v c seen Hrec) as [Hrec' Hpeek'].
    { etransitivity; [|exact Hfit]. apply nodup_length_incl.
      intros x Hx. apply in_or_app. now right. }
    destruct (IH (LRU.set k v c) (k :: seen) Hrec') as [Hrec'' Hpeek''].
    { now rewrite lru_size_set. }
    split; [exact Hrec''|].
    intros k' Hin Hnot. simpl in Hnot.
    unfold lru_set_all in *. simpl fold_left.
    rewrite Hpeek''; [|now right|tauto].
    apply Hpeek'; [assumption|]. intros ->. tauto.
Qed.

(** After the pairs are stored, the cache maps a key to the value of its
    last pair when fewer pairs than the capacity follow that one. *)
Lemma lru_set_all_peek kvs1 k (v : V) kvs2 c :
  ~ In k (map fst kvs2) ->
  List.length kvs2 < LRU.size c ->
  LRU.peek k (lru_set_all (kvs1 ++ (k, v) :: kvs2) c) = Some v.
Proof.
  intros Hnot Hfit. unfold lru_set_all. rewrite fold_left_app. simpl.
  set (c1 := fold_left _ kvs1 c).
  assert (Hs1 : LRU.size c1 = LRU.size c) by apply lru_size_set_all.
  destruct (recent_set k v c1 [] (recent_nil c1)) as [Hrec _].
  { simpl. lia. }
  destruct (recent_set_all kvs2 (LRU.set k v c1) [k] Hrec) as [_ Hpeek].
  { rewrite lru_size_set, Hs1.
    eapply Nat.le_trans; [apply NoDup_incl_length;
                          [apply NoDup_nodup|apply incl_refl]|].
    etransitivity.
    - apply (NoDup_incl_length (NoDup_nodup string_dec _)
               (l' := rev (map fst kvs2) ++ [k])).
      intros x Hx. now apply nodup_In in Hx.
    - rewrite length_app, length_rev, length_map. simpl. lia. }
  fold (lru_set_all kvs2 (LRU.set k v c1)).
  rewrite Hpeek; [|now left|assumption].
  apply lru_peek_set_same. lia.
Qed.

Lemma lru_assoc_in k (l : list (string * V)) :
  In k (map fst l) -> LRU.assoc k l <> None.
Proof.
  induction l as [|[k0 v0] l IH]; simpl; [tauto|].
  intros [->|H]; [now rewrite String.eqb_refl|].
  destruct (String.eqb k k0); [discriminate|auto].
Qed.

(** Every key stored is in the cache afterwards when the distinct keys fit. *)
Lemma lru_set_all_contains kvs c k :
  List.length (nodup string_dec (map fst kvs)) <= LRU.size c ->
  In k (map fst kvs) ->
  LRU.contains k (lru_set_all kvs c) = true.
Proof.
  intros Hfit Hin.
  destruct (recent_set_all kvs c [] (recent_nil c))
    as [(front & back & He & _ & Hfront) _].
  { etransitivity; [|exact Hfit]. apply nodup_length_incl.
    intros x Hx. rewrite app_nil_r in Hx. now apply in_rev. }
  unfold LRU.contains, LRU.peek. rewrite He.
  assert (Hk : In k (map fst front)).
  { apply Hfront. rewrite app_nil_r. now apply in_rev in Hin. }
  rewrite lru_assoc_app_front by assumption.
  pose proof (lru_assoc_in k front Hk).
  now destruct (LRU.assoc k front).
Qed.
End StoreMany.

(** ** Facts about the loops *)

Lemma modify_self_run f w :
  modify_self f w = (inr tt, mkWorld (f (self w)) (session w), []).
Proof. reflexivity. Qed.

Lemma for_each_modify {A} (f : A -> EventTypeManager -> EventTypeManager)
  (l : list A) : forall w,
  for_each l (fun x => modify_self (f x)) w =
  (inr tt, mkWorld (fold_left (fun m x => f x m) l (self w)) (session w), []).
Proof.
  induction l as [|x l IH]; intros [m s]; simpl; [reflexivity|].
  unfold bind. rewrite modify_self_run, IH. reflexivity.
Qed.

Lemma fold_m_cons {A B} (x : A) (r : list A) (body : B -> A -> M B) b w :
  fold_m (x :: r) body b w = bind (body b x) (fold_m r body) w.
Proof. reflexivity. Qed.

Lemma for_each_ext {A} (b1 b2 : A -> M unit) (l : list A) :
  (forall x w, b1 x w = b2 x w) ->
  forall w, for_each l b1 w = for_each l b2 w.
Proof.
  intros H. induction l as [|x l IH]; intros w; simpl; [reflexivity|].
  unfold bind. rewrite H. destruct (b2 x w) as [[[e|[]] w1] t1]; [reflexivity|].
  now rewrite IH.
Qed.

Lemma commit_items_fold items : forall m,
  fold_left
    (fun m (kv : string * EventTypes) =>
       with_non_existent
         (with_id_map m (LRU.set (fst kv) (event_type_id (snd kv)) (_id_map m)))
         (LRU.pop (fst kv) (_non_existent_event_types m)))
    items m = commit_items items m.
Proof.
  induction items as [|[k r] items IH]; intros [c p n]; [reflexivity|].
  simpl fold_left. rewrite IH. reflexivity.
Qed.

Lemma post_commit_pending_run w :
  post_commit_pending w =
  (inr tt,
   mkWorld (with_pending (commit_items (_pending (self w)) (self w))
                         PyDict.empty)
           (session w),
   []).
Proof.
  unfold post_commit_pending, bind at 1, get_self.
  unfold bind at 1.
  rewrite (for_each_ext _
             (fun kv => modify_self (fun m =>
                with_non_existent
                  (with_id_map m
                     (LRU.set (fst kv) (event_type_id (snd kv)) (_id_map m)))
                  (LRU.pop (fst kv) (_non_existent_event_types m))))).
  - rewrite for_each_modify, commit_items_fold. reflexivity.
  - intros [k r] w0. reflexivity.
Qed.

Lemma evict_purged_run event_types w :
  evict_purged event_types w =
  (inr tt,
   mkWorld (with_id_map (self w)
              (fold_left (fun c k => LRU.pop k c) event_types
                         (_id_map (self w))))
           (session w),
   []).
Proof.
  unfold evict_purged. rewrite for_each_modify. f_equal. f_equal.
  destruct w as [m s]; simpl. f_equal.
  revert m. induction event_types as [|k ks IH]; intros [c p n];
    [reflexivity|]. simpl. rewrite IH. reflexivity.
Qed.

Section DictFacts.
Context {V : Type}.
Implicit Types (k : string) (d : PyDict.t V).

Lemma pydict_get_set_same k (v : V) d :
  PyDict.get k (PyDict.set k v d) = Some v.
Proof.
  induction d as [|[k0 v0] d IH]; simpl.
  - now rewrite String.eqb_refl.
  - destruct (String.eqb k k0) eqn:E; simpl.
    + now rewrite String.eqb_refl.
    + now rewrite E.
Qed.

Lemma pydict_get_set_other k k' (v : V) d :
  k' <> k -> PyDict.get k' (PyDict.set k v d) = PyDict.get k' d.
Proof.
  intros Hne. induction d as [|[k0 v0] d IH]; simpl.
  - destruct (String.eqb k' k) eqn:E; [|reflexivity].
    apply String.eqb_eq in E. congruence.
  - destruct (String.eqb k k0) eqn:E; simpl.
    + apply String.eqb_eq in E; subst k0.
      destruct (String.eqb k' k) eqn:E'; [|reflexivity].
      apply String.eqb_eq in E'. congruence.
    + now rewrite IH.
Qed.

(** Where the assigned key stands afterwards: no later entry has it. *)
Lemma pydict_set_split k (v : V) d :
  PyDict.wf d ->
  exists d1 d2,
    PyDict.set k v d = d1 ++ (k, v) :: d2 /\ ~ In k (PyDict.keys d2).
Proof.
  unfold PyDict.wf, PyDict.keys.
  induction d as [|[k0 v0] d IH]; simpl; intros Hwf.
  - exists [], []. simpl. tauto.
  - inversion Hwf as [|? ? Hn Hd]; subst.
    destruct (String.eqb k k0) eqn:E.
    + apply String.eqb_eq in E; subst k0. exists [], d. simpl. tauto.
    + destruct (IH Hd) as (d1 & d2 & -> & Hnot).
      exists ((k0, v0) :: d1), d2. simpl. tauto.
Qed.

Lemma pydict_keys_set k (v : V) d k' :
  In k' (PyDict.keys (PyDict.set k v d)) <-> k' = k \/ In k' (PyDict.keys d).
Proof.
  unfold PyDict.keys. induction d as [|[k0 v0] d IH]; simpl.
  - intuition congruence.
  - destruct (String.eqb k k0) eqn:E; simpl.
    + apply String.eqb_eq in E; subst k0. intuition congruence.
    + rewrite IH. intuition congruence.
Qed.

Lemma pydict_wf_set k (v : V) d : PyDict.wf d -> PyDict.wf (PyDict.set k v d).
Proof.
  unfold PyDict.wf. induction d as [|[k0 v0] d IH]; simpl; intros Hwf.
  - constructor; [simpl; tauto|constructor].
  - inversion Hwf as [|? ? Hn Hd]; subst.
    destruct (String.eqb k k0) eqn:E; simpl.
    + apply String.eqb_eq in E; subst k0. now constructor.
    + constructor; [|auto].
      change (map fst (PyDict.set k v d)) with (PyDict.keys (PyDict.set k v d)).
      rewrite pydict_keys_set. intros [->|H]; [|tauto].
      now rewrite String.eqb_refl in E.
Qed.
End DictFacts.

(** ** [add_pending] *)

Lemma add_pending_run (db_event_type : EventTypes) (w : World) :
  add_pending db_event_type w =
  match event_type db_event_type with
  | None => (inl AssertionError, w, [])
  | Some name =>
      (inr tt,
       mkWorld (with_pending (self w)
                  (PyDict.set name db_event_type (_pending (self w))))
               (session w),
       [])
  end.
Proof. unfold add_pending. now destruct (event_type db_event_type). Qed.

(** C6, as the code has it: [add_pending] raises [AssertionError] and
    registers nothing exactly when the record's name is [None]; a record with
    any string for a name, the empty string included, is registered in
    [_pending] under that name, and nothing else changes. *)
Theorem add_pending_rejects_only_missing_name
  (db_event_type : EventTypes) (w : World) :
  match event_type db_event_type with
  | None => add_pending db_event_type w = (inl AssertionError, w, [])
  | Some name =>
      exists w',
        add_pending db_event_type w = (inr tt, w', []) /\
        PyDict.get name (_pending (self w')) = Some db_event_type /\
        (forall other, other <> name ->
           PyDict.get other (_pending (self w')) =
           PyDict.get other (_pending (self w))) /\
        _id_map (self w') = _id_map (self w) /\
        _non_existent_event_types (self w') =
          _non_existent_event_types (self w) /\
        session w' = session w
  end.
Proof.
  rewrite add_pending_run. destruct (event_type db_event_type) as [name|].
  - eexists. split; [reflexivity|]. simpl.
    split; [apply pydict_get_set_same|].
    split; [intros other H; now apply pydict_get_set_other|]. auto.
  - reflexivity.
Qed.

Lemma add_pending_rejects_only_missing_name_witness :
  let record := mkEventTypes 4 (Some "") in
  let w := mkWorld init (mkSession SQLITE [] []) in
  "a" <> "" /\
  exists w',
    add_pending record w = (inr tt, w', []) /\
    PyDict.get "" (_pending (self w')) = Some record /\
    PyDict.get "a" (_pending (self w')) = PyDict.get "a" (_pending (self w)).
Proof.
  intros record w.
  assert (Hne : "a" <> "") by discriminate.
  split; [exact Hne|].
  destruct (add_pending_rejects_only_missing_name record w)
    as (w' & Hrun & Hget & Hother & _).
  exists w'. split; [exact Hrun|]. split; [exact Hget|].
  exact (Hother "a" Hne).
Defined.

(** C6, the claim as written fails: a record whose name is the empty string
    passes the assertion and is registered. *)
Lemma add_pending_accepts_empty_name :
  let record := mkEventTypes 1 (Some "") in
  let w := mkWorld init (mkSession SQLITE [] []) in
  exists w',
    add_pending record w = (inr tt, w', []) /\
    PyDict.get "" (_pending (self w')) = Some record.
Proof. eexists. split; reflexivity. Qed.

(** ** The cache partition of [get_many] *)

Lemma partition_step_run acc name w :
  _get_initial_results_and_missing_step acc name w =
  (inr (partition_step (self w) acc name),
   mkWorld (with_id_map (self w) (snd (LRU.get name (_id_map (self w)))))
           (session w),
   []).
Proof.
  destruct acc as [results missing].
  unfold _get_initial_results_and_missing_step, partition_step.
  unfold bind at 1, get_self.
  pose proof (lru_get_fst name (_id_map (self w))) as Hf.
  destruct (LRU.get name (_id_map (self w))) as [o c'] eqn:Eg.
  simpl in Hf. subst o. unfold bind, put_self. simpl.
  destruct (LRU.peek name (_id_map (self w))); simpl; [reflexivity|].
  destruct (LRU.contains name _); reflexivity.
Qed.

(** The partition performs no I/O and never raises; it may only reorder
    [_id_map]. *)
Lemma partition_loop_run event_types : forall acc w,
  exists part id_map',
    fold_m event_types _get_initial_results_and_missing_step acc w =
    (inr part, mkWorld (with_id_map (self w) id_map') (session w), []) /\
    LRU.size id_map' = LRU.size (_id_map (self w)) /\
    (forall k, LRU.peek k id_map' = LRU.peek k (_id_map (self w))).
Proof.
  induction event_types as [|name rest IH]; intros acc w.
  - exists acc, (_id_map (self w)). destruct w as [[c p n] s]. simpl. auto.
  - rewrite fold_m_cons. unfold bind. rewrite partition_step_run.
    destruct (IH (partition_step (self w) acc name)
                 (mkWorld (with_id_map (self w)
                             (snd (LRU.get name (_id_map (self w)))))
                          (session w)))
      as (part & c' & Hrun & Hsize & Hpeek).
    rewrite Hrun. exists part, c'. simpl in *.
    split; [reflexivity|]. split.
    + now rewrite Hsize, lru_size_get.
    + intros k. now rewrite Hpeek, lru_peek_get.
Qed.

Lemma partition_run event_types w :
  exists part id_map',
    _get_initial_results_and_missing event_types w =
    (inr part, mkWorld (with_id_map (self w) id_map') (session w), []) /\
    LRU.size id_map' = LRU.size (_id_map (self w)) /\
    (forall k, LRU.peek k id_map' = LRU.peek k (_id_map (self w))).
Proof. apply partition_loop_run. Qed.

(** A name the id cache holds is resolved by [get] from the cache alone. *)
Lemma get_hit (bind_vars : nat) event_type from_recorder id w :
  LRU.peek event_type (_id_map (self w)) = Some id ->
  get bind_vars event_type from_recorder w =
  (inr (Some id),
   mkWorld (with_id_map (self w)
              (snd (LRU.get event_type (_id_map (self w)))))
           (session w),
   []).
Proof.
  intros Hpeek. unfold get, get_many, _get_initial_results_and_missing.
  unfold bind at 1 2. rewrite fold_m_cons. unfold bind.
  rewrite partition_step_run.
  unfold partition_step. rewrite Hpeek. simpl.
  unfold getitem. simpl. rewrite String.eqb_refl. reflexivity.
Qed.

Lemma get_repeatedly_hit (bind_vars : nat) event_type from_recorder id n :
  forall w,
  LRU.peek event_type (_id_map (self w)) = Some id ->
  exists id_map',
    get_repeatedly bind_vars event_type from_recorder n w =
    (inr (repeat (Some id) n),
     mkWorld (with_id_map (self w) id_map') (session w), []) /\
    LRU.peek event_type id_map' = Some id.
Proof.
  induction n as [|n IH]; intros w Hpeek.
  - exists (_id_map (self w)). destruct w as [[c p ne] s]. simpl. auto.
  - simpl get_repeatedly. unfold bind at 1.
    rewrite (get_hit bind_vars event_type from_recorder id w Hpeek).
    destruct (IH (mkWorld (with_id_map (self w)
                             (snd (LRU.get event_type (_id_map (self w)))))
                          (session w)))
      as (c' & Hrun & Hp).
    { simpl. now rewrite lru_peek_get. }
    unfold bind. rewrite Hrun. simpl. exists c'. auto.
Qed.

(** C9: a name the id cache holds is resolved from the cache: however often
    [get] is called, every call returns the same id and no call touches the
    store (no event is emitted, the session is unchanged); and whenever the
    cache partition of [get_many] leaves no name unresolved, [get_many]
    returns the partition's results at once, with no query. *)
Theorem get_cached_is_stable_and_silent
  (bind_vars : nat) (from_recorder : bool) (w : World) :
  (forall event_type id n,
     LRU.peek event_type (_id_map (self w)) = Some id ->
     exists w',
       get_repeatedly bind_vars event_type from_recorder n w =
         (inr (repeat (Some id) n), w', []) /\
       session w' = session w /\
       LRU.peek event_type (_id_map (self w')) = Some id) /\
  (forall event_types results w1 t1,
     _get_initial_results_and_missing event_types w =
       (inr (results, []), w1, t1) ->
     get_many bind_vars event_types from_recorder w = (inr results, w1, []) /\
     session w1 = session w).
Proof.
  split.
  - intros event_type id n Hcached.
    destruct (get_repeatedly_hit bind_vars event_type from_recorder id n w
                Hcached)
      as (c' & Hrun & Hp).
    eexists. split; [exact Hrun|]. simpl. auto.
  - intros event_types results w1 t1 Hpart.
    destruct (partition_run event_types w) as (part & c' & Hrun & _ & _).
    rewrite Hrun in Hpart. inversion Hpart; subst.
    unfold get_many. unfold bind. rewrite Hrun. simpl. auto.
Qed.

Lemma get_cached_is_stable_and_silent_witness :
  let w := mkWorld
             (mkManager (LRU.mk 2048 [("state_changed", 7%Z)]) PyDict.empty
                        (LRU.create 2048))
             (mkSession SQLITE [(7%Z, "state_changed")] []) in
  LRU.peek "state_changed" (_id_map (self w)) = Some 7%Z /\
  (exists w',
     get_repeatedly 990 "state_changed" false 3 w =
       (inr [Some 7%Z; Some 7%Z; Some 7%Z], w', []) /\
     session w' = session w /\
     LRU.peek "state_changed" (_id_map (self w')) = Some 7%Z) /\
  _get_initial_results_and_missing ["state_changed"] w =
    (inr ([("state_changed", Some 7%Z)], []), w, []) /\
  get_many 990 ["state_changed"] false w =
    (inr [("state_changed", Some 7%Z)], w, []).
Proof.
  intros w.
  assert (Hpart : _get_initial_results_and_missing ["state_changed"] w =
                  (inr ([("state_changed", Some 7%Z)], []), w, []))
    by reflexivity.
  split; [reflexivity|]. split.
  - exact (proj1 (get_cached_is_stable_and_silent 990 false w)
             "state_changed" 7%Z 3 eq_refl).
  - split; [exact Hpart|].
    exact (proj1 (proj2 (get_cached_is_stable_and_silent 990 false w)
                    _ _ _ _ Hpart)).
Defined.

(** ** The first thing a cache miss does *)

Lemma bind_starts_with {A B} (e : event) (m : M A) (f : A -> M B) w :
  starts_with e (m w) -> starts_with e (bind m f w).
Proof.
  intros [t Ht]. unfold bind.
  destruct (m w) as [[[x|a] w1] t1]; simpl in Ht; subst t1.
  - now exists t.
  - destruct (f a w1) as [[r w2] t2]. now exists (t ++ t2).
Qed.

Lemma session_execute_run stmt w :
  exists r fs,
    session_execute stmt w =
    (r, mkWorld (self w)
          (mkSession (dialect (session w)) (table (session w)) fs),
     [EvExecute stmt]).
Proof.
  unfold session_execute. destruct w as [m [d tb fs]]; simpl.
  destruct fs as [|[e|] fs]; eauto.
Qed.

Lemma execute_stmt_starts_with stmt w :
  starts_with (EvExecute stmt) (execute_stmt_lambda_element stmt w).
Proof.
  unfold execute_stmt_lambda_element. simpl.
  unfold try_except_SQLAlchemyError.
  destruct (session_execute_run stmt w) as (r & fs & ->).
  destruct r as [e|rows]; [|now exists []].
  destruct (is_SQLAlchemyError e); [|now exists []].
  match goal with |- context [bind ?a ?b ?c] =>
    destruct (bind a b c) as [[r2 w2] t2] end.
  now exists t2.
Qed.

Lemma chunked_singleton {A} (x : A) (n : nat) :
  0 < n -> chunked [x] n = [[x]].
Proof.
  destruct n as [|n]; [lia|]. intros _.
  unfold chunked, chunked_from, take. simpl.
  rewrite firstn_nil, skipn_nil. reflexivity.
Qed.

Lemma lru_get_miss {V} k (c : LRU.t V) :
  LRU.peek k c = None -> LRU.get k c = (None, c).
Proof. unfold LRU.get. now intros ->. Qed.

Lemma with_id_map_same m : with_id_map m (_id_map m) = m.
Proof. now destruct m. Qed.

Lemma world_eta w : mkWorld (self w) (session w) = w.
Proof. now destruct w. Qed.

(** A name in neither cache makes [get] query the store, whatever happens
    next. *)
Lemma get_miss_queries (bind_vars : nat) event_type from_recorder w :
  0 < bind_vars ->
  LRU.peek event_type (_id_map (self w)) = None ->
  LRU.contains event_type (_non_existent_event_types (self w)) = false ->
  starts_with (EvExecute (find_event_type_ids [event_type]))
              (get bind_vars event_type from_recorder w).
Proof.
  intros Hpos Hid Hneg. unfold get. apply bind_starts_with.
  unfold get_many, _get_initial_results_and_missing.
  unfold bind at 1. rewrite fold_m_cons. unfold bind at 1.
  rewrite partition_step_run. unfold partition_step. rewrite Hid, Hneg.
  simpl fold_m. unfold ret at 1. simpl app. simpl is_empty. cbv iota.
  match goal with |- starts_with _ (let (_, _) := ?run in _) =>
    assert (H : starts_with (EvExecute (find_event_type_ids [event_type])) run);
    [|destruct H as [t Ht]; destruct run as [[r w2] t2]; simpl in Ht;
      subst t2; now exists t]
  end.
  apply bind_starts_with. unfold _fetch_missing_event_ids_from_db.
  rewrite (chunked_singleton event_type bind_vars Hpos), fold_m_cons.
  do 2 apply bind_starts_with. apply execute_stmt_starts_with.
Qed.

(** A name the negative cache holds, and the id cache does not, is answered
    absent by [get] with no query. *)
Lemma get_known_absent (bind_vars : nat) event_type from_recorder w :
  LRU.peek event_type (_id_map (self w)) = None ->
  LRU.contains event_type (_non_existent_event_types (self w)) = true ->
  get bind_vars event_type from_recorder w = (inr None, w, []).
Proof.
  intros Hid Hneg. unfold get, get_many, _get_initial_results_and_missing.
  unfold bind at 1 2. rewrite fold_m_cons. unfold bind.
  rewrite partition_step_run. unfold partition_step. rewrite Hid, Hneg.
  rewrite (lru_get_miss _ _ Hid). simpl.
  unfold getitem. simpl. rewrite !String.eqb_refl. simpl.
  rewrite !String.eqb_refl. unfold ret.
  now rewrite with_id_map_same, world_eta.
Qed.

(** ** [evict_purged] *)

(** C10, as the code has it: [evict_purged] removes the given names from
    [_id_map], and nothing else, leaving [_non_existent_event_types],
    [_pending] and the session as they were and touching no store.  A [get]
    of an evicted name then queries the store first thing, unless the
    negative cache holds the name: then it answers absent with no query. *)
Theorem evict_purged_only_drops_ids
  (bind_vars : nat) (event_types : list string) (w : World) :
  exists w',
    evict_purged event_types w = (inr tt, w', []) /\
    (forall k,
       LRU.peek k (_id_map (self w')) =
       if existsb (String.eqb k) event_types then None
       else LRU.peek k (_id_map (self w))) /\
    _non_existent_event_types (self w') = _non_existent_event_types (self w) /\
    _pending (self w') = _pending (self w) /\
    session w' = session w /\
    (forall name from_recorder,
       In name event_types ->
       0 < bind_vars ->
       if LRU.contains name (_non_existent_event_types (self w))
       then get bind_vars name from_recorder w' = (inr None, w', [])
       else starts_with (EvExecute (find_event_type_ids [name]))
                        (get bind_vars name from_recorder w')).
Proof.
  eexists. split; [apply evict_purged_run|]. simpl.
  split; [intros k; apply lru_peek_pop_all|].
  repeat (split; [reflexivity|]).
  intros name from_recorder Hin Hpos.
  assert (Hid : LRU.peek name
                  (fold_left (fun c k => LRU.pop k c) event_types
                             (_id_map (self w))) = None).
  { rewrite lru_peek_pop_all.
    assert (E : existsb (String.eqb name) event_types = true).
    { apply existsb_exists. exists name. split; [assumption|].
      apply String.eqb_refl. }
    now rewrite E. }
  destruct (LRU.contains name (_non_existent_event_types (self w))) eqn:Hneg.
  - now apply get_known_absent.
  - now apply get_miss_queries.
Qed.

Lemma evict_purged_only_drops_ids_witness :
  let w := mkWorld
             (mkManager (LRU.mk 2048 [("call_service", 3%Z)]) PyDict.empty
                        (LRU.create 2048))
             (mkSession SQLITE [(3%Z, "call_service")] []) in
  In "call_service" ["call_service"] /\ 0 < 990 /\
  exists w',
    evict_purged ["call_service"] w = (inr tt, w', []) /\
    LRU.peek "call_service" (_id_map (self w')) = None /\
    starts_with (EvExecute (find_event_type_ids ["call_service"]))
                (get 990 "call_service" false w').
Proof.
  intros w. split; [now left|]. split; [lia|].
  destruct (evict_purged_only_drops_ids 990 ["call_service"] w)
    as (w' & Hrun & Hpeek & _ & _ & _ & Hget).
  exists w'. split; [exact Hrun|]. split; [exact (Hpeek "call_service")|].
  apply (Hget "call_service" false); [now left|lia].
Defined.

(** C10, the claim as written fails: a name that the recorder looked up and
    the store did not have sits in the negative cache; after
    [evict_purged] of that name, [get] answers absent without a query. *)
Lemma get_after_evict_purged_without_query :
  let w0 := mkWorld init (mkSession SQLITE [] []) in
  let w1 := snd (fst (get_many example_max_bind_vars ["purged"] true w0)) in
  let w2 := snd (fst (evict_purged ["purged"] w1)) in
  LRU.contains "purged" (_non_existent_event_types (self w1)) = true /\
  fst (fst (evict_purged ["purged"] w1)) = inr tt /\
  get example_max_bind_vars "purged" false w2 = (inr None, w2, []).
Proof. vm_compute. repeat split. Qed.

(** ** [add_pending] and [post_commit_pending] *)

(** C1, as the code has it: [add_pending] changes [_pending] only, so it
    leaves an entry of the negative cache for the registered name where it
    is; [post_commit_pending] is what removes every pending name from the
    negative cache, and it empties [_pending]. *)
Theorem negative_cache_cleared_at_commit_only
  (db_event_type : EventTypes) (w : World) :
  (exists r pending',
     add_pending db_event_type w =
     (r, mkWorld (with_pending (self w) pending') (session w), [])) /\
  (exists w',
     post_commit_pending w = (inr tt, w', []) /\
     _pending (self w') = PyDict.empty /\
     forall name,
       In name (PyDict.keys (_pending (self w))) ->
       LRU.contains name (_non_existent_event_types (self w')) = false).
Proof.
  split.
  - rewrite add_pending_run. destruct (event_type db_event_type).
    + eauto.
    + exists (inl AssertionError), (_pending (self w)).
      destruct w as [[c p n] s]. reflexivity.
  - eexists. split; [apply post_commit_pending_run|]. simpl.
    split; [reflexivity|]. intros name Hin.
    rewrite lru_contains_peek, lru_peek_pop_all.
    assert (E : existsb (String.eqb name) (map fst (_pending (self w))) = true).
    { apply existsb_exists. exists name. split; [exact Hin|].
      apply String.eqb_refl. }
    now rewrite E.
Qed.

Lemma negative_cache_cleared_at_commit_only_witness :
  let record := mkEventTypes 5 (Some "automation_triggered") in
  let w := mkWorld
             (mkManager (LRU.create 2048)
                        [("automation_triggered", record)]
                        (LRU.mk 2048 [("automation_triggered", tt)]))
             (mkSession SQLITE [] []) in
  In "automation_triggered" (PyDict.keys (_pending (self w))) /\
  exists w',
    post_commit_pending w = (inr tt, w', []) /\
    _pending (self w') = PyDict.empty /\
    LRU.contains "automation_triggered"
      (_non_existent_event_types (self w')) = false.
Proof.
  intros record w. split; [now left|].
  destruct (proj2 (negative_cache_cleared_at_commit_only record w))
    as (w' & Hrun & Hp & Hneg).
  exists w'. split; [exact Hrun|]. split; [exact Hp|].
  apply Hneg. now left.
Defined.

(** C1, the claim as written fails: a name the recorder found missing is in
    the negative cache, and registering a record of that name as pending
    leaves it there. *)
Lemma add_pending_keeps_negative_entry :
  let w0 := mkWorld init (mkSession SQLITE [] []) in
  let record := mkEventTypes 5 (Some "automation_triggered") in
  let run := (get_many example_max_bind_vars ["automation_triggered"] true ;;;
              add_pending record) w0 in
  let w' := snd (fst run) in
  fst (fst run) = inr tt /\
  PyDict.contains "automation_triggered" (_pending (self w')) = true /\
  LRU.contains "automation_triggered"
    (_non_existent_event_types (self w')) = true.
Proof. vm_compute. repeat split. Qed.

(** C4, as the code has it: when the pending names still fit the id cache
    after [add_pending(record)], [post_commit_pending] leaves the id cache
    mapping the record's name to its id, the negative cache without that
    name and [_pending] empty, and a following [get] of the name returns
    the id with no event at all. *)
Theorem pending_to_cache_handoff
  (bind_vars : nat) (record : EventTypes) (name : string) (w : World)
  (Hname : event_type record = Some name)
  (Hwf : PyDict.wf (_pending (self w)))
  (Hsize : LRU.size (_id_map (self w)) = CACHE_SIZE)
  (Hfit : List.length (PyDict.set name record (_pending (self w)))
          <= CACHE_SIZE) :
  exists w',
    (add_pending record ;;; post_commit_pending) w = (inr tt, w', []) /\
    LRU.peek name (_id_map (self w')) = Some (event_type_id record) /\
    LRU.contains name (_non_existent_event_types (self w')) = false /\
    _pending (self w') = PyDict.empty /\
    forall from_recorder,
      exists w'',
        get bind_vars name from_recorder w' =
          (inr (Some (event_type_id record)), w'', []) /\
        session w'' = session w.
Proof.
  unfold bind. rewrite add_pending_run, Hname, post_commit_pending_run.
  eexists. split; [reflexivity|]. cbn [self session with_pending _pending
    _id_map _non_existent_event_types commit_items].
  set (pending' := PyDict.set name record (_pending (self w))) in *.
  assert (Hpeek : LRU.peek name
            (lru_set_all
               (map (fun kv => (fst kv, event_type_id (snd kv))) pending')
               (_id_map (self w))) = Some (event_type_id record)).
  { destruct (pydict_set_split name record _ Hwf) as (d1 & d2 & Hsplit & Hnot).
    fold pending' in Hsplit. rewrite Hsplit, map_app. simpl map.
    rewrite Hsplit, length_app in Hfit. simpl in Hfit.
    apply lru_set_all_peek.
    - rewrite map_map. exact Hnot.
    - rewrite length_map, Hsize. lia. }
  split; [exact Hpeek|]. split.
  - rewrite lru_contains_peek, lru_peek_pop_all.
    assert (E : existsb (String.eqb name) (map fst pending') = true).
    { apply existsb_exists. exists name. split; [|apply String.eqb_refl].
      apply (pydict_keys_set name record (_pending (self w)) name). now left. }
    now rewrite E.
  - split; [reflexivity|]. intros from_recorder. eexists.
    split; [apply get_hit; exact Hpeek|reflexivity].
Qed.

Lemma pending_to_cache_handoff_witness :
  let record := mkEventTypes 12 (Some "script_started") in
  let w := mkWorld
             (mkManager (LRU.create CACHE_SIZE) PyDict.empty
                        (LRU.mk CACHE_SIZE [("script_started", tt)]))
             (mkSession SQLITE [] []) in
  event_type record = Some "script_started" /\
  PyDict.wf (_pending (self w)) /\
  LRU.size (_id_map (self w)) = CACHE_SIZE /\
  List.length (PyDict.set "script_started" record (_pending (self w)))
    <= CACHE_SIZE /\
  exists w',
    (add_pending record ;;; post_commit_pending) w = (inr tt, w', []) /\
    LRU.peek "script_started" (_id_map (self w')) = Some 12%Z /\
    LRU.contains "script_started" (_non_existent_event_types (self w'))
      = false /\
    _pending (self w') = PyDict.empty.
Proof.
  intros record w.
  assert (H1 : event_type record = Some "script_started") by reflexivity.
  assert (H2 : PyDict.wf (_pending (self w))) by constructor.
  assert (H3 : LRU.size (_id_map (self w)) = CACHE_SIZE) by reflexivity.
  assert (H4 : List.length
                 (PyDict.set "script_started" record (_pending (self w)))
               <= CACHE_SIZE).
  { unfold CACHE_SIZE. simpl. lia. }
  repeat (split; [assumption|]).
  destruct (pending_to_cache_handoff 990 record "script_started" w H1 H2 H3 H4)
    as (w' & Hrun & Hid & Hneg & Hp & _).
  exists w'. auto.
Defined.

(** C4, the claim as written fails: with [CACHE_SIZE + 1] names pending,
    [add_pending] of the record that stands first in [_pending] followed by
    [post_commit_pending] leaves the id cache without that name (the later
    names have pushed it out), and the next [get] has to query the store. *)
Lemma handoff_lost_when_pending_exceeds_cache :
  let run := (add_pending (record_of 0) ;;; post_commit_pending) crowded in
  let w' := snd (fst run) in
  List.length (_pending (self crowded)) = S CACHE_SIZE /\
  fst (fst run) = inr tt /\
  LRU.peek (name_of 0) (_id_map (self w')) = None /\
  fst (fst (get example_max_bind_vars (name_of 0) false w')) = inr (Some 0%Z) /\
  snd (get example_max_bind_vars (name_of 0) false w') =
    [EvExecute (find_event_type_ids [name_of 0])].
Proof. vm_compute. repeat split. Qed.

(** ** The retry loop of [execute_stmt_lambda_element] *)

Lemma session_execute_fault stmt w e fs :
  faults (session w) = Some e :: fs ->
  session_execute stmt w = (inl e, after_attempt w fs, [EvExecute stmt]).
Proof. unfold session_execute. now intros ->. Qed.

Lemma retryable_is_SQLAlchemyError d e :
  _is_retryable_error d e = true -> is_SQLAlchemyError e = true.
Proof.
  unfold _is_retryable_error. destruct e; simpl; try reflexivity;
    rewrite andb_false_r; discriminate.
Qed.

(** One failed attempt: what the handler of the loop does with the error. *)
Lemma execute_attempts_fault retries tryno rest stmt w e fs :
  faults (session w) = Some e :: fs ->
  execute_attempts retries (tryno :: rest) stmt w =
  if is_SQLAlchemyError e then
    if Nat.eqb tryno (retries - 1)
    then (inl e, after_attempt w fs, [EvExecute stmt; EvLogError e])
    else
      match execute_attempts retries rest stmt (after_attempt w fs) with
      | (r, w2, t2) =>
          (r, w2,
           [EvExecute stmt; EvLogError e; EvSleep QUERY_RETRY_WAIT] ++ t2)
      end
  else (inl e, after_attempt w fs, [EvExecute stmt]).
Proof.
  intros Hf. cbn [execute_attempts]. unfold try_except_SQLAlchemyError.
  rewrite (session_execute_fault stmt w e fs Hf).
  destruct (is_SQLAlchemyError e); [|reflexivity].
  unfold bind at 1. unfold emit at 1.
  destruct (Nat.eqb tryno (retries - 1)); [reflexivity|].
  unfold bind at 1. unfold emit at 1.
  destruct (execute_attempts retries rest stmt (after_attempt w fs))
    as [[r w2] t2].
  reflexivity.
Qed.

(** For any bound on the attempts: when every attempt meets an
    [SQLAlchemyError], the loop makes them all and raises the last error. *)
Lemma execute_attempts_exhausted retries stmt errs : forall first w fs,
  errs <> [] ->
  first + List.length errs = retries ->
  Forall (fun e => is_SQLAlchemyError e = true) errs ->
  faults (session w) = map Some errs ++ fs ->
  execute_attempts retries (seq first (List.length errs)) stmt w =
  (inl (last errs RuntimeError), after_attempt w fs,
   exhausted_trace stmt errs).
Proof.
  induction errs as [|e errs IH]; intros first w fs Hne Hlen Hall Hf;
    [congruence|].
  apply Forall_cons_iff in Hall as [He Hall'].
  cbn [List.length seq]. simpl in Hf.
  rewrite (execute_attempts_fault _ _ _ _ _ _ _ Hf), He.
  destruct errs as [|e' errs].
  - assert (Heq : Nat.eqb first (retries - 1) = true).
    { apply Nat.eqb_eq. simpl in Hlen. lia. }
    now rewrite Heq.
  - assert (Hneq : Nat.eqb first (retries - 1) = false).
    { apply Nat.eqb_neq. simpl in Hlen. lia. }
    rewrite Hneq.
    rewrite (IH (S first) (after_attempt w (map Some (e' :: errs) ++ fs)) fs);
      [reflexivity|discriminate|simpl in *; lia|assumption|reflexivity].
Qed.

(** C7: when each of the [RETRIES] attempts of a query meets a retryable
    error, [execute_stmt_lambda_element] makes exactly [RETRIES] = 3
    attempts, sleeps [QUERY_RETRY_WAIT] = 0.1 s after each attempt but the
    last, and raises the error of the last attempt. *)
Theorem retryable_errors_exhaust_the_attempts
  (stmt : statement) (w : World) (e1 e2 e3 : exn) (fs : list (option exn))
  (Hfaults : faults (session w) = Some e1 :: Some e2 :: Some e3 :: fs)
  (H1 : _is_retryable_error (dialect (session w)) e1 = true)
  (H2 : _is_retryable_error (dialect (session w)) e2 = true)
  (H3 : _is_retryable_error (dialect (session w)) e3 = true) :
  let run := execute_stmt_lambda_element stmt w in
  run =
    (inl e3, after_attempt w fs,
     [EvExecute stmt; EvLogError e1; EvSleep QUERY_RETRY_WAIT;
      EvExecute stmt; EvLogError e2; EvSleep QUERY_RETRY_WAIT;
      EvExecute stmt; EvLogError e3]) /\
  attempts (snd run) = RETRIES /\
  sleeps (snd run) = repeat QUERY_RETRY_WAIT (RETRIES - 1) /\
  RETRIES = 3 /\ QUERY_RETRY_WAIT = 1 # 10.
Proof.
  assert (Hrun : execute_stmt_lambda_element stmt w =
                 (inl e3, after_attempt w fs,
                  exhausted_trace stmt [e1; e2; e3])).
  { apply (execute_attempts_exhausted RETRIES stmt [e1; e2; e3] 0 w fs).
    - discriminate.
    - reflexivity.
    - repeat constructor; eapply retryable_is_SQLAlchemyError; eassumption.
    - exact Hfaults. }
  cbv zeta. rewrite Hrun. repeat split.
Qed.

Lemma retryable_errors_exhaust_the_attempts_witness :
  let deadlock := SQLAlchemyError (Some 1213%Z) in
  let lock_wait := SQLAlchemyError (Some 1205%Z) in
  let stmt := find_event_type_ids ["state_changed"] in
  let w := mkWorld init
             (mkSession MYSQL [(1%Z, "state_changed")]
                [Some deadlock; Some lock_wait; Some deadlock; None]) in
  _is_retryable_error MYSQL deadlock = true /\
  _is_retryable_error MYSQL lock_wait = true /\
  fst (fst (execute_stmt_lambda_element stmt w)) = inl deadlock /\
  attempts (snd (execute_stmt_lambda_element stmt w)) = 3 /\
  sleeps (snd (execute_stmt_lambda_element stmt w)) = [1 # 10; 1 # 10].
Proof.
  intros deadlock lock_wait stmt w.
  assert (Hd : _is_retryable_error MYSQL deadlock = true) by reflexivity.
  assert (Hl : _is_retryable_error MYSQL lock_wait = true) by reflexivity.
  destruct (retryable_errors_exhaust_the_attempts stmt w
              deadlock lock_wait deadlock [None] eq_refl Hd Hl Hd)
    as (Hrun & Hatt & Hsl & _ & _).
  split; [exact Hd|]. split; [exact Hl|].
  split; [now rewrite Hrun|]. split; [exact Hatt|exact Hsl].
Defined.

(** C2, as the code has it: the loop does not look at what kind of
    [SQLAlchemyError] it caught.  An exception outside that class leaves
    [execute_stmt_lambda_element] at once, after one attempt, with no log
    and no sleep; an [SQLAlchemyError] at the first attempt, retryable by
    [_is_retryable_error] or not, is logged and followed by the backoff
    sleep and a second attempt. *)
Theorem only_foreign_exceptions_skip_the_retry
  (stmt : statement) (w : World) (e : exn) (fs : list (option exn))
  (Hfaults : faults (session w) = Some e :: fs) :
  (is_SQLAlchemyError e = false ->
   execute_stmt_lambda_element stmt w =
     (inl e, after_attempt w fs, [EvExecute stmt])) /\
  (is_SQLAlchemyError e = true ->
   exists r w' t,
     execute_stmt_lambda_element stmt w =
       (r, w',
        [EvExecute stmt; EvLogError e; EvSleep QUERY_RETRY_WAIT;
         EvExecute stmt] ++ t)).
Proof.
  unfold execute_stmt_lambda_element, RETRIES. cbn [seq].
  rewrite (execute_attempts_fault _ _ _ _ _ _ _ Hfaults).
  split; intros He; rewrite He; [reflexivity|].
  cbn [Nat.sub Nat.eqb].
  assert (Hs' : starts_with (EvExecute stmt)
                  (execute_attempts 3 [1; 2] stmt (after_attempt w fs))).
  { cbn [execute_attempts]. unfold try_except_SQLAlchemyError.
    destruct (session_execute_run stmt (after_attempt w fs)) as (r & fs' & ->).
    destruct r as [e'|rows]; [|now exists []].
    destruct (is_SQLAlchemyError e'); [|now exists []].
    match goal with |- context [bind ?a ?b ?c] =>
      destruct (bind a b c) as [[r2 w2] t2] end.
    now exists t2. }
  destruct (execute_attempts 3 [1; 2] stmt (after_attempt w fs))
    as [[r w2] t2].
  destruct Hs' as [t Ht]. simpl in Ht. subst t2.
  exists r, w2, t. reflexivity.
Qed.

Lemma only_foreign_exceptions_skip_the_retry_witness :
  let interrupt := OtherException "KeyboardInterrupt" in
  let stmt := find_event_type_ids ["state_changed"] in
  let w := mkWorld init
             (mkSession SQLITE [(1%Z, "state_changed")] [Some interrupt]) in
  faults (session w) = [Some interrupt] /\
  is_SQLAlchemyError interrupt = false /\
  execute_stmt_lambda_element stmt w =
    (inl interrupt, after_attempt w [], [EvExecute stmt]).
Proof.
  intros interrupt stmt w. split; [reflexivity|]. split; [reflexivity|].
  exact (proj1 (only_foreign_exceptions_skip_the_retry stmt w interrupt []
                  eq_refl) eq_refl).
Defined.

(** C2, the claim as written fails: error 1064 (a syntax error) is not in
    [RETRYABLE_MYSQL_ERRORS], yet the query that meets it is not given up:
    the error is logged, the loop sleeps and tries again, and the caller
    gets the rows of the second attempt instead of the error. *)
Lemma fatal_error_is_retried :
  let syntax_error := SQLAlchemyError (Some 1064%Z) in
  let stmt := find_event_type_ids ["state_changed"] in
  let w := mkWorld init
             (mkSession MYSQL [(1%Z, "state_changed")]
                [Some syntax_error]) in
  _is_retryable_error (dialect (session w)) syntax_error = false /\
  execute_stmt_lambda_element stmt w =
    (inr [(1%Z, "state_changed")], after_attempt w [],
     [EvExecute stmt; EvLogError syntax_error; EvSleep QUERY_RETRY_WAIT;
      EvExecute stmt]).
Proof. split; reflexivity. Qed.

(** ** [chunked] *)

Lemma ceil_div_step total n :
  0 < n -> 0 < total -> ceil_div total n = S (ceil_div (total - n) n).
Proof.
  intros Hn Ht. unfold ceil_div.
  destruct (Nat.le_gt_cases n total) as [Hle|Hlt].
  - replace (total + n - 1) with ((total - n + n - 1) + 1 * n) by lia.
    rewrite Nat.div_add by lia. lia.
  - replace (total - n) with 0 by lia. simpl.
    rewrite (Nat.div_small (n - 1) n) by lia.
    symmetry. apply (Nat.div_unique _ n 1 (total - 1)); lia.
Qed.

Section Chunks.
Context {A : Type}.
Implicit Types (l : list A) (n fuel : nat).

Lemma chunked_from_cons fuel n x l :
  0 < n ->
  chunked_from (S fuel) n (x :: l) =
  firstn n (x :: l) :: chunked_from fuel n (skipn n (x :: l)).
Proof. destruct n as [|n]; [lia|]. reflexivity. Qed.

Lemma chunked_from_nil fuel n : chunked_from fuel n (@nil A) = [].
Proof.
  destruct fuel as [|fuel]; [reflexivity|]. simpl.
  unfold take. now rewrite firstn_nil.
Qed.

(** With enough calls allowed, the chunks are the list cut into pieces of
    [n] items, the last one possibly shorter. *)
Lemma chunked_from_spec n : 0 < n -> forall fuel l,
  List.length l <= fuel ->
  List.concat (chunked_from fuel n l) = l /\
  Forall (fun c => 0 < List.length c <= n) (chunked_from fuel n l) /\
  List.length (chunked_from fuel n l) = ceil_div (List.length l) n.
Proof.
  intros Hn. induction fuel as [|fuel IH]; intros l Hlen.
  - destruct l; [|simpl in Hlen; lia]. simpl.
    repeat split; [constructor|].
    unfold ceil_div. simpl. symmetry. apply Nat.div_small. lia.
  - destruct l as [|x l].
    + rewrite chunked_from_nil. repeat split; [constructor|].
      unfold ceil_div. simpl. symmetry. apply Nat.div_small. lia.
    + rewrite chunked_from_cons by assumption.
      destruct (IH (skipn n (x :: l))) as (Hc & Hf & Hl).
      { rewrite length_skipn. cbn [List.length] in *. lia. }
      split; [|split].
      * simpl List.concat. rewrite Hc. apply firstn_skipn.
      * constructor; [|exact Hf]. rewrite length_firstn. cbn [List.length]. lia.
      * cbn [List.length]. rewrite Hl, length_skipn.
        symmetry. apply ceil_div_step; cbn [List.length]; lia.
Qed.

(** No call is ever cut short: more fuel does not change the chunks. *)
Lemma chunked_from_fuel n : forall fuel1 fuel2 l,
  List.length l <= fuel1 -> List.length l <= fuel2 ->
  chunked_from fuel1 n l = chunked_from fuel2 n l.
Proof.
  destruct n as [|n].
  - intros [|fuel1] [|fuel2] l _ _; destruct l; reflexivity.
  - induction fuel1 as [|fuel1 IH]; intros fuel2 l H1 H2.
    + destruct l; [|simpl in H1; lia]. now rewrite !chunked_from_nil.
    + destruct l as [|x l]; [now rewrite !chunked_from_nil|].
      destruct fuel2 as [|fuel2]; [simpl in H2; lia|].
      rewrite !chunked_from_cons by lia. f_equal.
      apply IH; rewrite length_skipn; cbn [List.length] in *; lia.
Qed.

Lemma chunked_from_enough n fuel l :
  List.length l <= fuel -> chunked_from fuel n l = chunked l n.
Proof. intros H. unfold chunked. apply chunked_from_fuel; lia. Qed.

Lemma chunked_spec l n :
  0 < n ->
  List.concat (chunked l n) = l /\
  Forall (fun c => 0 < List.length c <= n) (chunked l n) /\
  List.length (chunked l n) = ceil_div (List.length l) n.
Proof. intros Hn. apply chunked_from_spec; [assumption|lia]. Qed.
End Chunks.

(** ** The fetch of [get_many] *)

Lemma queued_tasks_app t1 t2 :
  queued_tasks (t1 ++ t2) = queued_tasks t1 ++ queued_tasks t2.
Proof. apply flat_map_app. Qed.

Lemma fetch_rows_run rows : forall results w,
  fold_m rows _fetch_missing_event_ids_from_db_row results w =
  (inr (store_rows rows results),
   mkWorld (with_id_map (self w) (cache_rows rows (_id_map (self w))))
           (session w),
   []).
Proof.
  induction rows as [|[id name] rows IH]; intros results w.
  - simpl. unfold ret, cache_rows, lru_set_all. simpl.
    now rewrite with_id_map_same, world_eta.
  - rewrite fold_m_cons. unfold bind at 1.
    unfold _fetch_missing_event_ids_from_db_row at 1.
    unfold bind at 1. rewrite modify_self_run. unfold ret at 1.
    rewrite IH. reflexivity.
Qed.

Lemma after_attempt_twice w fs fs' :
  after_attempt (after_attempt w fs) fs' = after_attempt w fs'.
Proof. reflexivity. Qed.

Lemma after_attempt_same w : after_attempt w (faults (session w)) = w.
Proof. now destruct w as [m [d tb fs]]. Qed.

(** Whatever the session answers, the retry loop leaves the manager alone,
    keeps the table and queues no task. *)
Lemma execute_attempts_shape retries stmt trynos : forall w,
  exists r fs t,
    execute_attempts retries trynos stmt w = (r, after_attempt w fs, t) /\
    queued_tasks t = [].
Proof.
  induction trynos as [|tryno rest IH]; intros w.
  - exists (inl RuntimeError), (faults (session w)), [].
    simpl. unfold raise. now rewrite after_attempt_same.
  - cbn [execute_attempts]. unfold try_except_SQLAlchemyError.
    destruct (session_execute_run stmt w) as (r & fs & ->).
    fold (after_attempt w fs).
    destruct r as [e|rows]; [|now exists (inr rows), fs, [EvExecute stmt]].
    destruct (is_SQLAlchemyError e);
      [|now exists (inl e), fs, [EvExecute stmt]].
    unfold bind at 1. unfold emit at 1.
    destruct (Nat.eqb tryno (retries - 1)).
    + unfold raise. now exists (inl e), fs, ([EvExecute stmt] ++ [EvLogError e]).
    + unfold bind at 1. unfold emit at 1.
      destruct (IH (after_attempt w fs)) as (r' & fs' & t' & -> & Hq).
      rewrite after_attempt_twice. eexists r', fs', _.
      split; [reflexivity|]. rewrite !queued_tasks_app, Hq. reflexivity.
Qed.

Lemma execute_stmt_healthy stmt w :
  healthy (session w) ->
  exists fs,
    execute_stmt_lambda_element stmt w =
    (inr (run_statement stmt (table (session w))), after_attempt w fs,
     [EvExecute stmt]) /\
    Forall (fun f => f = None) fs.
Proof.
  unfold healthy, execute_stmt_lambda_element. intros Hh.
  cbn [RETRIES seq execute_attempts]. unfold try_except_SQLAlchemyError.
  unfold session_execute. destruct w as [m [d tb fs]]; simpl in *.
  destruct fs as [|[e|] fs].
  - exists []. split; [reflexivity|constructor].
  - inversion Hh; discriminate.
  - exists fs. split; [reflexivity|]. now inversion Hh.
Qed.

Lemma fetch_unfold bind_vars missing results :
  _fetch_missing_event_ids_from_db bind_vars missing results =
  fold_m (chunked missing bind_vars) fetch_chunk results.
Proof. reflexivity. Qed.

(** Whether or not a query fails, the fetch changes [_id_map] only and
    queues no task. *)
Lemma fetch_chunks_shape chunks : forall results w,
  exists r id_map' fs t,
    fold_m chunks fetch_chunk results w =
    (r, mkWorld (with_id_map (self w) id_map')
          (mkSession (dialect (session w)) (table (session w)) fs), t) /\
    queued_tasks t = [].
Proof.
  induction chunks as [|chunk chunks IH]; intros results w.
  - exists (inr results), (_id_map (self w)), (faults (session w)), [].
    simpl. unfold ret. rewrite with_id_map_same.
    now destruct w as [m [d tb fs]].
  - rewrite fold_m_cons. unfold bind at 1. unfold fetch_chunk at 1.
    unfold bind at 1. unfold execute_stmt_lambda_element.
    destruct (execute_attempts_shape RETRIES
                (find_event_type_ids chunk) (seq 0 RETRIES) w)
      as (r & fs & t & -> & Hq).
    destruct r as [e|rows].
    + exists (inl e), (_id_map (self w)), fs, t.
      rewrite with_id_map_same. auto.
    + rewrite fetch_rows_run.
      match goal with |- context [fold_m chunks fetch_chunk ?res ?w1] =>
        destruct (IH res w1) as (r' & c' & fs' & t' & -> & Hq') end.
      exists r', c', fs', ((t ++ []) ++ t'). simpl.
      split; [reflexivity|].
      now rewrite !queued_tasks_app, Hq, Hq'.
Qed.

(** With a healthy session every chunk costs one query, and the results
    collect the rows of all of them. *)
Lemma fetch_chunks_healthy chunks : forall results w,
  healthy (session w) ->
  exists id_map' fs,
    fold_m chunks fetch_chunk results w =
    (inr (store_rows
            (flat_map (fun c => run_statement (find_event_type_ids c)
                                              (table (session w))) chunks)
            results),
     mkWorld (with_id_map (self w) id_map')
       (mkSession (dialect (session w)) (table (session w)) fs),
     map (fun c => EvExecute (find_event_type_ids c)) chunks).
Proof.
  induction chunks as [|chunk chunks IH]; intros results w Hh.
  - exists (_id_map (self w)), (faults (session w)).
    simpl. unfold ret. rewrite with_id_map_same.
    now destruct w as [m [d tb fs]].
  - rewrite fold_m_cons. unfold bind at 1. unfold fetch_chunk at 1.
    unfold bind at 1.
    destruct (execute_stmt_healthy (find_event_type_ids chunk) w Hh)
      as (fs & -> & Hfs).
    rewrite fetch_rows_run.
    match goal with |- context [fold_m chunks fetch_chunk ?res ?w1] =>
      destruct (IH res w1 Hfs) as (c' & fs' & ->) end.
    exists c', fs'. simpl. unfold store_rows.
    now rewrite fold_left_app.
Qed.

Lemma store_rows_get rows id name : forall results,
  (forall id', In (id', name) rows -> id' = id) ->
  In (id, name) rows \/ PyDict.get name results = Some (Some id) ->
  PyDict.get name (store_rows rows results) = Some (Some id).
Proof.
  induction rows as [|[i n] rows IH]; intros results Hfun Hin.
  - destruct Hin as [[]|H]. exact H.
  - simpl. apply IH.
    + intros id' H. apply Hfun. now right.
    + destruct (string_dec n name) as [->|Hne].
      * right. rewrite (Hfun i) by now left. apply pydict_get_set_same.
      * destruct Hin as [[H|H]|H].
        -- congruence.
        -- now left.
        -- right. rewrite pydict_get_set_other by congruence. exact H.
Qed.

(** C8: for [N] names and a positive bound [M] on the bind parameters, the
    names are cut into chunks of at most [M] that together are the names in
    order; there are [ceil(N/M)] of them, and with a healthy session the
    fetch runs exactly one query per chunk; the results it returns map
    every name of every row any of these queries returned to the row's id
    (the names of the table being unique). *)
Theorem fetch_is_chunked
  (bind_vars : nat) (missing : list string) (results : PyDict.t (option Z))
  (w : World)
  (Hpos : 0 < bind_vars)
  (Hhealthy : healthy (session w))
  (Hunique : NoDup (map snd (table (session w)))) :
  let chunks := chunked missing bind_vars in
  List.concat chunks = missing /\
  Forall (fun c => 0 < List.length c <= bind_vars) chunks /\
  List.length chunks = ceil_div (List.length missing) bind_vars /\
  exists results' w',
    _fetch_missing_event_ids_from_db bind_vars missing results w =
      (inr results', w',
       map (fun c => EvExecute (find_event_type_ids c)) chunks) /\
    attempts (map (fun c => EvExecute (find_event_type_ids c)) chunks) =
      ceil_div (List.length missing) bind_vars /\
    forall chunk id name,
      In chunk chunks ->
      In (id, name)
         (run_statement (find_event_type_ids chunk) (table (session w))) ->
      PyDict.get name results' = Some (Some id).
Proof.
  intros chunks.
  destruct (chunked_spec missing bind_vars Hpos) as (Hc & Hf & Hl).
  fold chunks in Hc, Hf, Hl.
  repeat (split; [assumption|]).
  rewrite fetch_unfold. fold chunks.
  destruct (fetch_chunks_healthy chunks results w Hhealthy) as (c' & fs & ->).
  eexists _, _. split; [reflexivity|]. split.
  - rewrite <- Hl. unfold attempts. clear.
    induction chunks as [|c cs IH]; simpl; [reflexivity|now rewrite IH].
  - intros chunk id name Hchunk Hrow. apply store_rows_get.
    + intros id' Hin. apply in_flat_map in Hin as (c0 & _ & Hin).
      simpl in Hin, Hrow. apply filter_In in Hin as [Hin _].
      apply filter_In in Hrow as [Hrow _].
      clear - Hunique Hin Hrow.
      induction (table (session w)) as [|[i n] tb IH]; [contradiction|].
      simpl in Hunique. inversion Hunique as [|? ? Hn Hd]; subst.
      destruct Hin as [Hin|Hin], Hrow as [Hrow|Hrow].
      * congruence.
      * inversion Hin; subst. exfalso. apply Hn.
        apply in_map_iff. now exists (id, name).
      * inversion Hrow; subst. exfalso. apply Hn.
        apply in_map_iff. now exists (id', name).
      * now apply IH.
    + left. apply in_flat_map. now exists chunk.
Qed.

Lemma fetch_is_chunked_witness :
  let missing := ["a"; "b"; "c"; "d"; "e"] in
  let results := [("a", None); ("b", None); ("c", None); ("d", None);
                  ("e", None)] in
  let w := mkWorld init (mkSession SQLITE [(1%Z, "a"); (2%Z, "c")] []) in
  0 < 2 /\ healthy (session w) /\ NoDup (map snd (table (session w))) /\
  List.length (chunked missing 2) = 3 /\
  exists results' w',
    _fetch_missing_event_ids_from_db 2 missing results w =
      (inr results', w',
       [EvExecute (find_event_type_ids ["a"; "b"]);
        EvExecute (find_event_type_ids ["c"; "d"]);
        EvExecute (find_event_type_ids ["e"])]) /\
    PyDict.get "c" results' = Some (Some 2%Z).
Proof.
  intros missing results w.
  assert (H1 : 0 < 2) by lia.
  assert (H2 : healthy (session w)) by constructor.
  assert (H3 : NoDup (map snd (table (session w)))).
  { simpl. repeat constructor; simpl; intuition discriminate. }
  repeat (split; [assumption|]).
  destruct (fetch_is_chunked 2 missing results w H1 H2 H3)
    as (_ & _ & Hl & results' & w' & Hrun & _ & Hall).
  split; [exact Hl|]. exists results', w'. split; [exact Hrun|].
  apply (Hall ["c"; "d"] 2%Z "c"); simpl; auto.
Defined.

(** ** Names the store does not have *)

Lemma non_existent_run results missing : forall w,
  filter_m (fun event_type =>
              v <- getitem results event_type ;; ret (is_None v))
           missing w =
  (non_existent_of results missing, w, []).
Proof.
  induction missing as [|n rest IH]; intros w; [reflexivity|].
  cbn [filter_m non_existent_of]. unfold bind at 1. unfold bind at 1.
  unfold getitem. destruct (PyDict.get n results) as [v|]; [|reflexivity].
  unfold ret at 1 2. unfold bind. rewrite IH.
  destruct (non_existent_of results rest); reflexivity.
Qed.

Lemma non_existent_absent results missing l :
  non_existent_of results missing = inr l -> l = absent_names missing results.
Proof.
  revert l. induction missing as [|n rest IH]; intros l; simpl.
  - congruence.
  - destruct (PyDict.get n results) as [v|]; [|discriminate].
    destruct (non_existent_of results rest) as [e|l']; [discriminate|].
    intros H. inversion H; subst. rewrite (IH l' eq_refl).
    now destruct v.
Qed.

Lemma record_non_existent_fold names : forall m,
  fold_left
    (fun m n =>
       with_non_existent m (LRU.set n tt (_non_existent_event_types m)))
    names m =
  with_non_existent m
    (lru_set_all (map (fun n => (n, tt)) names)
                 (_non_existent_event_types m)).
Proof.
  induction names as [|n names IH]; intros [c p ne]; [reflexivity|].
  simpl fold_left. rewrite IH. reflexivity.
Qed.

(** How a [get_many] that returned dealt with the names the store did not
    have: the fetch left the negative cache, [_pending] and the queue
    alone, and then either nothing was absent, or every absent name was
    stored in the negative cache, or one task was queued. *)
Lemma get_many_absent_handling
  bind_vars event_types from_recorder w results0 missing w1 t1 results w' tr :
  _get_initial_results_and_missing event_types w =
    (inr (results0, missing), w1, t1) ->
  get_many bind_vars event_types from_recorder w = (inr results, w', tr) ->
  missing <> [] ->
  exists w2 t2,
    _non_existent_event_types (self w2) = _non_existent_event_types (self w) /\
    _pending (self w2) = _pending (self w) /\
    queued_tasks t2 = [] /\
    match absent_names missing results with
    | [] => w' = w2 /\ tr = t2
    | absent =>
        if from_recorder then
          w' = mkWorld
                 (with_non_existent (self w2)
                    (lru_set_all (map (fun n => (n, tt)) absent)
                                 (_non_existent_event_types (self w2))))
                 (session w2) /\
          tr = t2
        else
          w' = w2 /\ tr = t2 ++ [EvQueueTask (RefreshEventTypesTask absent)]
    end.
Proof.
  intros Hpart Hrun Hmiss.
  destruct (partition_run event_types w) as (part & c1 & Hp & _ & _).
  rewrite Hp in Hpart. inversion Hpart; subst part w1 t1. clear Hpart.
  unfold get_many in Hrun. unfold bind at 1 in Hrun. rewrite Hp in Hrun.
  destruct missing as [|n0 missing0]; [congruence|].
  cbn [is_empty] in Hrun. set (missing := n0 :: missing0) in *.
  unfold bind at 1 in Hrun. rewrite fetch_unfold in Hrun.
  match type of Hrun with context [fold_m ?cs fetch_chunk ?res ?w1] =>
    destruct (fetch_chunks_shape cs res w1) as (r & c2 & fs & t2 & Hf & Hq) end.
  rewrite Hf in Hrun. destruct r as [e|results2]; [discriminate|].
  unfold bind at 1 in Hrun. rewrite non_existent_run in Hrun.
  destruct (non_existent_of results2 missing) as [e|absent] eqn:Ene;
    [discriminate|].
  apply non_existent_absent in Ene.
  match type of Hf with _ = (_, ?w2, _) => exists w2, t2 end.
  split; [reflexivity|]. split; [reflexivity|].
  split; [exact Hq|].
  unfold bind at 1 in Hrun.
  destruct absent as [|a absent].
  - cbn [is_empty negb] in Hrun. unfold ret in Hrun.
    inversion Hrun; subst. rewrite <- Ene.
    now rewrite !app_nil_r.
  - cbn [is_empty negb] in Hrun.
    unfold _handle_non_existent_event_types in Hrun.
    destruct from_recorder.
    + rewrite for_each_modify, record_non_existent_fold in Hrun.
      unfold ret in Hrun. inversion Hrun; subst. rewrite <- Ene.
      cbv beta iota. simpl app. now rewrite ?app_nil_r.
    + unfold emit, ret in Hrun. inversion Hrun; subst. rewrite <- Ene.
      cbv beta iota. simpl app. now rewrite ?app_nil_r.
Qed.

(** C3: when a [get_many] that returned found names the store does not
    have, then with [from_recorder] true each of them, in order, was stored
    in the negative cache (and all of them are in it afterwards when they
    fit its capacity) and no task was queued; with [from_recorder] false the
    negative cache is as it was and exactly one [RefreshEventTypesTask],
    carrying all these names, was queued. *)
Theorem negative_caching_is_for_the_recorder_only
  (bind_vars : nat) (event_types : list string) (from_recorder : bool)
  (w w1 w' : World) (results0 results : PyDict.t (option Z))
  (missing : list string) (t1 tr : list event)
  (Hpart : _get_initial_results_and_missing event_types w =
             (inr (results0, missing), w1, t1))
  (Hrun : get_many bind_vars event_types from_recorder w =
            (inr results, w', tr))
  (Habsent : absent_names missing results <> []) :
  let absent := absent_names missing results in
  let negative := _non_existent_event_types (self w) in
  let negative' := _non_existent_event_types (self w') in
  if from_recorder then
    negative' = lru_set_all (map (fun n => (n, tt)) absent) negative /\
    queued_tasks tr = [] /\
    (List.length (nodup string_dec absent) <= LRU.size negative ->
     forall n, In n absent -> LRU.contains n negative' = true)
  else
    negative' = negative /\
    queued_tasks tr = [RefreshEventTypesTask absent].
Proof.
  intros absent negative negative'.
  assert (Hmiss : missing <> []).
  { intros ->. now apply Habsent. }
  destruct (get_many_absent_handling _ _ _ _ _ _ _ _ _ _ _ Hpart Hrun Hmiss)
    as (w2 & t2 & Hneg & _ & Hq & Hcase).
  fold absent in Hcase, Habsent.
  destruct absent as [|a absent0] eqn:Ea; [congruence|].
  subst negative negative'. destruct from_recorder.
  - destruct Hcase as [-> ->]. cbn [self _non_existent_event_types
      with_non_existent]. rewrite Hneg.
    split; [reflexivity|]. split; [exact Hq|].
    intros Hfit n Hin. apply lru_set_all_contains.
    + now rewrite map_map, map_id.
    + now rewrite map_map, map_id.
  - destruct Hcase as [-> ->]. split; [exact Hneg|].
    rewrite queued_tasks_app, Hq. reflexivity.
Qed.

Lemma negative_caching_is_for_the_recorder_only_witness :
  let w := mkWorld init (mkSession SQLITE [(1%Z, "known")] []) in
  let names := ["known"; "unknown"] in
  let results := [("known", Some 1%Z); ("unknown", None)] in
  absent_names names results <> [] /\
  (exists w' tr,
     get_many 990 names true w = (inr results, w', tr) /\
     LRU.contains "unknown" (_non_existent_event_types (self w')) = true /\
     queued_tasks tr = []) /\
  (exists w' tr,
     get_many 990 names false w = (inr results, w', tr) /\
     _non_existent_event_types (self w') = LRU.create CACHE_SIZE /\
     queued_tasks tr = [RefreshEventTypesTask ["unknown"]]).
Proof.
  intros w names results.
  assert (Ha : absent_names names results <> []) by discriminate.
  split; [exact Ha|]. split.
  - eexists _, _. split; [reflexivity|].
    destruct (negative_caching_is_for_the_recorder_only
                990 names true w _ _ _ _ names _ _ eq_refl eq_refl Ha)
      as (_ & Hq & Hin).
    split; [|exact Hq]. apply Hin; [vm_compute; lia|].
    now left.
  - eexists _, _. split; [reflexivity|].
    exact (negative_caching_is_for_the_recorder_only
             990 names false w _ _ _ _ names _ _ eq_refl eq_refl Ha).
Defined.

(** ** [get] *)

Lemma partition_singleton_miss event_type w :
  LRU.peek event_type (_id_map (self w)) = None ->
  LRU.contains event_type (_non_existent_event_types (self w)) = false ->
  _get_initial_results_and_missing [event_type] w =
  (inr ([(event_type, None)], [event_type]), w, []).
Proof.
  intros Hid Hneg. unfold _get_initial_results_and_missing.
  rewrite fold_m_cons. unfold bind. rewrite partition_step_run.
  unfold partition_step. rewrite Hid, Hneg, (lru_get_miss _ _ Hid).
  simpl. now rewrite with_id_map_same, world_eta.
Qed.

(** C5: whatever [from_recorder] is given to [get], it runs
    [get_many((event_type,), session)] with the default [from_recorder] false
    and indexes the result: same outcome, same world, same events.  So a
    [get] that finds the name in no cache and not in the store leaves the
    negative cache as it was and queues one refresh task for the name, also
    when it was called with [from_recorder] true. *)
Theorem get_never_forwards_from_recorder
  (bind_vars : nat) (event_type : string) (from_recorder : bool) (w : World) :
  let many := get_many bind_vars [event_type] false w in
  let one := get bind_vars event_type from_recorder w in
  fst (fst one) =
    match fst (fst many) with
    | inl e => inl e
    | inr results =>
        match PyDict.get event_type results with
        | Some v => inr v
        | None => inl (KeyError event_type)
        end
    end /\
  snd (fst one) = snd (fst many) /\
  snd one = snd many /\
  (forall w' tr,
     one = (inr None, w', tr) ->
     LRU.contains event_type (_non_existent_event_types (self w)) = false ->
     _non_existent_event_types (self w') =
       _non_existent_event_types (self w) /\
     queued_tasks tr = [RefreshEventTypesTask [event_type]]).
Proof.
  intros many one.
  assert (Hone : one = bind (get_many bind_vars [event_type] false)
                         (fun results => getitem results event_type) w)
    by reflexivity.
  unfold bind in Hone. fold many in Hone.
  destruct many as [[[e|results] w2] t2] eqn:Hmany.
  - rewrite Hone. simpl. do 3 (split; [reflexivity|]).
    intros w' tr H. discriminate.
  - unfold getitem in Hone.
    destruct (PyDict.get event_type results) as [v|] eqn:Hget.
    + unfold ret in Hone. rewrite Hone. simpl. rewrite Hget, app_nil_r.
      do 3 (split; [reflexivity|]).
      intros w' tr H Hneg. inversion H; subst v w' tr. clear H.
      destruct (LRU.peek event_type (_id_map (self w))) as [id|] eqn:Hid.
      * pose proof (get_hit bind_vars event_type from_recorder id w Hid) as Hh.
        fold one in Hh. rewrite Hone in Hh. discriminate.
      * pose proof (partition_singleton_miss event_type w Hid Hneg) as Hp.
        destruct (get_many_absent_handling _ _ _ _ _ _ _ _ _ _ _ Hp Hmany)
          as (w3 & t3 & Hn & _ & Hq & Hcase); [discriminate|].
        unfold absent_names in Hcase. simpl in Hcase. rewrite Hget in Hcase.
        destruct Hcase as [-> ->]. split; [exact Hn|].
        rewrite queued_tasks_app, Hq. reflexivity.
    + unfold raise in Hone. rewrite Hone. simpl. rewrite Hget, app_nil_r.
      do 3 (split; [reflexivity|]). intros w' tr H. discriminate.
Qed.

Lemma get_never_forwards_from_recorder_witness :
  let w := mkWorld init (mkSession SQLITE [] []) in
  get 990 "unknown" true w =
    (inr None, w,
     [EvExecute (find_event_type_ids ["unknown"]);
      EvQueueTask (RefreshEventTypesTask ["unknown"])]) /\
  LRU.contains "unknown" (_non_existent_event_types (self w)) = false /\
  _non_existent_event_types (self w) = LRU.create CACHE_SIZE /\
  queued_tasks
    [EvExecute (find_event_type_ids ["unknown"]);
     EvQueueTask (RefreshEventTypesTask ["unknown"])] =
    [RefreshEventTypesTask ["unknown"]].
Proof.
  intros w.
  assert (Hrun : get 990 "unknown" true w =
                 (inr None, w,
                  [EvExecute (find_event_type_ids ["unknown"]);
                   EvQueueTask (RefreshEventTypesTask ["unknown"])]))
    by reflexivity.
  assert (Hneg : LRU.contains "unknown"
                   (_non_existent_event_types (self w)) = false)
    by reflexivity.
  split; [exact Hrun|]. split; [exact Hneg|].
  exact (proj2 (proj2 (proj2
           (get_never_forwards_from_recorder 990 "unknown" true w)))
           _ _ Hrun Hneg).
Defined.

(** * More about the resolver *)

(** ** Keys of the caches *)

Section CacheKeys.
Context {V : Type}.
Implicit Types (k : string) (l : list (string * V)) (c : LRU.t V).

Lemma lru_assoc_none_iff k l : LRU.assoc k l = None <-> ~ In k (map fst l).
Proof.
  induction l as [|[k0 v0] l IH]; simpl; [tauto|].
  destruct (String.eqb k k0) eqn:E.
  - apply String.eqb_eq in E. subst. split; [discriminate|tauto].
  - apply String.eqb_neq in E. rewrite IH. intuition congruence.
Qed.

Lemma lru_peek_in k c : LRU.peek k c <> None <-> In k (LRU.keys c).
Proof.
  unfold LRU.peek, LRU.keys. pose proof (lru_assoc_none_iff k (LRU.entries c)).
  destruct (in_dec string_dec k (map fst (LRU.entries c))); intuition.
Qed.

Lemma lru_contains_in k c : LRU.contains k c = true <-> In k (LRU.keys c).
Proof.
  rewrite <- lru_peek_in. unfold LRU.contains.
  destruct (LRU.peek k c); split; congruence.
Qed.

Lemma lru_keys_firstn k n l :
  In k (map fst (firstn n l)) -> In k (map fst l).
Proof.
  intros H. apply in_map_iff in H as (e & <- & He).
  apply in_map. rewrite <- (firstn_skipn n l). apply in_or_app. now left.
Qed.

Lemma lru_keys_set k k' (v : V) c :
  In k' (LRU.keys (LRU.set k v c)) -> k' = k \/ In k' (LRU.keys c).
Proof.
  unfold LRU.keys, LRU.set. simpl LRU.entries. intros H.
  apply lru_keys_firstn in H. simpl in H. destruct H as [H|H]; [auto|].
  apply lru_keys_remove_key in H. tauto.
Qed.

Lemma lru_keys_set_all kvs : forall c k,
  In k (LRU.keys (lru_set_all kvs c)) ->
  In k (map fst kvs) \/ In k (LRU.keys c).
Proof.
  unfold lru_set_all.
  induction kvs as [|[k0 v0] kvs IH]; intros c k H; simpl in *; [auto|].
  apply IH in H as [H|H]; [auto|].
  apply lru_keys_set in H as [H|H]; auto.
Qed.

Lemma NoDup_firstn {A} n (l : list A) : NoDup l -> NoDup (firstn n l).
Proof.
  intros H. rewrite <- (firstn_skipn n l) in H.
  now apply NoDup_app_remove_r in H.
Qed.

Lemma lru_wf_set k (v : V) c : lru_wf c -> lru_wf (LRU.set k v c).
Proof.
  intros (Hs & Hl & Hn). unfold lru_wf, LRU.set, LRU.keys. simpl.
  split; [exact Hs|]. split.
  - rewrite length_firstn. apply Nat.le_min_l.
  - rewrite <- firstn_map. apply NoDup_firstn. simpl. constructor.
    + rewrite lru_keys_remove_key. tauto.
    + now apply lru_NoDup_remove_key.
Qed.

Lemma lru_wf_set_all kvs : forall c, lru_wf c -> lru_wf (lru_set_all kvs c).
Proof.
  unfold lru_set_all.
  induction kvs as [|kv kvs IH]; intros c H; simpl; [exact H|].
  apply IH. now apply lru_wf_set.
Qed.

Lemma lru_length_remove_key k l :
  List.length (LRU.remove_key k l) <= List.length l.
Proof. apply filter_length_le. Qed.

Lemma lru_wf_pop k c : lru_wf c -> lru_wf (LRU.pop k c).
Proof.
  intros (Hs & Hl & Hn). unfold lru_wf, LRU.pop, LRU.keys. simpl.
  split; [exact Hs|]. split.
  - etransitivity; [apply lru_length_remove_key|exact Hl].
  - now apply lru_NoDup_remove_key.
Qed.

Lemma lru_wf_pop_all ks : forall c,
  lru_wf c -> lru_wf (fold_left (fun c k => LRU.pop k c) ks c).
Proof.
  induction ks as [|k ks IH]; intros c H; simpl; [exact H|].
  apply IH. now apply lru_wf_pop.
Qed.

Lemma lru_length_remove_key_in k l :
  In k (map fst l) -> List.length (LRU.remove_key k l) < List.length l.
Proof.
  induction l as [|[k0 v0] l IH]; simpl; [tauto|].
  destruct (String.eqb k k0) eqn:E; simpl.
  - intros _. pose proof (lru_length_remove_key k l). lia.
  - intros [H|H]; [subst; now rewrite String.eqb_refl in E|].
    apply IH in H. lia.
Qed.

Lemma lru_wf_get k c : lru_wf c -> lru_wf (snd (LRU.get k c)).
Proof.
  intros (Hs & Hl & Hn). unfold LRU.get.
  destruct (LRU.peek k c) as [v|] eqn:E; simpl; [|now repeat split].
  unfold lru_wf, LRU.keys. simpl. split; [exact Hs|]. split.
  - assert (Hin : In k (map fst (LRU.entries c))).
    { apply lru_peek_in. congruence. }
    apply lru_length_remove_key_in in Hin. lia.
  - constructor.
    + rewrite lru_keys_remove_key. tauto.
    + now apply lru_NoDup_remove_key.
Qed.
End CacheKeys.

(** ** The partition and the fetch in closed form *)

Lemma pydict_set_idem {V} k (v : V) (d : PyDict.t V) :
  PyDict.set k v (PyDict.set k v d) = PyDict.set k v d.
Proof.
  induction d as [|[k0 v0] d IH]; simpl.
  - now rewrite String.eqb_refl.
  - destruct (String.eqb k k0) eqn:E; simpl.
    + now rewrite String.eqb_refl.
    + now rewrite E, IH.
Qed.

Lemma fold_left_same {A B} (f g : A -> B -> A) (l : list B) :
  (forall a b, f a b = g a b) ->
  forall a, fold_left f l a = fold_left g l a.
Proof.
  intros H. induction l as [|b l IH]; intros a; simpl; [reflexivity|].
  now rewrite H, IH.
Qed.

Lemma partition_step_eq m results missing name :
  partition_step m (results, missing) name =
  (PyDict.set name (LRU.peek name (_id_map m)) results,
   if unresolved m name then missing ++ [name] else missing).
Proof.
  unfold partition_step, unresolved.
  destruct (LRU.peek name (_id_map m)) as [id|]; simpl; [reflexivity|].
  destruct (LRU.contains name (_non_existent_event_types m)); simpl;
    [now rewrite pydict_set_idem|reflexivity].
Qed.

Lemma unresolved_ext m m' name :
  (forall k, LRU.peek k (_id_map m') = LRU.peek k (_id_map m)) ->
  _non_existent_event_types m' = _non_existent_event_types m ->
  unresolved m' name = unresolved m name.
Proof. intros Hp Hn. unfold unresolved. now rewrite Hp, Hn. Qed.

Lemma partition_loop_closed names : forall results missing w,
  exists id_map',
    fold_m names _get_initial_results_and_missing_step (results, missing) w =
    (inr (partition_results (self w) names results,
          missing ++ partition_missing (self w) names),
     mkWorld (with_id_map (self w) id_map') (session w), []) /\
    (forall k, LRU.peek k id_map' = LRU.peek k (_id_map (self w))) /\
    (lru_wf (_id_map (self w)) -> lru_wf id_map').
Proof.
  induction names as [|n names IH]; intros results missing w.
  - exists (_id_map (self w)). simpl. unfold ret.
    rewrite app_nil_r, with_id_map_same, world_eta. auto.
  - rewrite fold_m_cons. unfold bind. rewrite partition_step_run.
    rewrite partition_step_eq.
    set (w1 := mkWorld (with_id_map (self w)
                          (snd (LRU.get n (_id_map (self w)))))
                       (session w)).
    destruct (IH (PyDict.set n (LRU.peek n (_id_map (self w))) results)
                 (if unresolved (self w) n then missing ++ [n] else missing)
                 w1) as (c' & Hrun & Hpeek & Hwf).
    rewrite Hrun. exists c'.
    assert (Hp1 : forall k, LRU.peek k (_id_map (self w1)) =
                            LRU.peek k (_id_map (self w))).
    { intros k. apply lru_peek_get. }
    assert (Hres : partition_results (self w1) names
                     (PyDict.set n (LRU.peek n (_id_map (self w))) results) =
                   partition_results (self w) (n :: names) results).
    { unfold partition_results. simpl fold_left.
      apply fold_left_same. intros res k. now rewrite Hp1. }
    assert (Hmiss : (if unresolved (self w) n then missing ++ [n]
                     else missing) ++ partition_missing (self w1) names =
                    missing ++ partition_missing (self w) (n :: names)).
    { unfold partition_missing. simpl filter.
      rewrite (filter_ext (unresolved (self w1)) (unresolved (self w)))
        by (intros k; now apply unresolved_ext).
      destruct (unresolved (self w) n); [|reflexivity].
      now rewrite <- app_assoc. }
    split; [|split].
    + rewrite Hres, Hmiss. reflexivity.
    + intros k. now rewrite Hpeek, Hp1.
    + intros H. apply Hwf. simpl. now apply lru_wf_get.
Qed.

Lemma run_statement_in chunk tb row :
  In row (run_statement (find_event_type_ids chunk) tb) <->
  In row tb /\ In (snd row) chunk.
Proof.
  simpl. rewrite filter_In, existsb_exists. split.
  - intros [H (x & Hx & E)]. apply String.eqb_eq in E. subst. auto.
  - intros [H Hc]. split; [exact H|]. exists (snd row).
    split; [exact Hc|apply String.eqb_refl].
Qed.

(** What the retry loop can come back with: the rows of the statement, or an
    exception the session raised at one of the attempts.  The
    [raise RuntimeError] after the loop is never reached. *)
Lemma execute_attempts_outcome retries stmt n : forall first w,
  0 < n -> first + n = retries ->
  exists r used fs t,
    execute_attempts retries (seq first n) stmt w =
      (r, after_attempt w fs, t) /\
    faults (session w) = used ++ fs /\
    queued_tasks t = [] /\
    (forall rows, r = inr rows ->
                  rows = run_statement stmt (table (session w))) /\
    (forall e, r = inl e -> In (Some e) used).
Proof.
  induction n as [|n IH]; intros first w Hn Hsum; [lia|].
  cbn [seq execute_attempts]. unfold try_except_SQLAlchemyError.
  unfold session_execute.
  destruct w as [m [d tb fl]]. cbn [session self faults table dialect].
  destruct fl as [|[e|] fl].
  - exists (inr (run_statement stmt tb)), [], [], [EvExecute stmt].
    repeat split; try reflexivity; intros ? H; inversion H; reflexivity.
  - destruct (is_SQLAlchemyError e).
    + unfold bind at 1. unfold emit at 1.
      destruct (Nat.eqb first (retries - 1)) eqn:E.
      * exists (inl e), [Some e], fl, ([EvExecute stmt] ++ [EvLogError e] ++ []).
        repeat split; try reflexivity; intros ? H; inversion H.
        now left.
      * apply Nat.eqb_neq in E. unfold bind at 1. unfold emit at 1.
        destruct (IH (S first) (mkWorld m (mkSession d tb fl)))
          as (r & used & fs & t & Hrun & Hf & Hq & Hok & Herr); [lia|lia|].
        rewrite Hrun. simpl in Hf.
        exists r, (Some e :: used), fs,
          ([EvExecute stmt] ++ [EvLogError e] ++
           [EvSleep QUERY_RETRY_WAIT] ++ t).
        split; [reflexivity|]. split; [simpl; now rewrite Hf|].
        split; [simpl; exact Hq|]. split; [exact Hok|].
        intros e' H. right. now apply Herr.
    + exists (inl e), [Some e], fl, [EvExecute stmt].
      repeat split; try reflexivity; intros ? H; inversion H. now left.
  - exists (inr (run_statement stmt tb)), [None], fl, [EvExecute stmt].
    repeat split; try reflexivity; intros ? H; inversion H; reflexivity.
Qed.

Lemma execute_stmt_outcome stmt w :
  exists r used fs t,
    execute_stmt_lambda_element stmt w = (r, after_attempt w fs, t) /\
    faults (session w) = used ++ fs /\
    queued_tasks t = [] /\
    (forall rows, r = inr rows ->
                  rows = run_statement stmt (table (session w))) /\
    (forall e, r = inl e -> In (Some e) used).
Proof.
  apply (execute_attempts_outcome RETRIES stmt RETRIES 0 w);
    unfold RETRIES; lia.
Qed.

Lemma cache_rows_app rows1 rows2 c :
  cache_rows (rows1 ++ rows2) c = cache_rows rows2 (cache_rows rows1 c).
Proof. unfold cache_rows, lru_set_all. now rewrite map_app, fold_left_app. Qed.

Lemma store_rows_app rows1 rows2 results :
  store_rows (rows1 ++ rows2) results =
  store_rows rows2 (store_rows rows1 results).
Proof. unfold store_rows. now rewrite fold_left_app. Qed.

(** The fetch, whether it returns or raises: the rows it stored are rows of
    the table for names of the chunks, and what it raises the session
    raised. *)
Lemma fetch_chunks_rows chunks : forall results w,
  exists r rows used fs t,
    fold_m chunks fetch_chunk results w =
    (r,
     mkWorld (with_id_map (self w) (cache_rows rows (_id_map (self w))))
       (mkSession (dialect (session w)) (table (session w)) fs),
     t) /\
    faults (session w) = used ++ fs /\
    queued_tasks t = [] /\
    (forall row, In row rows ->
                 In row (table (session w)) /\
                 In (snd row) (List.concat chunks)) /\
    (forall results', r = inr results' ->
       results' = store_rows rows results /\
       rows = flat_map (fun c => run_statement (find_event_type_ids c)
                                               (table (session w))) chunks) /\
    (forall e, r = inl e -> In (Some e) used).
Proof.
  induction chunks as [|chunk chunks IH]; intros results w.
  - exists (inr results), [], [], (faults (session w)), [].
    simpl. unfold ret, cache_rows, lru_set_all. simpl.
    rewrite with_id_map_same.
    split; [now destruct w as [m [d tb fs]]|].
    split; [reflexivity|]. split; [reflexivity|]. split; [tauto|].
    split; [intros ? H; inversion H; auto|discriminate].
  - rewrite fold_m_cons. unfold bind at 1. unfold fetch_chunk at 1.
    unfold bind at 1.
    destruct (execute_stmt_outcome (find_event_type_ids chunk) w)
      as (r & used & fs & t & -> & Hf & Hq & Hok & Herr).
    destruct r as [e|rows].
    + exists (inl e), [], used, fs, t.
      unfold cache_rows, lru_set_all. simpl. rewrite with_id_map_same.
      split; [reflexivity|]. split; [exact Hf|]. split; [exact Hq|].
      split; [tauto|]. split; [discriminate|].
      intros e0 H. inversion H; subst e0. now apply Herr.
    + rewrite fetch_rows_run. specialize (Hok rows eq_refl). subst rows.
      set (rows := run_statement (find_event_type_ids chunk)
                                 (table (session w))).
      match goal with |- context [fold_m chunks fetch_chunk ?res ?w1] =>
        destruct (IH res w1)
          as (r' & rows' & used' & fs' & t' & -> & Hf' & Hq' & Hrows' & Hok'
              & Herr') end.
      cbn [session self faults table dialect after_attempt with_id_map
           _id_map _pending _non_existent_event_types] in *.
      exists r', (rows ++ rows'), (used ++ used'), fs', ((t ++ []) ++ t').
      split; [now rewrite cache_rows_app|].
      split; [now rewrite Hf, Hf', app_assoc|].
      split; [now rewrite !queued_tasks_app, Hq, Hq'|].
      split; [|split].
      * intros row Hin. apply in_app_or in Hin as [Hin|Hin].
        -- apply run_statement_in in Hin as [H1 H2].
           split; [exact H1|]. simpl. apply in_or_app. now left.
        -- apply Hrows' in Hin as [H1 H2].
           split; [exact H1|]. simpl. apply in_or_app. now right.
      * intros results' H. destruct (Hok' results' H) as [H1 H2].
        rewrite store_rows_app. split; [exact H1|]. rewrite H2. reflexivity.
      * intros e0 H. apply in_or_app. right. now apply Herr'.
Qed.

(** ** The anatomy of [get_many] *)

Lemma partition_results_get m names : forall results n,
  PyDict.get n (partition_results m names results) =
  if existsb (String.eqb n) names then Some (LRU.peek n (_id_map m))
  else PyDict.get n results.
Proof.
  unfold partition_results.
  induction names as [|k names IH]; intros results n; simpl; [reflexivity|].
  rewrite IH. destruct (existsb (String.eqb n) names); simpl.
  - now rewrite orb_true_r.
  - rewrite orb_false_r. destruct (String.eqb n k) eqn:E.
    + apply String.eqb_eq in E. subst. apply pydict_get_set_same.
    + apply String.eqb_neq in E. now apply pydict_get_set_other.
Qed.

Lemma store_rows_get_other rows name : forall results,
  ~ In name (map snd rows) ->
  PyDict.get name (store_rows rows results) = PyDict.get name results.
Proof.
  unfold store_rows.
  induction rows as [|[i n] rows IH]; intros results Hnot; [reflexivity|].
  simpl in *. rewrite IH by tauto.
  apply pydict_get_set_other. intros ->. tauto.
Qed.

Lemma store_rows_get_some rows name : forall results,
  In name (map snd rows) ->
  exists id, In (id, name) rows /\
             PyDict.get name (store_rows rows results) = Some (Some id).
Proof.
  induction rows as [|[i n] rows IH]; intros results Hin; [contradiction|].
  destruct (in_dec string_dec name (map snd rows)) as [Hr|Hr].
  - destruct (IH (PyDict.set n (Some i) results) Hr) as (id & H1 & H2).
    exists id. split; [now right|exact H2].
  - destruct Hin as [Hin|Hin]; [|contradiction]. simpl in Hin. subst n.
    exists i. split; [now left|].
    change (store_rows ((i, name) :: rows) results)
      with (store_rows rows (PyDict.set name (Some i) results)).
    rewrite store_rows_get_other by assumption.
    apply pydict_get_set_same.
Qed.

Lemma store_rows_keeps_keys rows name : forall results,
  PyDict.get name results <> None ->
  PyDict.get name (store_rows rows results) <> None.
Proof.
  intros results H.
  destruct (in_dec string_dec name (map snd rows)) as [Hr|Hr].
  - destruct (store_rows_get_some rows name results Hr) as (id & _ & ->).
    discriminate.
  - now rewrite store_rows_get_other.
Qed.

Lemma non_existent_of_total results missing :
  (forall n, In n missing -> PyDict.get n results <> None) ->
  non_existent_of results missing = inr (absent_names missing results).
Proof.
  induction missing as [|n missing IH]; intros H; [reflexivity|].
  specialize (H n (or_introl eq_refl)) as Hn.
  cbn [non_existent_of]. unfold absent_names. cbn [filter].
  destruct (PyDict.get n results) as [v|] eqn:E; [|congruence].
  rewrite IH by (intros k Hk; apply H; now right).
  now destruct v.
Qed.

Lemma chunked_from_concat_incl {A} n : forall fuel (l : list A) x,
  In x (List.concat (chunked_from fuel n l)) -> In x l.
Proof.
  induction fuel as [|fuel IH]; intros l x; simpl; [tauto|].
  unfold take. destruct (firstn n l) as [|y c] eqn:E; simpl; [tauto|].
  intros [H|H].
  - subst. rewrite <- (firstn_skipn n l), E. now left.
  - apply in_app_or in H as [H|H].
    + rewrite <- (firstn_skipn n l), E. right. apply in_or_app. now left.
    + apply IH in H. rewrite <- (firstn_skipn n l). apply in_or_app. now right.
Qed.

Lemma partition_missing_in m names n :
  In n (partition_missing m names) <-> In n names /\ unresolved m n = true.
Proof. apply filter_In. Qed.

(** Every run of [get_many], taken apart. *)
Lemma get_many_anatomy bind_vars names from_recorder w :
  let m := self w in
  let missing := partition_missing m names in
  exists r w' tr id_map1 rows used fs,
    get_many bind_vars names from_recorder w = (r, w', tr) /\
    (forall k, LRU.peek k id_map1 = LRU.peek k (_id_map m)) /\
    (lru_wf (_id_map m) -> lru_wf id_map1) /\
    faults (session w) = used ++ fs /\
    session w' = mkSession (dialect (session w)) (table (session w)) fs /\
    _pending (self w') = _pending m /\
    _id_map (self w') = cache_rows rows id_map1 /\
    (forall row, In row rows ->
                 In row (table (session w)) /\ In (snd row) missing) /\
    (missing = [] -> rows = [] /\ used = [] /\ tr = []) /\
    match r with
    | inl e =>
        In (Some e) used /\
        _non_existent_event_types (self w') = _non_existent_event_types m /\
        queued_tasks tr = []
    | inr results =>
        results = store_rows rows (partition_results m names PyDict.empty) /\
        rows = flat_map (fun c => run_statement (find_event_type_ids c)
                                                (table (session w)))
                        (chunked missing bind_vars) /\
        let absent := absent_names missing results in
        _non_existent_event_types (self w') =
          (if from_recorder
           then lru_set_all (map (fun n => (n, tt)) absent)
                            (_non_existent_event_types m)
           else _non_existent_event_types m) /\
        queued_tasks tr =
          (if from_recorder then []
           else match absent with
                | [] => []
                | _ => [RefreshEventTypesTask absent]
                end)
    end.
Proof.
  intros m missing.
  destruct (partition_loop_closed names PyDict.empty [] w)
    as (c1 & Hpart & Hpeek & Hwf).
  fold m missing in Hpart. simpl app in Hpart.
  unfold get_many. unfold bind at 1.
  unfold _get_initial_results_and_missing. rewrite Hpart.
  set (res0 := partition_results m names PyDict.empty).
  destruct missing as [|n0 missing0] eqn:Emiss.
  - cbn [is_empty]. unfold ret.
    exists (inr res0), (mkWorld (with_id_map m c1) (session w)), [], c1, [],
      [], (faults (session w)).
    split; [reflexivity|]. split; [exact Hpeek|]. split; [exact Hwf|].
    split; [reflexivity|]. split; [now destruct (session w)|].
    split; [reflexivity|]. split; [reflexivity|]. split; [intros row []|].
    split; [auto|]. split; [reflexivity|].
    split; [unfold chunked; now rewrite chunked_from_nil|]. simpl.
    split; now destruct from_recorder.
  - cbn [is_empty]. rewrite <- Emiss. unfold bind at 1.
    rewrite fetch_unfold.
    destruct (fetch_chunks_rows (chunked missing bind_vars) res0
                (mkWorld (with_id_map m c1) (session w)))
      as (r & rows & used & fs & t & -> & Hf & Hq & Hrows & Hok & Herr).
    cbn [session self faults table dialect with_id_map
         _id_map _pending _non_existent_event_types] in *.
    assert (Hrows' : forall row, In row rows ->
                       In row (table (session w)) /\ In (snd row) missing).
    { intros row Hin. apply Hrows in Hin as [H1 H2]. split; [exact H1|].
      eapply chunked_from_concat_incl. exact H2. }
    destruct r as [e|results].
    + eexists (inl e), _, _, c1, rows, used, fs.
      split; [reflexivity|]. split; [exact Hpeek|]. split; [exact Hwf|].
      split; [exact Hf|]. repeat (split; [reflexivity|]).
      split; [exact Hrows'|]. split; [rewrite Emiss; discriminate|].
      split; [now apply Herr|]. split; [reflexivity|].
      simpl app. exact Hq.
    + destruct (Hok results eq_refl) as [-> Hall]. clear Hok.
      unfold bind at 1. rewrite non_existent_run.
      rewrite non_existent_of_total.
      2:{ intros n Hn. apply store_rows_keeps_keys. unfold res0.
          rewrite partition_results_get.
          apply partition_missing_in in Hn as [Hn _].
          assert (E : existsb (String.eqb n) names = true).
          { apply existsb_exists. exists n.
            split; [exact Hn|apply String.eqb_refl]. }
          rewrite E. discriminate. }
      set (absent := absent_names missing (store_rows rows res0)).
      unfold bind at 1.
      destruct absent as [|a absent0] eqn:Eabs.
      * cbn [is_empty negb]. unfold ret.
        eexists (inr (store_rows rows res0)), _, _, c1, rows, used, fs.
        split; [reflexivity|]. split; [exact Hpeek|]. split; [exact Hwf|].
        split; [exact Hf|]. repeat (split; [reflexivity|]).
        split; [exact Hrows'|]. split; [rewrite Emiss; discriminate|].
        split; [reflexivity|]. split; [exact Hall|]. fold absent. rewrite Eabs.
        cbn [self _non_existent_event_types with_id_map map lru_set_all
             fold_left].
        split; [now destruct from_recorder|].
        rewrite !queued_tasks_app, Hq. now destruct from_recorder.
      * cbn [is_empty negb]. unfold _handle_non_existent_event_types.
        destruct from_recorder.
        -- rewrite for_each_modify, record_non_existent_fold. unfold ret.
           eexists (inr (store_rows rows res0)), _, _, c1, rows, used, fs.
           split; [reflexivity|]. split; [exact Hpeek|]. split; [exact Hwf|].
           split; [exact Hf|]. repeat (split; [reflexivity|]).
           split; [exact Hrows'|]. split; [rewrite Emiss; discriminate|].
           split; [reflexivity|]. split; [exact Hall|].
           fold absent. rewrite Eabs.
           split; [reflexivity|].
           rewrite !queued_tasks_app, Hq. reflexivity.
        -- unfold emit, ret.
           eexists (inr (store_rows rows res0)), _, _, c1, rows, used, fs.
           split; [reflexivity|]. split; [exact Hpeek|]. split; [exact Hwf|].
           split; [exact Hf|]. repeat (split; [reflexivity|]).
           split; [exact Hrows'|]. split; [rewrite Emiss; discriminate|].
           split; [reflexivity|]. split; [exact Hall|].
           fold absent. rewrite Eabs.
           split; [reflexivity|].
           rewrite !queued_tasks_app, Hq. reflexivity.
Qed.

(** [get_many] once the partition and the fetch are known. *)
Lemma get_many_run
  bind_vars names from_recorder w results0 missing w1 results2 w2 t2 :
  _get_initial_results_and_missing names w =
    (inr (results0, missing), w1, []) ->
  missing <> [] ->
  _fetch_missing_event_ids_from_db bind_vars missing results0 w1 =
    (inr results2, w2, t2) ->
  (forall n, In n missing -> PyDict.get n results2 <> None) ->
  get_many bind_vars names from_recorder w =
  match absent_names missing results2 with
  | [] => (inr results2, w2, t2)
  | absent =>
      if from_recorder then
        (inr results2,
         mkWorld
           (with_non_existent (self w2)
              (lru_set_all (map (fun n => (n, tt)) absent)
                           (_non_existent_event_types (self w2))))
           (session w2),
         t2)
      else
        (inr results2, w2,
         t2 ++ [EvQueueTask (RefreshEventTypesTask absent)])
  end.
Proof.
  intros Hpart Hmiss Hfetch Hkeys.
  unfold get_many. unfold bind at 1. rewrite Hpart.
  destruct missing as [|n0 missing0] eqn:Emiss; [congruence|].
  cbn [is_empty]. rewrite <- Emiss in *. unfold bind at 1. rewrite Hfetch.
  unfold bind at 1. rewrite non_existent_run.
  rewrite (non_existent_of_total _ _ Hkeys).
  unfold bind at 1.
  destruct (absent_names missing results2) as [|a absent0].
  - cbn [is_empty negb]. unfold ret. simpl. rewrite ?app_nil_r. reflexivity.
  - cbn [is_empty negb]. unfold _handle_non_existent_event_types.
    destruct from_recorder.
    + rewrite for_each_modify, record_non_existent_fold. unfold ret.
      simpl. rewrite ?app_nil_r. reflexivity.
    + unfold emit, ret. simpl. rewrite ?app_nil_r. reflexivity.
Qed.

Lemma fold_m_nil {A B} (body : B -> A -> M B) b w :
  fold_m [] body b w = (inr b, w, []).
Proof. reflexivity. Qed.

(** ** What [get_many] answers *)

Lemma table_id_in tb id name :
  NoDup (map snd tb) -> In (id, name) tb -> table_id tb name = Some id.
Proof.
  unfold table_id. induction tb as [|[i n] tb IH]; simpl; [tauto|].
  intros Hnd Hin. inversion Hnd as [|? ? Hn Hd]; subst.
  destruct (String.eqb n name) eqn:E.
  - apply String.eqb_eq in E. subst n. destruct Hin as [Hin|Hin].
    + now inversion Hin.
    + exfalso. apply Hn. apply in_map_iff. now exists (id, name).
  - apply String.eqb_neq in E. destruct Hin as [Hin|Hin].
    + inversion Hin. congruence.
    + now apply IH.
Qed.

Lemma table_id_not_in tb name :
  ~ In name (map snd tb) -> table_id tb name = None.
Proof.
  unfold table_id. induction tb as [|[i n] tb IH]; simpl; [reflexivity|].
  intros Hnot. destruct (String.eqb n name) eqn:E.
  - apply String.eqb_eq in E. tauto.
  - apply IH. tauto.
Qed.

Lemma existsb_eqb_in name names :
  existsb (String.eqb name) names = true <-> In name names.
Proof.
  rewrite existsb_exists. split.
  - intros (x & Hx & E). apply String.eqb_eq in E. now subst.
  - intros H. exists name. split; [exact H|apply String.eqb_refl].
Qed.

(** X1: a [get_many] that returns answers exactly the names it was given:
    for each of them the id the id cache holds, else absent when the
    negative cache holds the name, else what the table holds for the name;
    no other name is in the results. *)
Theorem get_many_answers
  (bind_vars : nat) (names : list string) (from_recorder : bool)
  (w w' : World) (results : PyDict.t (option Z)) (tr : list event)
  (Hpos : 0 < bind_vars)
  (Hunique : NoDup (map snd (table (session w))))
  (Hrun : get_many bind_vars names from_recorder w = (inr results, w', tr)) :
  forall name,
    PyDict.get name results =
    if existsb (String.eqb name) names then
      Some (match LRU.peek name (_id_map (self w)) with
            | Some id => Some id
            | None =>
                if LRU.contains name (_non_existent_event_types (self w))
                then None
                else table_id (table (session w)) name
            end)
    else None.
Proof.
  intros name.
  destruct (get_many_anatomy bind_vars names from_recorder w)
    as (r & w0 & tr0 & c1 & rows & used & fs & Hrun0 & _ & _ & _ & _ & _ & _
        & Hrows & _ & Hr).
  rewrite Hrun in Hrun0. inversion Hrun0; subst r w0 tr0. clear Hrun0.
  destruct Hr as (Hres & Hall & _).
  set (m := self w) in *. set (tb := table (session w)) in *.
  set (missing := partition_missing m names) in *.
  assert (Hnames : forall k, In k (map snd rows) -> In k missing).
  { intros k Hk. apply in_map_iff in Hk as (row & <- & Hrow).
    now apply Hrows. }
  destruct (existsb (String.eqb name) names) eqn:Ein.
  - apply existsb_eqb_in in Ein.
    destruct (unresolved m name) eqn:Eun.
    + assert (Hmiss : In name missing) by (apply partition_missing_in; auto).
      unfold unresolved in Eun. apply andb_prop in Eun as [E1 E2].
      destruct (LRU.peek name (_id_map m)) as [id|] eqn:Ep; [discriminate|].
      apply negb_true_iff in E2. rewrite E2.
      destruct (in_dec string_dec name (map snd tb)) as [Htb|Htb].
      * apply in_map_iff in Htb as ([id n] & Hn & Hrow). simpl in Hn. subst n.
        rewrite (table_id_in tb id name Hunique Hrow). rewrite Hres.
        apply store_rows_get.
        -- intros id' Hin. apply Hrows in Hin as [Hin _].
           pose proof (table_id_in tb id' name Hunique Hin) as H1.
           pose proof (table_id_in tb id name Hunique Hrow) as H2.
           congruence.
        -- left. rewrite Hall. apply in_flat_map.
           destruct (chunked_spec missing bind_vars Hpos) as (Hc & _ & _).
           rewrite <- Hc in Hmiss. apply in_concat in Hmiss as (c & Hc1 & Hc2).
           exists c. split; [exact Hc1|]. apply run_statement_in. auto.
      * rewrite (table_id_not_in tb name Htb), Hres.
        rewrite store_rows_get_other.
        -- rewrite partition_results_get.
           apply existsb_eqb_in in Ein. now rewrite Ein, Ep.
        -- intros Hin. apply in_map_iff in Hin as (row & <- & Hrow).
           apply Htb. apply in_map. now apply Hrows.
    + rewrite Hres, store_rows_get_other.
      * rewrite partition_results_get.
        apply existsb_eqb_in in Ein. rewrite Ein. f_equal.
        unfold unresolved in Eun.
        destruct (LRU.peek name (_id_map m)); [reflexivity|].
        simpl in Eun. apply negb_false_iff in Eun. now rewrite Eun.
      * intros Hin. apply Hnames, partition_missing_in in Hin as [_ Hin].
        congruence.
  - rewrite Hres, store_rows_get_other.
    + rewrite partition_results_get, Ein. reflexivity.
    + intros Hin. apply Hnames, partition_missing_in in Hin as [Hin _].
      apply existsb_eqb_in in Hin. congruence.
Qed.

Lemma get_many_answers_witness :
  let w := mkWorld
             (mkManager (LRU.mk 2048 [("cached", 9%Z)]) PyDict.empty
                        (LRU.mk 2048 [("gone", tt)]))
             (mkSession SQLITE [(1%Z, "stored"); (2%Z, "cached")] []) in
  let names := ["cached"; "gone"; "stored"; "new"] in
  0 < 2 /\ NoDup (map snd (table (session w))) /\
  exists results w' tr,
    get_many 2 names false w = (inr results, w', tr) /\
    PyDict.get "cached" results = Some (Some 9%Z) /\
    PyDict.get "gone" results = Some None /\
    PyDict.get "stored" results = Some (Some 1%Z) /\
    PyDict.get "new" results = Some None /\
    PyDict.get "other" results = None.
Proof.
  intros w names.
  assert (H1 : 0 < 2) by lia.
  assert (H2 : NoDup (map snd (table (session w)))).
  { simpl. repeat constructor; simpl; intuition discriminate. }
  split; [exact H1|]. split; [exact H2|].
  eexists _, _, _. split; [reflexivity|].
  pose proof (get_many_answers 2 names false w _ _ _ H1 H2 eq_refl) as Hans.
  split; [exact (Hans "cached")|]. split; [exact (Hans "gone")|].
  split; [exact (Hans "stored")|]. split; [exact (Hans "new")|].
  exact (Hans "other").
Defined.

(** ** What [get_many] and [get] raise *)

Lemma healthy_no_fault s e : healthy s -> ~ In (Some e) (faults s).
Proof.
  unfold healthy. rewrite Forall_forall. intros H Hin.
  apply H in Hin. discriminate.
Qed.

(** X2: a [get_many] that raises re-raises an exception of the session, and
    then the negative cache and [_pending] are as before the call and no
    refresh task was queued; with a session whose attempts all succeed
    [get_many] returns. *)
Theorem get_many_raises_what_the_session_raised
  (bind_vars : nat) (names : list string) (from_recorder : bool) (w : World) :
  (forall e w' tr,
     get_many bind_vars names from_recorder w = (inl e, w', tr) ->
     In (Some e) (faults (session w)) /\
     _non_existent_event_types (self w') =
       _non_existent_event_types (self w) /\
     _pending (self w') = _pending (self w) /\
     queued_tasks tr = []) /\
  (healthy (session w) ->
   exists results w' tr,
     get_many bind_vars names from_recorder w = (inr results, w', tr)).
Proof.
  destruct (get_many_anatomy bind_vars names from_recorder w)
    as (r & w0 & tr0 & c1 & rows & used & fs & Hrun0 & _ & _ & Hf & _ & Hp & _
        & _ & _ & Hr).
  split.
  - intros e w' tr Hrun. rewrite Hrun in Hrun0.
    inversion Hrun0; subst r w0 tr0. destruct Hr as (Hin & Hn & Hq).
    split; [rewrite Hf; apply in_or_app; now left|]. auto.
  - intros Hh. destruct r as [e|results]; [|eauto].
    destruct Hr as (Hin & _). exfalso.
    apply (healthy_no_fault (session w) e Hh).
    rewrite Hf. apply in_or_app. now left.
Qed.

Lemma get_many_raises_what_the_session_raised_witness :
  let w := mkWorld init (mkSession SQLITE [(1%Z, "a")] [None; None]) in
  healthy (session w) /\
  exists results w' tr,
    get_many 1 ["a"; "b"] true w = (inr results, w', tr).
Proof.
  intros w.
  assert (Hh : healthy (session w)) by (repeat constructor).
  split; [exact Hh|].
  exact (proj2 (get_many_raises_what_the_session_raised 1 ["a"; "b"] true w)
           Hh).
Defined.

(** X3: [get] never fails on its own: the name it asks for is always a key
    of the results, so indexing them raises no [KeyError], and an exception
    that leaves [get] is one the session raised; with a session whose
    attempts all succeed [get] returns. *)
Theorem get_raises_what_the_session_raised
  (bind_vars : nat) (event_type : string) (from_recorder : bool) (w : World) :
  (forall e w' tr,
     get bind_vars event_type from_recorder w = (inl e, w', tr) ->
     In (Some e) (faults (session w))) /\
  (healthy (session w) ->
   exists v w' tr,
     get bind_vars event_type from_recorder w = (inr v, w', tr)).
Proof.
  destruct (get_many_anatomy bind_vars [event_type] false w)
    as (r & w0 & tr0 & c1 & rows & used & fs & Hrun0 & _ & _ & Hf & _ & _ & _
        & _ & _ & Hr).
  assert (Hget : get bind_vars event_type from_recorder w =
                 match r with
                 | inl e => (inl e, w0, tr0)
                 | inr results =>
                     match PyDict.get event_type results with
                     | Some v => (inr v, w0, tr0 ++ [])
                     | None => (inl (KeyError event_type), w0, tr0 ++ [])
                     end
                 end).
  { unfold get. unfold bind. rewrite Hrun0. destruct r as [e|results];
      [reflexivity|]. unfold getitem.
    destruct (PyDict.get event_type results); reflexivity. }
  assert (Hkey : forall results, r = inr results ->
                   PyDict.get event_type results <> None).
  { intros results ->. destruct Hr as (-> & _).
    apply store_rows_keeps_keys. rewrite partition_results_get. simpl.
    rewrite String.eqb_refl. discriminate. }
  split.
  - intros e w' tr Hrun. rewrite Hget in Hrun. destruct r as [e0|results].
    + inversion Hrun; subst. destruct Hr as (Hin & _).
      rewrite Hf. apply in_or_app. now left.
    + specialize (Hkey results eq_refl).
      destruct (PyDict.get event_type results); [discriminate|congruence].
  - intros Hh. rewrite Hget. destruct r as [e|results].
    + destruct Hr as (Hin & _). exfalso.
      apply (healthy_no_fault (session w) e Hh).
      rewrite Hf. apply in_or_app. now left.
    + specialize (Hkey results eq_refl).
      destruct (PyDict.get event_type results); [eauto|congruence].
Qed.

Lemma get_raises_what_the_session_raised_witness :
  let lost := SQLAlchemyError (Some 2013%Z) in
  let w := mkWorld init
             (mkSession MYSQL [] [Some lost; Some lost; Some lost]) in
  get 990 "a" false w =
    (inl lost, after_attempt w [],
     exhausted_trace (find_event_type_ids ["a"]) [lost; lost; lost]) /\
  In (Some lost) (faults (session w)).
Proof.
  intros lost w.
  assert (Hrun : get 990 "a" false w =
                 (inl lost, after_attempt w [],
                  exhausted_trace (find_event_type_ids ["a"])
                    [lost; lost; lost])) by reflexivity.
  split; [exact Hrun|].
  exact (proj1 (get_raises_what_the_session_raised 990 "a" false w)
           _ _ _ Hrun).
Defined.

(** ** A miss that the store resolves is cached *)

Lemma cache_rows_peek_last rows id name c :
  0 < LRU.size c ->
  rows <> [] ->
  (forall row, In row rows -> row = (id, name)) ->
  LRU.peek name (cache_rows rows c) = Some id.
Proof.
  intros Hs Hne Hall.
  destruct (exists_last Hne) as (rows' & row & ->).
  assert (Hrow : row = (id, name)) by (apply Hall, in_or_app; right; now left).
  subst row. unfold cache_rows. rewrite map_app. simpl.
  apply lru_set_all_peek; simpl; [tauto|lia].
Qed.

(** X4: when a name is in neither cache and the table has it, [get] asks
    the store once, returns the id and caches it: every later [get] of the
    name returns the same id without any event. *)
Theorem get_caches_what_the_store_resolves
  (bind_vars : nat) (event_type : string) (id : Z) (from_recorder : bool)
  (w : World)
  (Hpos : 0 < bind_vars)
  (Hhealthy : healthy (session w))
  (Hunique : NoDup (map snd (table (session w))))
  (Hrow : In (id, event_type) (table (session w)))
  (Hsize : 0 < LRU.size (_id_map (self w)))
  (Hid : LRU.peek event_type (_id_map (self w)) = None)
  (Hneg : LRU.contains event_type (_non_existent_event_types (self w))
          = false) :
  exists w1,
    get bind_vars event_type from_recorder w =
      (inr (Some id), w1, [EvExecute (find_event_type_ids [event_type])]) /\
    _non_existent_event_types (self w1) = _non_existent_event_types (self w) /\
    forall from_recorder', exists w2,
      get bind_vars event_type from_recorder' w1 = (inr (Some id), w2, []).
Proof.
  set (rows := run_statement (find_event_type_ids [event_type])
                             (table (session w))).
  assert (Hin : In (id, event_type) rows).
  { apply run_statement_in. split; [exact Hrow|now left]. }
  assert (Hall : forall row, In row rows -> row = (id, event_type)).
  { intros [i n] H. apply run_statement_in in H as [H1 [H2|[]]].
    simpl in H2. subst n.
    pose proof (table_id_in _ _ _ Hunique H1).
    pose proof (table_id_in _ _ _ Hunique Hrow). congruence. }
  destruct (execute_stmt_healthy (find_event_type_ids [event_type]) w Hhealthy)
    as (fs & Hexec & _).
  set (c' := cache_rows rows (_id_map (self w))).
  assert (Hpeek : LRU.peek event_type c' = Some id).
  { apply cache_rows_peek_last; [exact Hsize| |exact Hall].
    intros E. rewrite E in Hin. contradiction. }
  assert (Hres : PyDict.get event_type
                   (store_rows rows [(event_type, None)]) = Some (Some id)).
  { apply store_rows_get; [|now left].
    intros id' H. apply Hall in H. congruence. }
  exists (mkWorld (with_id_map (self w) c')
            (mkSession (dialect (session w)) (table (session w)) fs)).
  split; [|split; [reflexivity|]].
  - assert (Hfetch : _fetch_missing_event_ids_from_db bind_vars [event_type]
                       [(event_type, None)] w =
                     (inr (store_rows rows [(event_type, None)]),
                      mkWorld (with_id_map (self w) c')
                        (mkSession (dialect (session w)) (table (session w))
                           fs),
                      [EvExecute (find_event_type_ids [event_type])])).
    { rewrite fetch_unfold.
      rewrite (chunked_singleton event_type bind_vars Hpos), fold_m_cons.
      unfold bind at 1. unfold fetch_chunk at 1. unfold bind at 1.
      rewrite Hexec, fetch_rows_run, fold_m_nil. reflexivity. }
    unfold get. unfold bind.
    rewrite (get_many_run bind_vars [event_type] false w _ _ _ _ _ _
               (partition_singleton_miss event_type w Hid Hneg)
               ltac:(discriminate) Hfetch).
    + unfold absent_names. cbn [filter]. rewrite Hres.
      unfold getitem. rewrite Hres. reflexivity.
    + intros n [<-|[]]. rewrite Hres. discriminate.
  - intros from_recorder'. eexists. now apply get_hit.
Qed.

Lemma get_caches_what_the_store_resolves_witness :
  let w := mkWorld init (mkSession SQLITE [(4%Z, "state_changed")] []) in
  0 < 990 /\ healthy (session w) /\ NoDup (map snd (table (session w))) /\
  In (4%Z, "state_changed") (table (session w)) /\
  0 < LRU.size (_id_map (self w)) /\
  exists w1,
    get 990 "state_changed" false w =
      (inr (Some 4%Z), w1,
       [EvExecute (find_event_type_ids ["state_changed"])]) /\
    exists w2, get 990 "state_changed" false w1 = (inr (Some 4%Z), w2, []).
Proof.
  intros w.
  assert (H1 : 0 < 990) by lia.
  assert (H2 : healthy (session w)) by constructor.
  assert (H3 : NoDup (map snd (table (session w)))).
  { simpl. repeat constructor. simpl. tauto. }
  assert (H4 : In (4%Z, "state_changed") (table (session w))) by now left.
  assert (H5 : 0 < LRU.size (_id_map (self w))).
  { unfold w. simpl. unfold CACHE_SIZE. lia. }
  repeat (split; [assumption|]).
  destruct (get_caches_what_the_store_resolves 990 "state_changed" 4 false w
              H1 H2 H3 H4 H5 eq_refl eq_refl) as (w1 & Hrun & _ & Hagain).
  exists w1. split; [exact Hrun|]. exact (Hagain false).
Defined.

(** ** Invariants of the manager *)

Lemma get_world bind_vars event_type from_recorder w :
  snd (fst (get bind_vars event_type from_recorder w)) =
  snd (fst (get_many bind_vars [event_type] false w)).
Proof.
  unfold get. unfold bind.
  destruct (get_many bind_vars [event_type] false w) as [[[e|results] w1] t1];
    [reflexivity|].
  unfold getitem. now destruct (PyDict.get event_type results).
Qed.

Lemma discard_world {A} (m : M A) w :
  snd (fst ((m ;;; ret tt) w)) = snd (fst (m w)).
Proof. unfold bind. now destruct (m w) as [[[e|a] w1] t1]. Qed.

Lemma lru_wf_create {V} : lru_wf (@LRU.create V CACHE_SIZE).
Proof.
  unfold lru_wf, LRU.create, LRU.keys. simpl.
  split; [reflexivity|]. split; [lia|constructor].
Qed.

Lemma manager_wf_init : manager_wf init.
Proof.
  unfold manager_wf, init. simpl.
  split; [apply lru_wf_create|]. split; [apply lru_wf_create|constructor].
Qed.

Lemma get_many_keeps_wf bind_vars names from_recorder w :
  manager_wf (self w) ->
  manager_wf (self (snd (fst (get_many bind_vars names from_recorder w)))).
Proof.
  intros (Hid & Hneg & Hp).
  destruct (get_many_anatomy bind_vars names from_recorder w)
    as (r & w' & tr & c1 & rows & used & fs & -> & _ & Hwf & _ & _ & Hp' & Hid'
        & _ & _ & Hr).
  simpl. unfold manager_wf. rewrite Hid', Hp'.
  split; [apply lru_wf_set_all; auto|]. split; [|exact Hp].
  destruct r as [e|results].
  - destruct Hr as (_ & -> & _). exact Hneg.
  - destruct Hr as (_ & _ & -> & _).
    destruct from_recorder; [now apply lru_wf_set_all|exact Hneg].
Qed.

Lemma run_call_keeps_wf bind_vars set_order c w :
  manager_wf (self w) ->
  manager_wf (self (snd (fst (run_call bind_vars set_order c w)))).
Proof.
  intros Hwf. destruct c; simpl run_call.
  - unfold load. rewrite discard_world. now apply get_many_keeps_wf.
  - rewrite discard_world, get_world. now apply get_many_keeps_wf.
  - rewrite discard_world. now apply get_many_keeps_wf.
  - rewrite add_pending_run. destruct (event_type db_event_type); [|exact Hwf].
    destruct Hwf as (Hid & Hneg & Hp). simpl.
    split; [exact Hid|]. split; [exact Hneg|]. now apply pydict_wf_set.
  - rewrite post_commit_pending_run. destruct Hwf as (Hid & Hneg & Hp).
    simpl. split; [now apply lru_wf_set_all|].
    split; [now apply lru_wf_pop_all|constructor].
  - rewrite evict_purged_run. destruct Hwf as (Hid & Hneg & Hp). simpl.
    split; [now apply lru_wf_pop_all|]. auto.
Qed.

(** X5: whatever calls are made on the manager, and whether they return or
    raise, neither cache ever holds more than [CACHE_SIZE] entries or a key
    twice, and [_pending] holds each name once. *)
Theorem calls_keep_the_caches_bounded
  (bind_vars : nat) (set_order : list string -> list string)
  (calls : list call) (w : World)
  (Hwf : manager_wf (self w)) :
  let m' := self (after_calls bind_vars set_order calls w) in
  manager_wf m' /\
  List.length (LRU.entries (_id_map m')) <= CACHE_SIZE /\
  List.length (LRU.entries (_non_existent_event_types m')) <= CACHE_SIZE.
Proof.
  assert (H : manager_wf (self (after_calls bind_vars set_order calls w))).
  { revert w Hwf. induction calls as [|c calls IH]; intros w Hwf; simpl;
      [exact Hwf|]. apply IH. now apply run_call_keeps_wf. }
  cbv zeta. split; [exact H|].
  destruct H as ((Hs1 & Hl1 & _) & (Hs2 & Hl2 & _) & _). lia.
Qed.

Lemma calls_keep_the_caches_bounded_witness :
  let w := mkWorld init (mkSession SQLITE [(1%Z, "a")] [None]) in
  let calls := [CallGetMany ["a"; "b"] true;
                CallAddPending (mkEventTypes 2 (Some "b"));
                CallPostCommitPending; CallEvictPurged ["a"]] in
  manager_wf (self w) /\
  List.length (LRU.entries (_id_map (self (after_calls 990 id calls w))))
    <= CACHE_SIZE.
Proof.
  intros w calls. split; [exact manager_wf_init|].
  exact (proj1 (proj2 (calls_keep_the_caches_bounded 990 id calls w
                         manager_wf_init))).
Defined.

Lemma lru_contains_false_iff {V} k (c : LRU.t V) :
  LRU.contains k c = false <-> ~ In k (LRU.keys c).
Proof.
  rewrite <- lru_contains_in. destruct (LRU.contains k c); split; congruence.
Qed.

Lemma get_many_keeps_disjoint bind_vars names from_recorder w :
  caches_disjoint (self w) ->
  caches_disjoint
    (self (snd (fst (get_many bind_vars names from_recorder w)))).
Proof.
  intros Hdis.
  destruct (get_many_anatomy bind_vars names from_recorder w)
    as (r & w' & tr & c1 & rows & used & fs & -> & Hpeek & _ & _ & _ & _ & Hid'
        & Hrows & _ & Hr).
  simpl. intros k Hk. rewrite Hid' in Hk. apply lru_peek_in in Hk.
  unfold cache_rows in Hk. apply lru_keys_set_all in Hk.
  rewrite map_map in Hk. simpl in Hk.
  assert (Hold : LRU.contains k (_non_existent_event_types (self w)) = false).
  { destruct Hk as [Hk|Hk].
    - apply in_map_iff in Hk as (row & <- & Hrow).
      apply Hrows, proj2, partition_missing_in in Hrow as [_ Hun].
      unfold unresolved in Hun. apply andb_prop in Hun as [_ Hun].
      now apply negb_true_iff in Hun.
    - apply Hdis. apply lru_peek_in in Hk. now rewrite Hpeek in Hk. }
  destruct r as [e|results].
  - destruct Hr as (_ & -> & _). exact Hold.
  - destruct Hr as (Hres & _ & -> & _).
    destruct from_recorder; [|exact Hold].
    apply lru_contains_false_iff. intros Hin.
    apply lru_keys_set_all in Hin as [Hin|Hin];
      [|now apply lru_contains_false_iff in Hold].
    rewrite map_map in Hin. simpl in Hin. rewrite map_id in Hin.
    unfold absent_names in Hin. apply filter_In in Hin as [Hmiss Habs].
    destruct Hk as [Hk|Hk].
    + destruct (store_rows_get_some rows k
                  (partition_results (self w) names PyDict.empty))
        as (id & _ & E).
      { apply in_map_iff in Hk as (row & <- & Hrow).
        apply in_map. exact Hrow. }
      rewrite Hres, E in Habs. discriminate.
    + apply partition_missing_in in Hmiss as [_ Hun].
      unfold unresolved in Hun. apply andb_prop in Hun as [Hun _].
      apply lru_peek_in in Hk. rewrite Hpeek in Hk.
      destruct (LRU.peek k (_id_map (self w))); [discriminate|congruence].
Qed.

Lemma run_call_keeps_disjoint bind_vars set_order c w :
  caches_disjoint (self w) ->
  caches_disjoint (self (snd (fst (run_call bind_vars set_order c w)))).
Proof.
  intros Hdis. destruct c; simpl run_call.
  - unfold load. rewrite discard_world. now apply get_many_keeps_disjoint.
  - rewrite discard_world, get_world. now apply get_many_keeps_disjoint.
  - rewrite discard_world. now apply get_many_keeps_disjoint.
  - rewrite add_pending_run. destruct (event_type db_event_type); exact Hdis.
  - rewrite post_commit_pending_run.
    cbn [fst snd self with_pending commit_items _id_map
         _non_existent_event_types].
    intros k Hk. unfold with_pending, commit_items in *.
    cbn [_id_map _non_existent_event_types] in *.
    rewrite lru_contains_peek, lru_peek_pop_all.
    destruct (existsb (String.eqb k) (map fst (_pending (self w)))) eqn:E;
      [reflexivity|].
    apply lru_peek_in, lru_keys_set_all in Hk. rewrite map_map in Hk.
    simpl in Hk. destruct Hk as [Hk|Hk].
    + assert (Hin : In k (map fst (_pending (self w)))).
      { apply in_map_iff in Hk as (x & <- & Hx). now apply in_map. }
      apply existsb_eqb_in in Hin. congruence.
    + apply lru_peek_in, Hdis in Hk. rewrite lru_contains_peek in Hk.
      now destruct (LRU.peek k (_non_existent_event_types (self w))).
  - rewrite evict_purged_run.
    cbn [fst snd self with_id_map _id_map _non_existent_event_types].
    intros k Hk. unfold with_id_map in *.
    cbn [_id_map _non_existent_event_types] in *. apply Hdis.
    rewrite lru_peek_pop_all in Hk.
    now destruct (existsb (String.eqb k) event_types).
Qed.

(** X6: whatever calls are made on the manager, and whether they return or
    raise, no name is ever in the id cache and in the negative cache at
    once. *)
Theorem calls_keep_the_caches_disjoint
  (bind_vars : nat) (set_order : list string -> list string)
  (calls : list call) (w : World)
  (Hdis : caches_disjoint (self w)) :
  caches_disjoint (self (after_calls bind_vars set_order calls w)).
Proof.
  revert w Hdis. induction calls as [|c calls IH]; intros w Hdis; simpl;
    [exact Hdis|]. apply IH. now apply run_call_keeps_disjoint.
Qed.

Lemma caches_disjoint_init : caches_disjoint init.
Proof. intros k H. reflexivity. Qed.

Lemma calls_keep_the_caches_disjoint_witness :
  let w := mkWorld init (mkSession SQLITE [(1%Z, "a")] [None]) in
  let calls := [CallGetMany ["a"; "b"] true;
                CallAddPending (mkEventTypes 2 (Some "b"));
                CallPostCommitPending; CallGet "c" true] in
  caches_disjoint (self w) /\
  caches_disjoint (self (after_calls 990 id calls w)).
Proof.
  intros w calls. split; [exact caches_disjoint_init|].
  exact (calls_keep_the_caches_disjoint 990 id calls w caches_disjoint_init).
Defined.

(** X7: in a manager whose caches are disjoint (every manager the calls
    above can reach from a fresh one), a name the id cache holds is asked of
    the store again by the first [get] after [evict_purged] of that name. *)
Theorem evicted_name_is_fetched_again
  (bind_vars : nat) (event_type : string) (from_recorder : bool) (w : World)
  (Hpos : 0 < bind_vars)
  (Hdis : caches_disjoint (self w))
  (Hcached : LRU.peek event_type (_id_map (self w)) <> None) :
  let w' := snd (fst (evict_purged [event_type] w)) in
  LRU.peek event_type (_id_map (self w')) = None /\
  starts_with (EvExecute (find_event_type_ids [event_type]))
              (get bind_vars event_type from_recorder w').
Proof.
  cbv zeta. rewrite evict_purged_run. simpl.
  assert (Hp : LRU.peek event_type (LRU.pop event_type (_id_map (self w)))
               = None).
  { rewrite lru_peek_pop. now rewrite String.eqb_refl. }
  split; [exact Hp|].
  apply get_miss_queries; [exact Hpos|exact Hp|]. simpl. now apply Hdis.
Qed.

Lemma evicted_name_is_fetched_again_witness :
  let w := mkWorld
             (mkManager (LRU.mk 2048 [("call_service", 3%Z)]) PyDict.empty
                        (LRU.create 2048))
             (mkSession SQLITE [] []) in
  0 < 990 /\ caches_disjoint (self w) /\
  LRU.peek "call_service" (_id_map (self w)) <> None /\
  starts_with (EvExecute (find_event_type_ids ["call_service"]))
    (get 990 "call_service" false
       (snd (fst (evict_purged ["call_service"] w)))).
Proof.
  intros w.
  assert (H1 : 0 < 990) by lia.
  assert (H2 : caches_disjoint (self w)) by (intros k H; reflexivity).
  assert (H3 : LRU.peek "call_service" (_id_map (self w)) <> None)
    by discriminate.
  repeat (split; [assumption|]).
  exact (proj2 (evicted_name_is_fetched_again 990 "call_service" false w
                  H1 H2 H3)).
Defined.

(** ** [load] *)

Lemma recent_all {V} (c : LRU.t V) : NoDup (LRU.keys c) -> recent c (LRU.keys c).
Proof.
  intros H. exists (LRU.entries c), []. rewrite app_nil_r.
  split; [reflexivity|]. split; [exact H|]. intros k. reflexivity.
Qed.

(** Storing keys into a cache that has room for them drops nothing. *)
Lemma lru_set_all_keeps {V} (kvs : list (string * V)) (c : LRU.t V) k :
  NoDup (LRU.keys c) ->
  List.length kvs + List.length (LRU.entries c) <= LRU.size c ->
  In k (map fst kvs) \/ In k (LRU.keys c) ->
  In k (LRU.keys (lru_set_all kvs c)).
Proof.
  intros Hnd Hroom Hk.
  destruct (recent_set_all kvs c (LRU.keys c) (recent_all c Hnd))
    as [(front & back & He & _ & Hfront) _].
  { etransitivity; [|exact Hroom].
    etransitivity; [apply NoDup_incl_length;
                    [apply NoDup_nodup|
                     intros x Hx; apply nodup_In in Hx; exact Hx]|].
    rewrite length_app, length_rev, length_map.
    unfold LRU.keys. rewrite length_map. lia. }
  unfold LRU.keys. rewrite He, map_app. apply in_or_app. left.
  apply Hfront. apply in_or_app.
  destruct Hk as [Hk|Hk]; [left; now apply -> in_rev|now right].
Qed.

Lemma event_types_of_in events t :
  In t (event_types_of events) <->
  exists e, In e events /\ ev_event_type e = Some t.
Proof.
  unfold event_types_of. rewrite in_flat_map. split.
  - intros (e & He & Ht). exists e. split; [exact He|].
    destruct (ev_event_type e); [|contradiction].
    destruct Ht as [->|[]]. reflexivity.
  - intros (e & He & Ht). exists e. split; [exact He|]. rewrite Ht. now left.
Qed.

Lemma incl_length_nodup (l1 l2 : list string) :
  NoDup l1 -> incl l1 l2 -> List.length l1 <= List.length l2.
Proof. intros H1 H2. now apply NoDup_incl_length. Qed.

(** X8: [load] asks for every event type of the events once, skipping the
    events without one, as the recorder: it queues no refresh task, and when
    it returns and both caches had room for the event types, a later [get]
    of any of them is answered from the caches, with no event at all. *)
Theorem load_warms_the_caches
  (bind_vars : nat) (set_order : list string -> list string)
  (events : list Event) (w w' : World) (tr : list event)
  (Horder : set_order_ok set_order)
  (Hwf : manager_wf (self w))
  (Hroom_ids :
     List.length (event_types_of events)
     + List.length (LRU.entries (_id_map (self w))) <= CACHE_SIZE)
  (Hroom_absent :
     List.length (event_types_of events)
     + List.length (LRU.entries (_non_existent_event_types (self w)))
     <= CACHE_SIZE)
  (Hrun : load bind_vars set_order events w = (inr tt, w', tr)) :
  queued_tasks tr = [] /\
  forall e t, In e events -> ev_event_type e = Some t ->
    forall from_recorder, exists v,
      get bind_vars t from_recorder w' =
        (inr v,
         mkWorld (with_id_map (self w') (snd (LRU.get t (_id_map (self w')))))
                 (session w'),
         []).
Proof.
  set (names := set_order (event_types_of events)).
  destruct (Horder (event_types_of events)) as [Hnd Hsame]. fold names in Hnd, Hsame.
  destruct Hwf as ((Hs1 & Hl1 & Hn1) & (Hs2 & Hl2 & Hn2) & _).
  destruct (get_many_anatomy bind_vars names true w)
    as (r & w0 & tr0 & c1 & rows & used & fs & Hrun0 & Hpeek & Hwf1 & _ & _ & _
        & Hid' & Hrows & _ & Hr).
  unfold load in Hrun. unfold bind in Hrun. fold names in Hrun.
  rewrite Hrun0 in Hrun. destruct r as [e0|results]; [discriminate|].
  unfold ret in Hrun. inversion Hrun; subst w0 tr. clear Hrun.
  destruct Hr as (Hres & _ & Hneg' & Hq).
  split; [now rewrite app_nil_r|].
  assert (Hlen : List.length names <= List.length (event_types_of events)).
  { apply incl_length_nodup; [exact Hnd|]. intros x Hx. now apply Hsame. }
  destruct (Hwf1 (conj Hs1 (conj Hl1 Hn1))) as (Hs1' & Hl1' & Hn1').
  assert (Hkeys1 : forall k, In k (LRU.keys c1) <->
                             In k (LRU.keys (_id_map (self w)))).
  { intros k. rewrite <- !lru_peek_in. now rewrite Hpeek. }
  assert (Hlen1 : List.length (LRU.entries c1) <=
                  List.length (LRU.entries (_id_map (self w)))).
  { rewrite <- !(length_map fst). apply incl_length_nodup; [exact Hn1'|].
    intros x Hx. now apply Hkeys1. }
  assert (Hrows_names : forall k, In k (map snd rows) ->
                                  In k (partition_missing (self w) names)).
  { intros k Hk. apply in_map_iff in Hk as (row & <- & Hrow). now apply Hrows. }
  assert (Hmiss_len : forall l, NoDup l ->
            incl l (partition_missing (self w) names) ->
            List.length l <= List.length names).
  { intros l Hl Hincl. apply incl_length_nodup; [exact Hl|].
    intros x Hx. apply Hincl, partition_missing_in in Hx. tauto. }
  intros e t He Ht from_recorder.
  assert (Hin : In t names).
  { apply Hsame, event_types_of_in. eauto. }
  destruct (LRU.peek t (_id_map (self w'))) as [id|] eqn:Epeek.
  { exists (Some id). now apply get_hit. }
  exists None.
  assert (Hnot : ~ In t (LRU.keys (_id_map (self w')))).
  { intros H. apply lru_peek_in in H. congruence. }
  rewrite (lru_get_miss _ _ Epeek), with_id_map_same, world_eta.
  apply get_known_absent; [exact Epeek|].
  rewrite Hneg'. apply lru_contains_in.
  (* the rows stored are among the first [CACHE_SIZE] entries: none of the
     names of the call has been dropped from the id cache *)
  assert (Hkept : forall k, In k (map snd rows) \/ In k (LRU.keys c1) ->
                            In k (LRU.keys (_id_map (self w')))).
  { intros k Hk. rewrite Hid'. unfold cache_rows.
    destruct (recent_set_all (map (fun row : Row => (snd row, fst row)) rows)
                c1 (LRU.keys c1) (recent_all c1 Hn1'))
      as [(front & back & Hent & _ & Hfront) _].
    { rewrite map_map. simpl. rewrite Hs1', <- Hs1.
      etransitivity; [|rewrite Hs1; exact Hroom_ids].
      etransitivity;
        [apply (nodup_length_incl _
                  (partition_missing (self w) names ++ LRU.keys c1))|].
      - intros x Hx. apply in_app_or in Hx as [Hx|Hx].
        + apply in_or_app. left. apply Hrows_names. now apply in_rev.
        + apply in_or_app. now right.
      - etransitivity;
          [apply NoDup_incl_length;
           [apply NoDup_nodup|
            intros x Hx; apply nodup_In in Hx; exact Hx]|].
        rewrite length_app. unfold LRU.keys at 1. rewrite length_map.
        assert (List.length (partition_missing (self w) names)
                <= List.length names) by apply filter_length_le.
        lia. }
    unfold LRU.keys, lru_set_all in *. rewrite Hent, map_app.
    apply in_or_app. left. apply Hfront. apply in_or_app.
    destruct Hk as [Hk|Hk]; [left|now right].
    rewrite map_map. simpl. now apply -> in_rev. }
  assert (Hnorow : ~ In t (map snd rows)) by (intros H; apply Hnot; auto).
  assert (Hnoid : LRU.peek t (_id_map (self w)) = None).
  { destruct (LRU.peek t (_id_map (self w))) eqn:E; [|reflexivity].
    exfalso. apply Hnot, Hkept. right. apply Hkeys1, lru_peek_in. congruence. }
  apply lru_set_all_keeps; [exact Hn2| |].
  - rewrite length_map, Hs2.
    assert (List.length (absent_names (partition_missing (self w) names)
                           results) <= List.length names).
    { etransitivity; [apply filter_length_le|apply filter_length_le]. }
    lia.
  - rewrite map_map. simpl. rewrite map_id.
    destruct (unresolved (self w) t) eqn:Eun.
    + left. unfold absent_names. apply filter_In.
      split; [apply partition_missing_in; auto|].
      rewrite Hres, store_rows_get_other by exact Hnorow.
      rewrite partition_results_get.
      apply existsb_eqb_in in Hin. now rewrite Hin, Hnoid.
    + right. apply lru_contains_in. unfold unresolved in Eun.
      rewrite Hnoid in Eun. simpl in Eun. now apply negb_false_iff in Eun.
Qed.

Lemma set_order_ok_nodup : set_order_ok (nodup string_dec).
Proof.
  intros l. split; [apply NoDup_nodup|]. intros x. apply nodup_In.
Qed.

Lemma load_warms_the_caches_witness :
  let events := [mkEvent (Some "a"); mkEvent None; mkEvent (Some "a");
                 mkEvent (Some "b")] in
  let w := mkWorld init (mkSession SQLITE [(1%Z, "a")] []) in
  let run := load 990 (nodup string_dec) events w in
  set_order_ok (nodup string_dec) /\
  manager_wf (self w) /\
  run = (inr tt, snd (fst run), snd run) /\
  queued_tasks (snd run) = [] /\
  (exists v, fst (get 990 "a" false (snd (fst run))) = (inr v, snd (fst run)))
  /\
  exists v,
    get 990 "b" true (snd (fst run)) =
    (inr v,
     mkWorld (with_id_map (self (snd (fst run)))
                (snd (LRU.get "b" (_id_map (self (snd (fst run)))))))
             (session (snd (fst run))),
     []).
Proof.
  intros events w run.
  assert (H1 : set_order_ok (nodup string_dec)) by exact set_order_ok_nodup.
  assert (H2 : manager_wf (self w)) by exact manager_wf_init.
  assert (H3 : run = (inr tt, snd (fst run), snd run)) by reflexivity.
  assert (Hr1 : List.length (event_types_of events)
                + List.length (LRU.entries (_id_map (self w))) <= CACHE_SIZE).
  { vm_compute. lia. }
  assert (Hr2 : List.length (event_types_of events)
                + List.length
                    (LRU.entries (_non_existent_event_types (self w)))
                <= CACHE_SIZE).
  { vm_compute. lia. }
  destruct (load_warms_the_caches 990 (nodup string_dec) events w _ _
              H1 H2 Hr1 Hr2 H3) as (Hq & Hget).
  repeat (split; [assumption|]).
  split.
  - exists (Some 1%Z). reflexivity.
  - apply (Hget (mkEvent (Some "b")) "b"); [|reflexivity].
    right. right. right. now left.
Defined.

(** ** More about [chunked] *)

(** X9: the chunks are the consecutive slices of the list: chunk [i] is the
    items [i * n] to [(i + 1) * n - 1], as long as the list reaches that far
    (so every chunk but the last has exactly [n] items). *)
Theorem chunked_nth (A : Type) (l : list A) (n i : nat) (Hpos : 0 < n) :
  nth_error (chunked l n) i =
  if Nat.ltb (i * n) (List.length l)
  then Some (firstn n (skipn (i * n) l))
  else None.
Proof.
  unfold chunked.
  assert (H : forall fuel (l : list A) i, List.length l <= fuel ->
            nth_error (chunked_from fuel n l) i =
            if Nat.ltb (i * n) (List.length l)
            then Some (firstn n (skipn (i * n) l)) else None).
  { clear l i. induction fuel as [|fuel IH]; intros l i Hlen.
    - destruct l; [|simpl in Hlen; lia]. simpl.
      destruct (Nat.ltb_spec (i * n) 0); [lia|]. now destruct i.
    - destruct l as [|x l].
      + rewrite chunked_from_nil. simpl.
        destruct (Nat.ltb_spec (i * n) 0); [lia|]. now destruct i.
      + rewrite chunked_from_cons by exact Hpos. destruct i as [|i].
        * simpl nth_error. simpl Nat.mul.
          destruct (Nat.ltb_spec 0 (List.length (x :: l)));
            [reflexivity|simpl in *; lia].
        * simpl nth_error. rewrite IH
            by (rewrite length_skipn; cbn [List.length] in *; lia).
          rewrite length_skipn, skipn_skipn.
          replace (i * n + n) with (S i * n) by lia.
          destruct (Nat.ltb_spec (i * n) (List.length (x :: l) - n)),
                   (Nat.ltb_spec (S i * n) (List.length (x :: l)));
            try reflexivity; lia. }
  apply H. lia.
Qed.

Lemma chunked_nth_witness :
  0 < 2 /\
  nth_error (chunked ["a"; "b"; "c"; "d"; "e"] 2) 2 = Some ["e"] /\
  nth_error (chunked ["a"; "b"; "c"; "d"; "e"] 2) 3 = None.
Proof.
  assert (H : 0 < 2) by lia.
  split; [exact H|]. split.
  - exact (chunked_nth string ["a"; "b"; "c"; "d"; "e"] 2 2 H).
  - exact (chunked_nth string ["a"; "b"; "c"; "d"; "e"] 2 3 H).
Defined.

(** X10: with a bound of 0 bind parameters [chunked] yields no chunk at
    all, so the fetch asks the store nothing: [get_many] then returns every
    name that no cache holds as absent, whatever the table holds, and runs
    no query. *)
Theorem zero_bind_vars_never_query
  (names : list string) (from_recorder : bool) (w : World) :
  chunked names 0 = [] /\
  exists results w' tr,
    get_many 0 names from_recorder w = (inr results, w', tr) /\
    attempts tr = 0 /\
    forall name,
      In name names -> unresolved (self w) name = true ->
      PyDict.get name results = Some None.
Proof.
  assert (Hch : forall l : list string, chunked l 0 = []).
  { intros l. unfold chunked. now destruct l. }
  split; [apply Hch|].
  destruct (partition_loop_closed names PyDict.empty [] w)
    as (c1 & Hpart & Hpeek & _).
  simpl app in Hpart.
  set (res0 := partition_results (self w) names PyDict.empty) in *.
  set (missing := partition_missing (self w) names) in *.
  assert (Hget : forall name, In name names ->
                   unresolved (self w) name = true ->
                   PyDict.get name res0 = Some None).
  { intros name Hin Hun. unfold res0. rewrite partition_results_get.
    apply existsb_eqb_in in Hin. rewrite Hin. unfold unresolved in Hun.
    destruct (LRU.peek name (_id_map (self w))); [discriminate|reflexivity]. }
  destruct missing as [|n0 missing0] eqn:Emiss.
  - exists res0, (mkWorld (with_id_map (self w) c1) (session w)), [].
    split; [|split; [reflexivity|exact Hget]].
    unfold get_many. unfold bind.
    unfold _get_initial_results_and_missing. now rewrite Hpart.
  - assert (Hfetch : _fetch_missing_event_ids_from_db 0 (n0 :: missing0) res0
                       (mkWorld (with_id_map (self w) c1) (session w)) =
                     (inr res0,
                      mkWorld (with_id_map (self w) c1) (session w), [])).
    { rewrite fetch_unfold, Hch. reflexivity. }
    assert (Hkeys : forall n, In n (n0 :: missing0) ->
                              PyDict.get n res0 <> None).
    { intros n Hn. rewrite <- Emiss in Hn.
      apply partition_missing_in in Hn as [Hn Hun].
      rewrite (Hget n Hn Hun). discriminate. }
    pose proof (get_many_run 0 names from_recorder w _ _ _ _ _ _
                  Hpart ltac:(discriminate) Hfetch Hkeys) as Hrun.
    destruct (absent_names (n0 :: missing0) res0) as [|a absent0].
    + eexists _, _, _. split; [exact Hrun|]. split; [reflexivity|exact Hget].
    + destruct from_recorder.
      * eexists _, _, _. split; [exact Hrun|].
        split; [reflexivity|exact Hget].
      * eexists _, _, _. split; [exact Hrun|].
        split; [reflexivity|exact Hget].
Qed.

Lemma zero_bind_vars_never_query_witness :
  let w := mkWorld init (mkSession SQLITE [(1%Z, "a")] []) in
  In "a" ["a"] /\ unresolved (self w) "a" = true /\
  exists results w' tr,
    get_many 0 ["a"] true w = (inr results, w', tr) /\
    attempts tr = 0 /\
    PyDict.get "a" results = Some None.
Proof.
  intros w.
  assert (H1 : In "a" ["a"]) by now left.
  assert (H2 : unresolved (self w) "a" = true) by reflexivity.
  split; [exact H1|]. split; [exact H2|].
  destruct (proj2 (zero_bind_vars_never_query ["a"] true w))
    as (results & w' & tr & Hrun & Hatt & Hget).
  exists results, w', tr. split; [exact Hrun|]. split; [exact Hatt|].
  exact (Hget "a" H1 H2).
Defined.

(** * The other functions of [util.py] *)

(** ** [execute] *)

Section ExecuteFacts.
Variables row native : Type.
Variable to_native : row -> bool -> option native.

Local Abbreviation state := (Queries.state row).
Local Abbreviation event := (Queries.event).
Local Abbreviation execute_from :=
  (Queries.execute_from row native to_native).
Local Abbreviation execute := (Queries.execute row native to_native).
Local Abbreviation converted := (Queries.converted row native to_native).

Implicit Types (s : state) (t : list event).

Lemma queries_app t1 t2 :
  Queries.queries (t1 ++ t2) = Queries.queries t1 + Queries.queries t2.
Proof. unfold Queries.queries. now rewrite filter_app, length_app. Qed.

Lemma slept_app t1 t2 :
  Queries.slept (t1 ++ t2) = Queries.slept t1 ++ Queries.slept t2.
Proof. apply flat_map_app. Qed.

Lemma errors_logged_app t1 t2 :
  Queries.errors_logged (t1 ++ t2) =
  Queries.errors_logged t1 ++ Queries.errors_logged t2.
Proof. apply flat_map_app. Qed.

Lemma debug_messages_app t1 t2 :
  Queries.debug_messages (t1 ++ t2) =
  Queries.debug_messages t1 ++ Queries.debug_messages t2.
Proof. apply flat_map_app. Qed.

(** An attempt whose round trip fails. *)
Lemma execute_from_fault debug tryno rest tn val s e fs :
  Queries.qry_faults s = Some e :: fs ->
  exists pre,
    Queries.queries pre = 1 /\ Queries.slept pre = [] /\
    Queries.errors_logged pre = [] /\ Queries.debug_messages pre = [] /\
    execute_from debug (tryno :: rest) tn val s =
    if Queries.is_SQLAlchemyError e then
      if Nat.eqb tryno (RETRIES - 1)
      then (inl e, Queries.with_faults s fs, pre ++ [Queries.EvLogError e])
      else
        match execute_from debug rest tn val (Queries.with_faults s fs) with
        | (r, s2, t2) =>
            (r, s2,
             pre ++ [Queries.EvLogError e; Queries.EvSleep QUERY_RETRY_WAIT]
             ++ t2)
        end
    else (inl e, Queries.with_faults s fs, pre).
Proof.
  intros Hf.
  exists ((if debug then [Queries.EvPerfCounter] else []) ++ [Queries.EvQuery]).
  split; [now destruct debug|]. split; [now destruct debug|].
  split; [now destruct debug|]. split; [now destruct debug|].
  cbn [Queries.execute_from]. unfold ptry.
  assert (Hbody :
    ((if debug then Queries.perf_counter row else pret tt) ~;;
     res <~ Queries.execute_query row native to_native tn val ;;
     (if debug then Queries.log_debug row native debug tn res else pret tt) ~;;
     pret res) s =
    (inl e, Queries.with_faults s fs,
     (if debug then [Queries.EvPerfCounter] else []) ++ [Queries.EvQuery])).
  { unfold pbind, Queries.execute_query, Queries.run_qry.
    destruct debug; unfold Queries.perf_counter, pemit, pret, pbind;
      rewrite Hf; reflexivity. }
  rewrite Hbody. destruct (Queries.is_SQLAlchemyError e); [|reflexivity].
  unfold pbind at 1. unfold Queries.handle_query_error.
  unfold pbind at 1. unfold pemit at 1.
  destruct (Nat.eqb tryno (RETRIES - 1)).
  - unfold praise. now rewrite app_nil_r.
  - unfold pemit at 1.
    destruct (execute_from debug rest tn val (Queries.with_faults s fs))
      as [[r s2] t2].
    reflexivity.
Qed.

(** An attempt whose round trip succeeds. *)
Lemma execute_from_ok debug tryno rest tn val s :
  (Queries.qry_faults s = [] \/
   exists fs, Queries.qry_faults s = None :: fs) ->
  exists s' t,
    execute_from debug (tryno :: rest) tn val s =
      (inr (converted tn val (Queries.qry_rows s)), s', t) /\
    Queries.queries t = 1 /\ Queries.slept t = [] /\
    Queries.errors_logged t = [] /\
    Queries.debug_messages t =
      (if debug
       then [(tn, Queries.len (converted tn val (Queries.qry_rows s)))]
       else []).
Proof.
  intros Hf. cbn [Queries.execute_from]. unfold ptry.
  destruct debug, tn;
    unfold pbind, Queries.execute_query, Queries.run_qry, Queries.converted,
      Queries.log_debug, Queries.perf_counter, pemit, pret, pbind;
    destruct Hf as [Hf|[fs Hf]]; rewrite Hf;
    eexists _, _; (split; [reflexivity|]); repeat split.
Qed.

Lemma execute_from_failures debug tn val errs : forall first n s e_or_fs,
  first + n = RETRIES ->
  List.length errs < n ->
  Forall (fun e => Queries.is_SQLAlchemyError e = true) errs ->
  Queries.qry_faults s = map Some errs ++ e_or_fs ->
  exists pre,
    Queries.queries pre = List.length errs /\
    Queries.slept pre = repeat QUERY_RETRY_WAIT (List.length errs) /\
    Queries.errors_logged pre = errs /\
    Queries.debug_messages pre = [] /\
    execute_from debug (seq first n) tn val s =
    match execute_from debug (seq (first + List.length errs)
                                  (n - List.length errs)) tn val
            (Queries.with_faults s e_or_fs) with
    | (r, s2, t2) => (r, s2, pre ++ t2)
    end.
Proof.
  induction errs as [|e errs IH]; intros first n s rest Hsum Hlen Hall Hf.
  - exists []. simpl. repeat (split; [reflexivity|]).
    rewrite Nat.add_0_r, Nat.sub_0_r. simpl in Hf.
    replace (Queries.with_faults s rest) with s
      by (destruct s; unfold Queries.with_faults; simpl in *; now subst).
    now destruct (execute_from debug (seq first n) tn val s) as [[r s2] t2].
  - apply Forall_cons_iff in Hall as [He Hall].
    destruct n as [|n]; [simpl in Hlen; lia|]. cbn [seq].
    simpl in Hf.
    destruct (execute_from_fault debug first (seq (S first) n) tn val s e
                (map Some errs ++ rest) Hf)
      as (pre & Hq & Hs & Hl & Hd & ->).
    rewrite He.
    assert (Hneq : Nat.eqb first (RETRIES - 1) = false).
    { apply Nat.eqb_neq. simpl in Hlen. lia. }
    rewrite Hneq.
    destruct (IH (S first) n (Queries.with_faults s (map Some errs ++ rest))
                rest) as (pre' & Hq' & Hs' & Hl' & Hd' & ->);
      [lia|simpl in Hlen; lia|exact Hall|reflexivity|].
    cbn [List.length].
    replace (S first + List.length errs) with (first + S (List.length errs))
      by lia.
    replace (S n - S (List.length errs)) with (n - List.length errs) by lia.
    change (Queries.with_faults (Queries.with_faults s (map Some errs ++ rest))
              rest) with (Queries.with_faults s rest).
    destruct (execute_from debug _ tn val (Queries.with_faults s rest))
      as [[r s2] t2].
    exists (pre ++ [Queries.EvLogError e; Queries.EvSleep QUERY_RETRY_WAIT]
            ++ pre').
    split; [rewrite !queries_app, Hq, Hq'; simpl; lia|].
    split; [rewrite !slept_app, Hs, Hs'; reflexivity|].
    split; [rewrite !errors_logged_app, Hl, Hl'; reflexivity|].
    split; [rewrite !debug_messages_app, Hd, Hd'; reflexivity|].
    now rewrite <- !app_assoc.
Qed.
End ExecuteFacts.

(** X11: [execute] tries again after every [SQLAlchemyError], whatever its
    kind: when fewer than [RETRIES] round trips fail with one and the next
    succeeds, it returns the rows of the query (converted with [to_native],
    the rows that convert to [None] dropped, when asked to), having logged
    each error and slept [QUERY_RETRY_WAIT] after each; the debug message is
    written once, and only when the logger is enabled for it. *)
Theorem execute_retries_until_a_round_trip_succeeds
  (row native : Type) (to_native : row -> bool -> option native)
  (to_native_flag validate_entity_ids : bool)
  (s : Queries.state row) (errs : list Queries.exc)
  (fs : list (option Queries.exc))
  (Hfaults : Queries.qry_faults s = map Some errs ++ fs)
  (Hnext : fs = [] \/ exists fs', fs = None :: fs')
  (Herrs : Forall (fun e => Queries.is_SQLAlchemyError e = true) errs)
  (Hfew : List.length errs < RETRIES) :
  let res := Queries.converted row native to_native
               to_native_flag validate_entity_ids (Queries.qry_rows s) in
  exists s' t,
    Queries.execute row native to_native to_native_flag validate_entity_ids s
      = (inr res, s', t) /\
    Queries.queries t = S (List.length errs) /\
    Queries.slept t = repeat QUERY_RETRY_WAIT (List.length errs) /\
    Queries.errors_logged t = errs /\
    Queries.debug_messages t =
      (if Queries.debug_enabled s
       then [(to_native_flag, Queries.len res)] else []).
Proof.
  intros res. unfold Queries.execute, pbind, pget.
  destruct (execute_from_failures row native to_native
              (Queries.debug_enabled s) to_native_flag validate_entity_ids
              errs 0 RETRIES s fs eq_refl Hfew Herrs Hfaults)
    as (pre & Hq & Hs & Hl & Hd & ->).
  destruct (RETRIES - List.length errs) as [|k] eqn:Ek; [lia|]. cbn [seq].
  destruct (execute_from_ok row native to_native (Queries.debug_enabled s)
              (0 + List.length errs) (seq (S (0 + List.length errs)) k)
              to_native_flag validate_entity_ids (Queries.with_faults s fs))
    as (s' & t & -> & Hq' & Hs' & Hl' & Hd').
  { exact Hnext. }
  exists s', (pre ++ t). split; [reflexivity|].
  split; [rewrite queries_app, Hq, Hq'; lia|].
  split; [rewrite slept_app, Hs, Hs'; now rewrite app_nil_r|].
  split; [rewrite errors_logged_app, Hl, Hl'; now rewrite app_nil_r|].
  rewrite debug_messages_app, Hd, Hd'. reflexivity.
Qed.

Lemma execute_retries_until_a_round_trip_succeeds_witness :
  let to_native := fun (r : nat) (_ : bool) =>
                     if Nat.even r then Some (r / 2) else None in
  let stale := Queries.SQLAlchemyError "server has gone away" in
  let s := Queries.mkState [2; 3; 8] [Some stale; Some stale; None] true in
  Queries.qry_faults s = map Some [stale; stale] ++ [None] /\
  Forall (fun e => Queries.is_SQLAlchemyError e = true) [stale; stale] /\
  List.length [stale; stale] < RETRIES /\
  exists s' t,
    Queries.execute nat nat to_native true true s =
      (inr (Queries.Natives [1; 4]), s', t) /\
    Queries.queries t = 3 /\
    Queries.slept t = [QUERY_RETRY_WAIT; QUERY_RETRY_WAIT] /\
    Queries.debug_messages t = [(true, 2)].
Proof.
  intros to_native stale s.
  assert (H1 : Queries.qry_faults s = map Some [stale; stale] ++ [None])
    by reflexivity.
  assert (H2 : Forall (fun e => Queries.is_SQLAlchemyError e = true)
                 [stale; stale]) by (repeat constructor).
  assert (H3 : List.length [stale; stale] < RETRIES)
    by (unfold RETRIES; simpl; lia).
  repeat (split; [assumption|]).
  destruct (execute_retries_until_a_round_trip_succeeds nat nat to_native
              true true s [stale; stale] [None] H1
              (or_intror (ex_intro _ [] eq_refl)) H2 H3)
    as (s' & t & Hrun & Hq & Hs & _ & Hd).
  exists s', t. split; [exact Hrun|]. split; [exact Hq|].
  split; [exact Hs|exact Hd].
Defined.

(** X12: [execute] gives up in two cases only: an exception that is not an
    [SQLAlchemyError] leaves it at once, unlogged; and the [SQLAlchemyError]
    of attempt number [RETRIES] is logged and re-raised with no further
    sleep.  The earlier errors were each logged and slept on, no debug
    message is written, and the [RuntimeError] after the loop is not
    reached. *)
Theorem execute_gives_up
  (row native : Type) (to_native : row -> bool -> option native)
  (to_native_flag validate_entity_ids : bool)
  (s : Queries.state row) (errs : list Queries.exc) (e : Queries.exc)
  (fs : list (option Queries.exc))
  (Hfaults : Queries.qry_faults s = map Some errs ++ Some e :: fs)
  (Herrs : Forall (fun e => Queries.is_SQLAlchemyError e = true) errs)
  (Hfew : List.length errs < RETRIES)
  (Hlast : Queries.is_SQLAlchemyError e = false \/
           List.length errs = RETRIES - 1) :
  exists t,
    Queries.execute row native to_native to_native_flag validate_entity_ids s
      = (inl e, Queries.with_faults s fs, t) /\
    Queries.queries t = S (List.length errs) /\
    Queries.slept t = repeat QUERY_RETRY_WAIT (List.length errs) /\
    Queries.errors_logged t =
      errs ++ (if Queries.is_SQLAlchemyError e then [e] else []) /\
    Queries.debug_messages t = [].
Proof.
  unfold Queries.execute, pbind, pget.
  destruct (execute_from_failures row native to_native
              (Queries.debug_enabled s) to_native_flag validate_entity_ids
              errs 0 RETRIES s (Some e :: fs) eq_refl Hfew Herrs Hfaults)
    as (pre & Hq & Hs & Hl & Hd & ->).
  destruct (RETRIES - List.length errs) as [|k] eqn:Ek; [lia|]. cbn [seq].
  destruct (execute_from_fault row native to_native (Queries.debug_enabled s)
              (0 + List.length errs) (seq (S (0 + List.length errs)) k)
              to_native_flag validate_entity_ids
              (Queries.with_faults s (Some e :: fs)) e fs eq_refl)
    as (pre' & Hq' & Hs' & Hl' & Hd' & ->).
  change (Queries.with_faults (Queries.with_faults s (Some e :: fs)) fs)
    with (Queries.with_faults s fs).
  destruct (Queries.is_SQLAlchemyError e) eqn:He.
  - destruct Hlast as [Hlast|Hlast]; [discriminate|].
    assert (Heq : Nat.eqb (0 + List.length errs) (RETRIES - 1) = true).
    { apply Nat.eqb_eq. lia. }
    rewrite Heq. eexists. split; [reflexivity|].
    rewrite !queries_app, !slept_app, !errors_logged_app, !debug_messages_app.
    rewrite Hq, Hq', Hs, Hs', Hl, Hl', Hd, Hd'.
    unfold Queries.queries, Queries.slept, Queries.errors_logged,
      Queries.debug_messages. simpl.
    rewrite app_nil_r. repeat split. lia.
  - eexists. split; [reflexivity|].
    rewrite !queries_app, !slept_app, !errors_logged_app, !debug_messages_app.
    rewrite Hq, Hq', Hs, Hs', Hl, Hl', Hd, Hd'. simpl.
    rewrite !app_nil_r. repeat split. lia.
Qed.

Lemma execute_gives_up_witness :
  let to_native := fun (r : nat) (_ : bool) => Some r in
  let stale := Queries.SQLAlchemyError "server has gone away" in
  let s := Queries.mkState [2; 3] [Some stale; Some stale; Some stale] false in
  Queries.qry_faults s = map Some [stale; stale] ++ Some stale :: [] /\
  List.length [stale; stale] = RETRIES - 1 /\
  exists t,
    Queries.execute nat nat to_native false true s =
      (inl stale, Queries.with_faults s [], t) /\
    Queries.queries t = 3 /\
    Queries.slept t = [QUERY_RETRY_WAIT; QUERY_RETRY_WAIT] /\
    Queries.errors_logged t = [stale; stale; stale].
Proof.
  intros to_native stale s.
  assert (H1 : Queries.qry_faults s = map Some [stale; stale] ++ [Some stale])
    by reflexivity.
  assert (H2 : Forall (fun e => Queries.is_SQLAlchemyError e = true)
                 [stale; stale]) by (repeat constructor).
  assert (H3 : List.length [stale; stale] < RETRIES)
    by (unfold RETRIES; simpl; lia).
  assert (H4 : List.length [stale; stale] = RETRIES - 1) by reflexivity.
  split; [exact H1|]. split; [exact H4|].
  destruct (execute_gives_up nat nat to_native false true s [stale; stale]
              stale [] H1 H2 H3 (or_intror H4))
    as (t & Hrun & Hq & Hs & Hl & _).
  exists t. split; [exact Hrun|]. split; [exact Hq|].
  split; [exact Hs|exact Hl].
Defined.

(** ** The job wrappers *)

Section JobFacts.
Variable S : Type.
Implicit Types (s : S) (t : list Jobs.event).

Lemma is_retryable_run instance d orig s :
  Jobs.engine instance = Some d ->
  Jobs._is_retryable_error S instance orig s =
  (inr (dialect_is_mysql d
        && Jobs.has_retryable_code (Jobs.OperationalError orig)), s, []).
Proof.
  intros He. unfold Jobs._is_retryable_error. rewrite He.
  unfold pret, Jobs.has_retryable_code. now destruct orig as [[|a l]|].
Qed.

Lemma orig_args_1_transient orig s :
  Jobs.transient (Jobs.OperationalError orig) = true ->
  Jobs.orig_args_1 S orig s =
  (inr (Jobs.message_of (Jobs.OperationalError orig)), s, []).
Proof.
  unfold Jobs.transient, Jobs.orig_args_1.
  destruct orig as [[|a [|m l]]|]; try discriminate. reflexivity.
Qed.

Lemma transient_has_code e :
  Jobs.transient e = true -> Jobs.has_retryable_code e = true.
Proof.
  destruct e as [[[|a [|m l]]|]| | |]; simpl; try discriminate; auto.
Qed.

Lemma transient_is_operational e :
  Jobs.transient e = true -> Jobs.is_OperationalError e = true.
Proof. destruct e; simpl; [reflexivity|discriminate..]. Qed.

(** X13: [retryable_database_job] lets no [OperationalError] out.  What
    the job returns it returns; an [OperationalError] of the job that is
    retryable (MySQL, code in [RETRYABLE_MYSQL_ERRORS]) is logged, slept on
    for [db_retry_wait] and answered [False] (to be rescheduled); any other
    [OperationalError] is logged as a warning and answered [True], as if the
    job had finished; other exceptions pass through. *)
Theorem retryable_database_job_swallows_operational_errors
  (description : string) (job : Jobs.Recorder -> Jobs.P S bool)
  (instance : Jobs.Recorder) (d : SupportedDialect) (s : S)
  (Hengine : Jobs.engine instance = Some d) :
  let run := Jobs.retryable_database_job S description job instance s in
  let inner := job instance s in
  (forall e s' t, run = (inl e, s', t) -> Jobs.is_OperationalError e = false)
  /\
  (forall b s' t, inner = (inr b, s', t) -> run = (inr b, s', t)) /\
  (forall e s' t,
     inner = (inl e, s', t) -> Jobs.is_OperationalError e = false ->
     run = (inl e, s', t)) /\
  (forall e s' t,
     inner = (inl e, s', t) -> Jobs.is_OperationalError e = true ->
     if dialect_is_mysql d && Jobs.has_retryable_code e then
       Jobs.transient e = true ->
       run = (inr false, s',
              t ++ [Jobs.EvLogInfo (Jobs.message_of e) description;
                    Jobs.EvSleep (Jobs.db_retry_wait instance)])
     else
       run = (inr true, s', t ++ [Jobs.EvLogWarning description e])).
Proof.
  intros run inner. subst run inner.
  assert (Hrun :
    Jobs.retryable_database_job S description job instance s =
    match job instance s with
    | (inr b, s1, t1) => (inr b, s1, t1)
    | (inl (Jobs.OperationalError orig), s1, t1) =>
        if dialect_is_mysql d
           && Jobs.has_retryable_code (Jobs.OperationalError orig)
        then
          match orig with
          | Some (_ :: m :: _) =>
              (inr false, s1,
               t1 ++ [Jobs.EvLogInfo m description;
                      Jobs.EvSleep (Jobs.db_retry_wait instance)])
          | _ => (inl Jobs.IndexError, s1, t1 ++ [])
          end
        else
          (inr true, s1,
           t1 ++ [Jobs.EvLogWarning description (Jobs.OperationalError orig)])
    | (inl e, s1, t1) => (inl e, s1, t1)
    end).
  { unfold Jobs.retryable_database_job, ptry.
    destruct (job instance s) as [[[e|b] s1] t1]; [|reflexivity].
    destruct e as [orig| | |]; cbn [Jobs.is_OperationalError];
      try reflexivity.
    unfold pbind at 1. rewrite (is_retryable_run instance d orig s1 Hengine).
    destruct (dialect_is_mysql d
              && Jobs.has_retryable_code (Jobs.OperationalError orig))
      eqn:Eretry.
    - destruct orig as [[|a [|m l]]|]; try reflexivity.
      simpl in Eretry. now rewrite andb_false_r in Eretry.
    - reflexivity. }
  rewrite Hrun. clear Hrun.
  destruct (job instance s) as [[[e|b] s1] t1] eqn:Ejob.
  - destruct e as [orig| | |].
    + destruct (dialect_is_mysql d
                && Jobs.has_retryable_code (Jobs.OperationalError orig))
        eqn:Eretry.
      * split.
        { intros e s' t H.
          destruct orig as [[|a [|m l]]|]; inversion H; reflexivity. }
        split; [discriminate|].
        split; [intros ? ? ? H; inversion H; subst; discriminate|].
        intros e s' t H _. inversion H; subst. rewrite Eretry.
        intros Htr. destruct orig as [[|a [|m l]]|]; try discriminate.
        reflexivity.
      * split; [intros e s' t H; inversion H|].
        split; [discriminate|].
        split; [intros ? ? ? H; inversion H; subst; discriminate|].
        intros e s' t H _. inversion H; subst. now rewrite Eretry.
    + split; [intros ? ? ? H; now inversion H|]. split; [discriminate|].
      split; [auto|]. intros ? ? ? H; inversion H; subst; discriminate.
    + split; [intros ? ? ? H; now inversion H|]. split; [discriminate|].
      split; [auto|]. intros ? ? ? H; inversion H; subst; discriminate.
    + split; [intros ? ? ? H; now inversion H|]. split; [discriminate|].
      split; [auto|]. intros ? ? ? H; inversion H; subst; discriminate.
  - split; [discriminate|]. split; [auto|]. split; discriminate.
Qed.
End JobFacts.

Lemma retryable_database_job_swallows_operational_errors_witness :
  let instance := Jobs.mkRecorder (Some MYSQL) (3 # 1) in
  let deadlock := Jobs.OperationalError
                    (Some [Jobs.AInt 1213; Jobs.AStr "Deadlock found"]) in
  let job := fun (_ : Jobs.Recorder) (s : nat) =>
               (@inl Jobs.exc bool deadlock, S s, [Jobs.EvJob "purge"]) in
  Jobs.engine instance = Some MYSQL /\
  job instance 0 = (inl deadlock, 1, [Jobs.EvJob "purge"]) /\
  Jobs.is_OperationalError deadlock = true /\
  Jobs.transient deadlock = true /\
  Jobs.retryable_database_job nat "purge" job instance 0 =
    (inr false, 1,
     [Jobs.EvJob "purge"; Jobs.EvLogInfo (Jobs.AStr "Deadlock found") "purge";
      Jobs.EvSleep (3 # 1)]).
Proof.
  intros instance deadlock job.
  assert (H1 : Jobs.engine instance = Some MYSQL) by reflexivity.
  assert (H2 : job instance 0 = (inl deadlock, 1, [Jobs.EvJob "purge"]))
    by reflexivity.
  assert (H3 : Jobs.is_OperationalError deadlock = true) by reflexivity.
  assert (H4 : Jobs.transient deadlock = true) by reflexivity.
  repeat (split; [assumption|]).
  exact (proj2 (proj2 (proj2
           (retryable_database_job_swallows_operational_errors nat "purge"
              job instance MYSQL 0 H1))) deadlock 1 [Jobs.EvJob "purge"]
           H2 H3 H4).
Defined.

Lemma job_calls_app t1 t2 :
  Jobs.calls (t1 ++ t2) = Jobs.calls t1 + Jobs.calls t2.
Proof. unfold Jobs.calls. now rewrite filter_app, length_app. Qed.

Lemma job_slept_app t1 t2 :
  Jobs.slept (t1 ++ t2) = Jobs.slept t1 ++ Jobs.slept t2.
Proof. apply flat_map_app. Qed.

(** One call of the scripted job that fails, under the wrapper. *)
Lemma retry_from_fault description attempts attempt todo label instance d
  e rest :
  Jobs.engine instance = Some d ->
  Jobs.retry_from _ description attempts (attempt :: todo)
    (Jobs.scripted_job label) instance (Some e :: rest) =
  if Jobs.is_OperationalError e then
    if Nat.eqb attempt (attempts - 1)
       || negb (dialect_is_mysql d && Jobs.has_retryable_code e)
    then (inl e, rest, [Jobs.EvJob label])
    else if Jobs.transient e then
      match Jobs.retry_from _ description attempts todo
              (Jobs.scripted_job label) instance rest with
      | (r, s2, t2) =>
          (r, s2,
           [Jobs.EvJob label; Jobs.EvLogInfo (Jobs.message_of e) description;
            Jobs.EvSleep (Jobs.db_retry_wait instance)] ++ t2)
      end
    else (inl Jobs.IndexError, rest, [Jobs.EvJob label])
  else (inl e, rest, [Jobs.EvJob label]).
Proof.
  intros He. cbn [Jobs.retry_from]. unfold ptry. cbn [Jobs.scripted_job].
  destruct e as [orig| | |]; cbn [Jobs.is_OperationalError]; try reflexivity.
  unfold pbind at 1.
  destruct (Nat.eqb attempt (attempts - 1)); cbn [orb].
  - unfold pret, praise. reflexivity.
  - unfold pbind at 1. rewrite (is_retryable_run _ instance d orig rest He).
    unfold pret at 1.
    destruct (dialect_is_mysql d
              && Jobs.has_retryable_code (Jobs.OperationalError orig))
      eqn:Eretry; cbn [negb app].
    + destruct (Jobs.transient (Jobs.OperationalError orig)) eqn:Etr.
      * unfold pbind at 1. rewrite (orig_args_1_transient _ orig rest Etr).
        unfold pbind at 1. unfold pemit at 1.
        unfold pbind at 1. unfold pemit at 1.
        destruct (Jobs.retry_from _ description attempts todo
                    (Jobs.scripted_job label) instance rest) as [[r s2] t2].
        reflexivity.
      * apply andb_prop in Eretry as [_ Hcode].
        destruct orig as [[|a [|m l]]|]; simpl in Hcode, Etr;
          try discriminate; try congruence.
        reflexivity.
    + unfold praise. reflexivity.
Qed.

Lemma retry_from_failures description attempts label instance d errs :
  forall first n rest,
  Jobs.engine instance = Some d ->
  first + n = attempts ->
  List.length errs < n ->
  Forall (fun e => dialect_is_mysql d && Jobs.transient e = true) errs ->
  exists pre,
    Jobs.calls pre = List.length errs /\
    Jobs.slept pre = repeat (Jobs.db_retry_wait instance) (List.length errs) /\
    Jobs.retry_from _ description attempts (seq first n)
      (Jobs.scripted_job label) instance (map Some errs ++ rest) =
    match Jobs.retry_from _ description attempts
            (seq (first + List.length errs) (n - List.length errs))
            (Jobs.scripted_job label) instance rest with
    | (r, s2, t2) => (r, s2, pre ++ t2)
    end.
Proof.
  induction errs as [|e errs IH]; intros first n rest He Hsum Hlen Hall.
  - exists []. simpl. repeat (split; [reflexivity|]).
    rewrite Nat.add_0_r, Nat.sub_0_r.
    now destruct (Jobs.retry_from _ description attempts (seq first n)
                    (Jobs.scripted_job label) instance rest) as [[r s2] t2].
  - apply Forall_cons_iff in Hall as [Htr Hall].
    apply andb_prop in Htr as [Hmy Htr].
    destruct n as [|n]; [simpl in Hlen; lia|]. cbn [seq map app].
    rewrite (retry_from_fault description attempts first (seq (S first) n)
               label instance d e (map Some errs ++ rest) He).
    rewrite (transient_is_operational e Htr), Htr, Hmy,
      (transient_has_code e Htr).
    assert (Hneq : Nat.eqb first (attempts - 1) = false).
    { apply Nat.eqb_neq. simpl in Hlen. lia. }
    rewrite Hneq. cbn [andb negb orb].
    destruct (IH (S first) n rest He) as (pre' & Hc & Hs & ->);
      [lia|simpl in Hlen; lia|exact Hall|].
    cbn [List.length].
    replace (S first + List.length errs) with (first + S (List.length errs))
      by lia.
    replace (S n - S (List.length errs)) with (n - List.length errs) by lia.
    destruct (Jobs.retry_from _ description attempts _
                (Jobs.scripted_job label) instance rest) as [[r s2] t2].
    exists ([Jobs.EvJob label; Jobs.EvLogInfo (Jobs.message_of e) description;
             Jobs.EvSleep (Jobs.db_retry_wait instance)] ++ pre').
    split; [rewrite job_calls_app, Hc; reflexivity|].
    split; [rewrite job_slept_app, Hs; reflexivity|].
    now rewrite <- app_assoc.
Qed.

(** X14: [database_job_retry_wrapper] runs the job again after every
    retryable error: when fewer than [attempts] runs fail with one and the
    next run returns, the wrapper returns, having run the job once more than
    it failed and slept [db_retry_wait] after each failure.  With
    [attempts] 0 it returns without running the job at all. *)
Theorem retry_wrapper_retries_transient_errors
  (description label : string) (attempts : nat) (instance : Jobs.Recorder)
  (d : SupportedDialect) (errs : list Jobs.exc)
  (rest : list (option Jobs.exc))
  (Hengine : Jobs.engine instance = Some d)
  (Herrs : Forall (fun e => dialect_is_mysql d && Jobs.transient e = true)
                  errs)
  (Hfew : List.length errs < attempts) :
  (exists t,
     Jobs.database_job_retry_wrapper _ description attempts
       (Jobs.scripted_job label) instance (map Some errs ++ None :: rest) =
     (inr tt, rest, t) /\
     Jobs.calls t = S (List.length errs) /\
     Jobs.slept t =
       repeat (Jobs.db_retry_wait instance) (List.length errs)) /\
  (forall (S : Type) (job : Jobs.Recorder -> Jobs.P S unit) (s : S),
     Jobs.database_job_retry_wrapper S description 0 job instance s =
     (inr tt, s, [])).
Proof.
  split; [|reflexivity].
  unfold Jobs.database_job_retry_wrapper.
  destruct (retry_from_failures description attempts label instance d errs
              0 attempts (None :: rest) Hengine eq_refl Hfew Herrs)
    as (pre & Hc & Hs & ->).
  destruct (attempts - List.length errs) as [|k] eqn:Ek; [exfalso; lia|].
  cbn [seq Jobs.retry_from]. unfold ptry. cbn [Jobs.scripted_job].
  exists (pre ++ [Jobs.EvJob label]). split; [reflexivity|].
  split; [rewrite job_calls_app, Hc; unfold Jobs.calls; simpl; lia|].
  rewrite job_slept_app, Hs. unfold Jobs.slept. simpl. now rewrite app_nil_r.
Qed.

Lemma retry_wrapper_retries_transient_errors_witness :
  let instance := Jobs.mkRecorder (Some MYSQL) (3 # 1) in
  let deadlock := Jobs.OperationalError
                    (Some [Jobs.AInt 1213; Jobs.AStr "Deadlock found"]) in
  Jobs.engine instance = Some MYSQL /\
  Forall (fun e => dialect_is_mysql MYSQL && Jobs.transient e = true)
         [deadlock; deadlock] /\
  List.length [deadlock; deadlock] < 5 /\
  exists t,
    Jobs.database_job_retry_wrapper _ "purge" 5 (Jobs.scripted_job "purge")
      instance [Some deadlock; Some deadlock; None] = (inr tt, [], t) /\
    Jobs.calls t = 3 /\ Jobs.slept t = [3 # 1; 3 # 1].
Proof.
  intros instance deadlock.
  assert (H1 : Jobs.engine instance = Some MYSQL) by reflexivity.
  assert (H2 : Forall (fun e => dialect_is_mysql MYSQL && Jobs.transient e
                                = true) [deadlock; deadlock])
    by (repeat constructor).
  assert (H3 : List.length [deadlock; deadlock] < 5) by (simpl; lia).
  repeat (split; [assumption|]).
  exact (proj1 (retry_wrapper_retries_transient_errors "purge" "purge" 5
                  instance MYSQL [deadlock; deadlock] [] H1 H2 H3)).
Defined.

(** X15: [database_job_retry_wrapper] gives up, re-raising what the job
    raised, at the first exception that is not a retryable
    [OperationalError] (wrong dialect, other code, other class) and at
    whatever the job raises in run number [attempts]; the job has then run
    once more than it failed before and the wrapper does not sleep after
    the last failure. *)
Theorem retry_wrapper_gives_up
  (description label : string) (attempts : nat) (instance : Jobs.Recorder)
  (d : SupportedDialect) (errs : list Jobs.exc) (e : Jobs.exc)
  (rest : list (option Jobs.exc))
  (Hengine : Jobs.engine instance = Some d)
  (Herrs : Forall (fun e => dialect_is_mysql d && Jobs.transient e = true)
                  errs)
  (Hfew : List.length errs < attempts)
  (Hlast : List.length errs = attempts - 1 \/
           dialect_is_mysql d && Jobs.has_retryable_code e = false) :
  exists t,
    Jobs.database_job_retry_wrapper _ description attempts
      (Jobs.scripted_job label) instance (map Some errs ++ Some e :: rest) =
    (inl e, rest, t) /\
    Jobs.calls t = S (List.length errs) /\
    Jobs.slept t = repeat (Jobs.db_retry_wait instance) (List.length errs).
Proof.
  unfold Jobs.database_job_retry_wrapper.
  destruct (retry_from_failures description attempts label instance d errs
              0 attempts (Some e :: rest) Hengine eq_refl Hfew Herrs)
    as (pre & Hc & Hs & ->).
  destruct (attempts - List.length errs) as [|k] eqn:Ek; [exfalso; lia|]. cbn [seq].
  rewrite (retry_from_fault description attempts (0 + List.length errs)
             (seq (S (0 + List.length errs)) k) label instance d e rest
             Hengine).
  assert (Hstop : Jobs.is_OperationalError e = true ->
                  Nat.eqb (0 + List.length errs) (attempts - 1)
                  || negb (dialect_is_mysql d && Jobs.has_retryable_code e)
                  = true).
  { intros _. destruct Hlast as [Hlast|Hlast].
    - assert (E : Nat.eqb (0 + List.length errs) (attempts - 1) = true)
        by (apply Nat.eqb_eq; lia).
      now rewrite E.
    - rewrite Hlast. apply orb_true_r. }
  exists (pre ++ [Jobs.EvJob label]).
  split.
  - destruct (Jobs.is_OperationalError e); [|reflexivity].
    now rewrite (Hstop eq_refl).
  - split; [rewrite job_calls_app, Hc; unfold Jobs.calls; simpl; lia|].
    rewrite job_slept_app, Hs. unfold Jobs.slept. simpl.
    now rewrite app_nil_r.
Qed.

Lemma retry_wrapper_gives_up_witness :
  let instance := Jobs.mkRecorder (Some MYSQL) (3 # 1) in
  let deadlock := Jobs.OperationalError
                    (Some [Jobs.AInt 1213; Jobs.AStr "Deadlock found"]) in
  let syntax := Jobs.OperationalError
                  (Some [Jobs.AInt 1064; Jobs.AStr "syntax error"]) in
  Jobs.engine instance = Some MYSQL /\
  Forall (fun e => dialect_is_mysql MYSQL && Jobs.transient e = true)
         [deadlock] /\
  List.length [deadlock] < 5 /\
  dialect_is_mysql MYSQL && Jobs.has_retryable_code syntax = false /\
  exists t,
    Jobs.database_job_retry_wrapper _ "purge" 5 (Jobs.scripted_job "purge")
      instance [Some deadlock; Some syntax; None] = (inl syntax, [None], t) /\
    Jobs.calls t = 2 /\ Jobs.slept t = [3 # 1].
Proof.
  intros instance deadlock syntax.
  assert (H1 : Jobs.engine instance = Some MYSQL) by reflexivity.
  assert (H2 : Forall (fun e => dialect_is_mysql MYSQL && Jobs.transient e
                                = true) [deadlock])
    by (repeat constructor).
  assert (H3 : List.length [deadlock] < 5) by (simpl; lia).
  assert (H4 : dialect_is_mysql MYSQL && Jobs.has_retryable_code syntax
               = false) by reflexivity.
  repeat (split; [assumption|]).
  exact (retry_wrapper_gives_up "purge" "purge" 5 instance MYSQL [deadlock]
           syntax [None] H1 H2 H3 (or_intror H4)).
Defined.

(** X16: a retryable error that carries its code but no message (one
    argument only) is not retried: while attempts are left, the wrapper
    fails on [err.orig.args[1]] with an [IndexError], which replaces the
    job's error, and neither logs nor sleeps. *)
Theorem retry_wrapper_needs_the_message
  (description label : string) (attempts : nat) (instance : Jobs.Recorder)
  (code : Jobs.arg) (rest : list (option Jobs.exc))
  (Hengine : Jobs.engine instance = Some MYSQL)
  (Hcode : Jobs.in_retryable code = true)
  (Hleft : 1 < attempts) :
  Jobs.database_job_retry_wrapper _ description attempts
    (Jobs.scripted_job label) instance
    (Some (Jobs.OperationalError (Some [code])) :: rest) =
  (inl Jobs.IndexError, rest, [Jobs.EvJob label]).
Proof.
  unfold Jobs.database_job_retry_wrapper.
  destruct attempts as [|[|k]]; [lia|lia|]. cbn [seq].
  rewrite (retry_from_fault description (S (S k)) 0 _ label instance MYSQL
             _ rest Hengine).
  cbn [Jobs.is_OperationalError Jobs.has_retryable_code Jobs.transient
       dialect_is_mysql andb]. rewrite Hcode. reflexivity.
Qed.

Lemma retry_wrapper_needs_the_message_witness :
  let instance := Jobs.mkRecorder (Some MYSQL) (3 # 1) in
  Jobs.engine instance = Some MYSQL /\
  Jobs.in_retryable (Jobs.AInt 1205) = true /\ 1 < 5 /\
  Jobs.database_job_retry_wrapper _ "purge" 5 (Jobs.scripted_job "purge")
    instance [Some (Jobs.OperationalError (Some [Jobs.AInt 1205]))] =
  (inl Jobs.IndexError, [], [Jobs.EvJob "purge"]).
Proof.
  intros instance.
  assert (H1 : Jobs.engine instance = Some MYSQL) by reflexivity.
  assert (H2 : Jobs.in_retryable (Jobs.AInt 1205) = true) by reflexivity.
  assert (H3 : 1 < 5) by lia.
  repeat (split; [assumption|]).
  exact (retry_wrapper_needs_the_message "purge" "purge" 5 instance
           (Jobs.AInt 1205) [] H1 H2 H3).
Defined.


(** ** The second Sunday *)

Lemma days_in_month_ge_28 y m :
  (1 <= m <= 12)%Z -> (28 <= Dates.days_in_month y m <= 31)%Z.
Proof.
  intros Hm. unfold Dates.days_in_month.
  assert (Hc : (m = 1 \/ m = 2 \/ m = 3 \/ m = 4 \/ m = 5 \/ m = 6 \/ m = 7
                \/ m = 8 \/ m = 9 \/ m = 10 \/ m = 11 \/ m = 12)%Z) by lia.
  destruct (Dates.is_leap y);
    repeat (destruct Hc as [->|Hc]; [simpl; lia|]); subst; simpl; lia.
Qed.

Lemma new_date_valid y m d :
  Dates.in_calendar y m -> (1 <= d <= 28)%Z ->
  Dates.new_date y m d = inr (Dates.mkDate y m d).
Proof.
  intros [[Hy1 Hy2] Hm] Hd. unfold Dates.new_date.
  pose proof (days_in_month_ge_28 y m Hm) as H28.
  unfold Dates.MINYEAR, Dates.MAXYEAR in *.
  replace (1 <=? y)%Z with true by (symmetry; apply Z.leb_le; lia).
  replace (y <=? 9999)%Z with true by (symmetry; apply Z.leb_le; lia).
  replace (1 <=? m)%Z with true by (symmetry; apply Z.leb_le; lia).
  replace (m <=? 12)%Z with true by (symmetry; apply Z.leb_le; lia).
  replace (1 <=? d)%Z with true by (symmetry; apply Z.leb_le; lia).
  replace (d <=? Dates.days_in_month y m)%Z with true
    by (symmetry; apply Z.leb_le; lia).
  reflexivity.
Qed.

Lemma new_date_inv y m d dt :
  Dates.new_date y m d = inr dt ->
  dt = Dates.mkDate y m d /\ Dates.in_calendar y m /\
  (1 <= d <= Dates.days_in_month y m)%Z.
Proof.
  unfold Dates.new_date, Dates.in_calendar.
  destruct (_ && _) eqn:E; [|discriminate]. intros [= <-].
  repeat (apply andb_prop in E as [E ?]).
  repeat match goal with H : (_ <=? _)%Z = true |- _ =>
    apply Z.leb_le in H end.
  repeat split; solve [reflexivity | assumption].
Qed.

(** Within a month the weekday advances with the day. *)
Lemma weekday_shift y m d k :
  Dates.weekday (Dates.mkDate y m (d + k)) =
  ((Dates.weekday (Dates.mkDate y m d) + k) mod 7)%Z.
Proof.
  unfold Dates.weekday, Dates.toordinal. cbn [Dates.year Dates.month Dates.day].
  generalize (Dates.days_before_year y + Dates.days_before_month y m)%Z.
  intros b. rewrite Zplus_mod_idemp_l. f_equal. lia.
Qed.

Lemma weekday_range dt : (0 <= Dates.weekday dt < 7)%Z.
Proof. unfold Dates.weekday. apply Z.mod_pos_bound. lia. Qed.

(** What [second_sunday] computes, in one formula. *)
Lemma second_sunday_run y m :
  Dates.in_calendar y m ->
  Dates.second_sunday y m =
  inr (Dates.mkDate y m (14 - Dates.weekday (Dates.mkDate y m 8))).
Proof.
  intros Hc. unfold Dates.second_sunday, Dates.FIRST_POSSIBLE_SUNDAY,
    Dates.SUNDAY_WEEKDAY, Dates.DAYS_IN_WEEK, Dates.replace_day.
  rewrite (new_date_valid y m 8 Hc) by lia.
  cbn [Dates.year Dates.month].
  pose proof (weekday_range (Dates.mkDate y m 8)) as Hw.
  destruct (Z.eqb_spec (Dates.weekday (Dates.mkDate y m 8)) 6) as [E|E].
  - rewrite E. reflexivity.
  - rewrite Z.mod_small by lia. rewrite (new_date_valid y m _ Hc) by lia.
    do 2 f_equal. lia.
Qed.

(** X17: for a year in 1..9999 and a month in 1..12, [second_sunday]
    returns a date of that month whose day is between 8 and 14 and which
    is a Sunday; the Sundays of the month are the days at a multiple of 7
    from it, so exactly one Sunday of the month comes before it. *)
Theorem second_sunday_is_the_second_sunday (y m : Z)
  (Hcal : Dates.in_calendar y m) :
  exists d,
    Dates.second_sunday y m = inr d /\
    Dates.year d = y /\ Dates.month d = m /\
    (8 <= Dates.day d <= 14)%Z /\
    Dates.weekday d = Dates.SUNDAY_WEEKDAY /\
    forall k dt,
      Dates.new_date y m k = inr dt ->
      (Dates.weekday dt = Dates.SUNDAY_WEEKDAY <->
       (k mod 7 = Dates.day d mod 7)%Z).
Proof.
  pose proof (weekday_range (Dates.mkDate y m 8)) as Hw.
  pose proof (weekday_shift y m 8) as Hshift.
  exists (Dates.mkDate y m (14 - Dates.weekday (Dates.mkDate y m 8))).
  split; [apply second_sunday_run, Hcal|].
  cbn [Dates.year Dates.month Dates.day]. unfold Dates.SUNDAY_WEEKDAY.
  do 2 (split; [reflexivity|]). split; [lia|]. split.
  - replace (14 - Dates.weekday (Dates.mkDate y m 8))%Z
      with (8 + (6 - Dates.weekday (Dates.mkDate y m 8)))%Z by lia.
    rewrite Hshift.
    replace (Dates.weekday (Dates.mkDate y m 8)
             + (6 - Dates.weekday (Dates.mkDate y m 8)))%Z with 6%Z by lia.
    reflexivity.
  - intros k dt Hdt. apply new_date_inv in Hdt as (-> & _ & _).
    replace k with (8 + (k - 8))%Z at 1 by lia. rewrite Hshift.
    revert Hw. generalize (Dates.weekday (Dates.mkDate y m 8)). intros w Hw.
    Z.div_mod_to_equations. lia.
Qed.

Lemma second_sunday_is_the_second_sunday_witness :
  Dates.in_calendar 2023 3 /\
  exists d,
    Dates.second_sunday 2023 3 = inr d /\
    Dates.year d = 2023%Z /\ Dates.month d = 3%Z /\
    (8 <= Dates.day d <= 14)%Z /\
    Dates.weekday d = Dates.SUNDAY_WEEKDAY /\
    forall k dt,
      Dates.new_date 2023 3 k = inr dt ->
      (Dates.weekday dt = Dates.SUNDAY_WEEKDAY <->
       (k mod 7 = Dates.day d mod 7)%Z).
Proof.
  assert (H : Dates.in_calendar 2023 3)
    by (unfold Dates.in_calendar, Dates.MINYEAR, Dates.MAXYEAR; lia).
  split; [exact H|].
  exact (second_sunday_is_the_second_sunday 2023 3 H).
Defined.

(** X18: [is_second_sunday] of a date of the calendar never raises, and
    says yes exactly for the Sundays whose day is between 8 and 14. *)
Theorem is_second_sunday_iff (y m k : Z) (dt : Dates.date)
  (Hdt : Dates.new_date y m k = inr dt) :
  Dates.is_second_sunday dt =
  inr ((Dates.weekday dt =? Dates.SUNDAY_WEEKDAY)%Z
       && (8 <=? Dates.day dt)%Z && (Dates.day dt <=? 14)%Z).
Proof.
  apply new_date_inv in Hdt as (-> & Hcal & Hk).
  unfold Dates.is_second_sunday. cbn [Dates.year Dates.month Dates.day].
  rewrite (second_sunday_run y m Hcal). cbn [Dates.day]. f_equal.
  pose proof (weekday_range (Dates.mkDate y m 8)) as Hw.
  pose proof (weekday_shift y m 8 (k - 8)) as Hshift.
  replace (8 + (k - 8))%Z with k in Hshift by lia. rewrite Hshift.
  unfold Dates.SUNDAY_WEEKDAY.
  revert Hw. generalize (Dates.weekday (Dates.mkDate y m 8)). intros w Hw.
  destruct (Z.eqb_spec (14 - w) k) as [E|E].
  - subst k. symmetry.
    replace (w + (14 - w - 8))%Z with 6%Z by lia.
    change (6 mod 7)%Z with 6%Z. rewrite Z.eqb_refl.
    replace (8 <=? 14 - w)%Z with true by (symmetry; apply Z.leb_le; lia).
    replace (14 - w <=? 14)%Z with true by (symmetry; apply Z.leb_le; lia).
    reflexivity.
  - symmetry. apply andb_false_iff.
    destruct (Z.leb_spec 8 k) as [H8|H8];
      [|left; apply andb_false_iff; right; reflexivity].
    destruct (Z.leb_spec k 14) as [H14|H14]; [|right; reflexivity].
    left. apply andb_false_iff. left. apply Z.eqb_neq.
    intros Hmod. apply E. revert Hmod. Z.div_mod_to_equations. lia.
Qed.

Lemma is_second_sunday_iff_witness :
  Dates.new_date 2024 2 11 = inr (Dates.mkDate 2024 2 11) /\
  Dates.is_second_sunday (Dates.mkDate 2024 2 11) = inr true.
Proof.
  assert (H : Dates.new_date 2024 2 11 = inr (Dates.mkDate 2024 2 11))
    by reflexivity.
  split; [exact H|].
  exact (is_second_sunday_iff 2024 2 11 (Dates.mkDate 2024 2 11) H).
Defined.



(** ** [session_scope] *)

Ltac scope_simpl :=
  cbn [negb andb fst snd Scope.transaction Scope.commit_fault
       Scope.rollback_fault Scope.close_fault].

Ltac scope_cases Hbody :=
  unfold Scope.session_scope, Scope.get_session, Scope.get_transaction,
    Scope.commit, Scope.rollback, Scope.close, Scope.method,
    plocal, pfinally, ptry, pbind, plift, pget_local, pset_local, pemit,
    pret, praise, pget; cbn [fst snd];
  rewrite Hbody; cbn [fst snd].

(** X20: [session_scope] with a session (given, or got from [hass]) closes
    it exactly once, as the last thing it does, whatever the block, the
    commit or the rollback did; it commits exactly when the block returned
    in a transaction and the scope is not read only; it rolls back exactly
    when that commit raised an [Exception]; an exception of [close]
    replaces any other outcome.  Without a session and without [hass] it
    raises [RuntimeError] before the block runs. *)
Theorem session_scope_closes_the_session (A : Type)
  (hass : option Scope.HomeAssistant) (session : option Scope.SessionRef)
  (exception_filter : option (Scope.exc -> bool)) (read_only : bool)
  (body : Scope.SessionRef -> Scope.P A)
  (s s0 : Scope.Session) (r0 : Scope.exc + A) (t0 : list Scope.event)
  (Hbody : body Scope.TheSession s = (r0, s0, t0)) :
  (session <> None \/ hass <> None ->
   exists r t,
     Scope.session_scope hass session exception_filter read_only body s =
       (r, s0, Scope.before_block hass session ++ t0 ++ t) /\
     Scope.closes t = 1 /\ last t Scope.EvCommit = Scope.EvClose /\
     Scope.commits t = (if scope_commit_due r0 s0 read_only then 1 else 0) /\
     Scope.rollbacks t =
       (if scope_commit_due r0 s0 read_only then
          match Scope.commit_fault s0 with
          | Some e => if Scope.is_Exception e then 1 else 0
          | None => 0
          end
        else 0) /\
     (forall e, Scope.close_fault s0 = Some e -> r = inl e)) /\
  Scope.session_scope None None exception_filter read_only body s =
    (inl (Scope.RuntimeError "Session required"), s, []).
Proof.
  split; [|reflexivity].
  intros Hsome.
  assert (Hpre :
    Scope.session_scope hass session exception_filter read_only body s =
    match Scope.session_scope None (Some Scope.TheSession) exception_filter
            read_only body s with
    | (r, s1, t) => (r, s1, Scope.before_block hass session ++ t)
    end).
  { destruct session as [[]|], hass as [[]|];
      try (exfalso; destruct Hsome as [H|H]; now apply H);
      scope_cases Hbody;
      destruct s0 as [tx cf rf clf]; cbn [Scope.transaction
        Scope.commit_fault Scope.rollback_fault Scope.close_fault];
      destruct r0 as [e0|a]; cbn [Scope.before_block app];
      repeat match goal with
      | |- context [if ?b then _ else _] => destruct b eqn:?
      | |- context [match ?o with Some _ => _ | None => _ end] =>
          destruct o eqn:?
      end; reflexivity. }
  rewrite Hpre. clear Hpre Hsome.
  scope_cases Hbody.
  destruct s0 as [tx cf rf clf]; cbn [Scope.transaction
    Scope.commit_fault Scope.rollback_fault Scope.close_fault].
  unfold scope_commit_due. cbn [Scope.transaction Scope.commit_fault
    Scope.close_fault].
  destruct r0 as [e0|a]; destruct exception_filter as [f|];
    repeat (scope_simpl;
            match goal with
            | |- context [if ?b then _ else _] => destruct b eqn:?
            | |- context [match ?o with Some _ => _ | None => _ end] =>
                destruct o eqn:?
            end);
    scope_simpl; rewrite <- ?app_assoc; cbn [app];
    (eexists; eexists; split; [reflexivity|]);
    (split; [reflexivity|]); (split; [reflexivity|]);
    (split; [reflexivity|]); (split; [reflexivity|]);
    intros e' [= <-]; reflexivity.
Qed.

Lemma session_scope_closes_the_session_witness :
  let s := Scope.mkSession true (Some (Scope.Error "IntegrityError")) None
             None in
  let body := fun _ : Scope.SessionRef =>
                (pemit (Scope.EvBlock "add") ~;; pret 7%Z) : Scope.P Z in
  body Scope.TheSession s = (inr 7%Z, s, [Scope.EvBlock "add"]) /\
  exists r t,
    Scope.session_scope (Some Scope.Hass) None None false body s =
      (r, s, [Scope.EvGetSession] ++ [Scope.EvBlock "add"] ++ t) /\
    Scope.closes t = 1 /\ Scope.commits t = 1 /\ Scope.rollbacks t = 1.
Proof.
  intros s body.
  assert (Hbody : body Scope.TheSession s
                  = (inr 7%Z, s, [Scope.EvBlock "add"])) by reflexivity.
  split; [exact Hbody|].
  destruct (proj1 (session_scope_closes_the_session Z (Some Scope.Hass) None
                     None false body s s (inr 7%Z) [Scope.EvBlock "add"]
                     Hbody))
    as (r & t & Hrun & Hclose & _ & Hcommit & Hroll & _).
  - right. discriminate.
  - exists r, t. repeat split; assumption.
Defined.

Lemma scope_logged_app t1 t2 :
  Scope.logged (t1 ++ t2) = Scope.logged t1 ++ Scope.logged t2.
Proof. apply flat_map_app. Qed.

(** X21: what leaves [session_scope] (with a session).  The block's value
    comes out exactly when nothing failed: neither the block, nor a due
    commit, nor [close].  An exception is suppressed, so that the program
    goes on after the block, exactly when it is an [Exception] of the block
    or of the commit, [exception_filter] is given and accepts it, and
    neither the rollback (after a failed commit) nor [close] raised.  An
    exception that comes out is that of [close], of the rollback, or the
    failure itself.  The failure is logged if and only if it is an
    [Exception]. *)
Theorem session_scope_outcome (A : Type)
  (hass : option Scope.HomeAssistant) (session : option Scope.SessionRef)
  (exception_filter : option (Scope.exc -> bool)) (read_only : bool)
  (body : Scope.SessionRef -> Scope.P A)
  (s s0 s' : Scope.Session) (r0 : Scope.exc + A) (r : Scope.exc + option A)
  (t0 t : list Scope.event)
  (Hsome : session <> None \/ hass <> None)
  (Hbody : body Scope.TheSession s = (r0, s0, t0))
  (Hrun : Scope.session_scope hass session exception_filter read_only body s
          = (r, s', t)) :
  (forall a,
     r = inr (Some a) <->
     r0 = inr a /\ scope_failure r0 s0 read_only = None /\
     Scope.close_fault s0 = None) /\
  (r = inr None <->
   exists e,
     scope_failure r0 s0 read_only = Some e /\
     Scope.is_Exception e = true /\
     Scope.accepts exception_filter e = true /\
     (scope_commit_due r0 s0 read_only = true ->
      Scope.rollback_fault s0 = None) /\
     Scope.close_fault s0 = None) /\
  (forall e,
     r = inl e ->
     Scope.close_fault s0 = Some e \/
     (scope_commit_due r0 s0 read_only = true /\
      Scope.rollback_fault s0 = Some e) \/
     scope_failure r0 s0 read_only = Some e) /\
  Scope.logged t =
    Scope.logged t0 ++
    match scope_failure r0 s0 read_only with
    | Some e => if Scope.is_Exception e then [e] else []
    | None => []
    end.
Proof.
  revert Hrun.
  destruct session as [[]|], hass as [[]|];
    try (exfalso; destruct Hsome as [H|H]; now apply H);
    scope_cases Hbody;
    destruct s0 as [tx cf rf clf]; unfold scope_failure, scope_commit_due;
    destruct r0 as [e0|a]; destruct exception_filter as [f|];
    repeat (scope_simpl;
            match goal with
            | |- context [if ?b then _ else _] => destruct b eqn:?
            | |- context [match ?o with Some _ => _ | None => _ end] =>
                destruct o eqn:?
            end);
    scope_simpl; intros [= <- <- <-].
  all: repeat match goal with
       | H : negb _ = true |- _ => apply negb_true_iff in H
       | H : negb _ = false |- _ => apply negb_false_iff in H
       end.
  all: cbn [Scope.accepts].
  all: split;
    [intros a'; split;
       [intros [= <-]; repeat split; congruence
       |intros (Ha & Hf & Hc); congruence]|].
  all: split;
    [split;
       [intros Hr; try discriminate Hr;
        eexists; repeat split; try reflexivity; try eassumption;
        try (intros; reflexivity); congruence
       |intros (e' & Hf & He & Hacc & Hrb & Hc);
        try specialize (Hrb eq_refl); congruence]|].
  all: (split; [intros e' [= <-]; auto|]).
  all: unfold Scope.logged;
    repeat (rewrite flat_map_app || cbn [flat_map app]);
    rewrite ?app_nil_r; reflexivity.
Qed.

Lemma session_scope_outcome_witness :
  let s := Scope.mkSession false None None None in
  let timeout := Scope.Error "TimeoutError" in
  let body := fun _ : Scope.SessionRef =>
                (pemit (Scope.EvBlock "query") ~;; praise timeout)
                : Scope.P Z in
  let exception_filter := Some (fun e => Scope.is_Exception e) in
  let t := [Scope.EvBlock "query"; Scope.EvLogException timeout;
            Scope.EvClose] in
  (Some Scope.TheSession <> None \/ @None Scope.HomeAssistant <> None) /\
  body Scope.TheSession s = (inl timeout, s, [Scope.EvBlock "query"]) /\
  Scope.session_scope None (Some Scope.TheSession) exception_filter true
    body s = (inr None, s, t) /\
  Scope.logged t = [timeout].
Proof.
  intros s timeout body exception_filter t.
  assert (H1 : Some Scope.TheSession <> None
               \/ @None Scope.HomeAssistant <> None) by (left; discriminate).
  assert (H2 : body Scope.TheSession s
               = (inl timeout, s, [Scope.EvBlock "query"])) by reflexivity.
  assert (H3 : Scope.session_scope None (Some Scope.TheSession)
                 exception_filter true body s = (inr None, s, t))
    by reflexivity.
  repeat (split; [assumption|]).
  exact (proj2 (proj2 (proj2 (session_scope_outcome Z None
           (Some Scope.TheSession) exception_filter true body s s s
           (inl timeout) (inr None) [Scope.EvBlock "query"] t H1 H2 H3)))).
Defined.


(** ** The write lock and the periodic cleanups *)

Lemma conn_count_app p t1 t2 :
  Connections.count p (t1 ++ t2)
  = Connections.count p t1 + Connections.count p t2.
Proof. unfold Connections.count. now rewrite filter_app, length_app. Qed.

Ltac conn_unfold :=
  unfold Connections.write_lock_db_sqlite, Connections.periodic_db_cleanups,
    Connections.with_connection, Connections.connect, Connections.execute,
    Connections.close, Connections.call, pfinally, pbind, pemit, pret,
    praise.

(** X22: once [write_lock_db_sqlite] has taken the lock (the connection,
    the checkpoint and [BEGIN IMMEDIATE] succeeded), the block runs, and
    whether it returns or raises, [END;] is executed after it and the
    connection is then closed; the outcome is that of the block, unless
    [END;] itself raises. *)
Theorem write_lock_is_released (A : Type) (instance : Jobs.Recorder)
  (d : SupportedDialect) (block : Connections.P A)
  (rest s0 : list (option Connections.exc))
  (r0 : Connections.exc + A) (t0 : list Connections.event)
  (Hengine : Jobs.engine instance = Some d)
  (Hblock : block rest = (r0, s0, t0)) :
  Connections.write_lock_db_sqlite instance block
    (None :: None :: None :: rest) =
  (Connections.unlocked r0 s0, tl s0,
   [Connections.EvConnect;
    Connections.EvExecute "PRAGMA wal_checkpoint(TRUNCATE)";
    Connections.EvLogDebug "Lock database";
    Connections.EvExecute "BEGIN IMMEDIATE;"]
   ++ t0 ++
   [Connections.EvLogDebug "Unlock database";
    Connections.EvExecute "END;"; Connections.EvClose]).
Proof.
  conn_unfold. rewrite Hengine, Hblock.
  destruct s0 as [|[e|] s0]; cbn [Connections.unlocked tl app];
    rewrite <- ?app_assoc; reflexivity.
Qed.

Lemma write_lock_is_released_witness :
  let instance := Jobs.mkRecorder (Some SQLITE) (1 # 10) in
  let block := (pemit (Connections.EvBlock "backup") ~;;
                praise (Connections.Raised "OSError"))
               : Connections.P unit in
  Jobs.engine instance = Some SQLITE /\
  block [] = (inl (Connections.Raised "OSError"), [],
              [Connections.EvBlock "backup"]) /\
  Connections.write_lock_db_sqlite instance block [None; None; None] =
  (inl (Connections.Raised "OSError"), [],
   [Connections.EvConnect;
    Connections.EvExecute "PRAGMA wal_checkpoint(TRUNCATE)";
    Connections.EvLogDebug "Lock database";
    Connections.EvExecute "BEGIN IMMEDIATE;";
    Connections.EvBlock "backup";
    Connections.EvLogDebug "Unlock database";
    Connections.EvExecute "END;"; Connections.EvClose]).
Proof.
  intros instance block.
  assert (H1 : Jobs.engine instance = Some SQLITE) by reflexivity.
  assert (H2 : block [] = (inl (Connections.Raised "OSError"), [],
                           [Connections.EvBlock "backup"])) by reflexivity.
  repeat (split; [assumption|]).
  exact (write_lock_is_released unit instance SQLITE block [] []
           (inl (Connections.Raised "OSError"))
           [Connections.EvBlock "backup"] H1 H2).
Defined.

(** X23: when the lock cannot be taken (the connection, the checkpoint or
    [BEGIN IMMEDIATE] raises), [write_lock_db_sqlite] raises that
    exception without running the block and without executing [END;]; a
    connection that was made is closed.  Without an engine it raises
    [AssertionError] and does nothing. *)
Theorem write_lock_not_taken (A : Type) (instance : Jobs.Recorder)
  (d : SupportedDialect) (before : nat) (e : Connections.exc)
  (rest : list (option Connections.exc))
  (Hengine : Jobs.engine instance = Some d)
  (Hbefore : before < 3) :
  (exists t,
     (forall block : Connections.P A,
        Connections.write_lock_db_sqlite instance block
          (repeat None before ++ Some e :: rest) = (inl e, rest, t)) /\
     ~ In "END;" (Connections.executed t) /\
     Connections.closes t = Connections.connects t /\
     Connections.connects t = Nat.min before 1) /\
  (forall (block : Connections.P A) script,
     Connections.write_lock_db_sqlite
       (Jobs.mkRecorder None (Jobs.db_retry_wait instance)) block script =
     (inl Connections.AssertionError, script, [])).
Proof.
  split; [|reflexivity].
  destruct before as [|[|[|before]]]; [| | |lia]; cbn [repeat app];
    eexists; (split; [intros block; conn_unfold; rewrite Hengine;
                      reflexivity|]);
    (split; [cbn; intuition discriminate|]); split; reflexivity.
Qed.

Lemma write_lock_not_taken_witness :
  let instance := Jobs.mkRecorder (Some SQLITE) (1 # 10) in
  let busy := Connections.Raised "OperationalError" in
  Jobs.engine instance = Some SQLITE /\ 2 < 3 /\
  exists t,
    (forall block : Connections.P unit,
       Connections.write_lock_db_sqlite instance block
         [None; None; Some busy; None] = (inl busy, [None], t)) /\
    ~ In "END;" (Connections.executed t) /\
    Connections.closes t = Connections.connects t /\
    Connections.connects t = 1.
Proof.
  intros instance busy.
  assert (H1 : Jobs.engine instance = Some SQLITE) by reflexivity.
  assert (H2 : 2 < 3) by lia.
  repeat (split; [assumption|]).
  exact (proj1 (write_lock_not_taken unit instance SQLITE 2 busy [None]
                  H1 H2)).
Defined.

(** X24: [periodic_db_cleanups] touches the database on SQLite only; there
    it closes the connection it made whatever the statements meet, and
    [PRAGMA OPTIMIZE;] is executed only after a checkpoint that succeeded.
    On the other dialects it does nothing at all. *)
Theorem periodic_db_cleanups_is_for_sqlite (instance : Jobs.Recorder)
  (d : SupportedDialect) (script : list (option Connections.exc))
  (Hengine : Jobs.engine instance = Some d) :
  let run := Connections.periodic_db_cleanups instance script in
  let t := Connections.trace_of run in
  (d <> SQLITE -> run = (inr tt, script, [])) /\
  Connections.closes t = Connections.connects t /\
  (In "PRAGMA OPTIMIZE;" (Connections.executed t) <->
   d = SQLITE /\ nth 0 script None = None /\ nth 1 script None = None) /\
  (forall e, fst (fst run) = inl e -> In (Some e) (firstn 3 script)).
Proof.
  intros run t. subst t run. conn_unfold. rewrite Hengine.
  destruct d; cbn [Connections.trace_of snd fst].
  1,2: split; [reflexivity|]; split; [reflexivity|]; split;
    [split; [intros []|intros [? _]; discriminate]|intros e [=]].
  split; [congruence|].
  destruct script as [|[e1|] [|[e2|] [|[e3|] script]]];
    cbn [snd fst Connections.executed flat_map app nth firstn];
    (split; [reflexivity|]);
    (split; [split; [intros H; repeat destruct H as [H|H];
                     try discriminate H; try contradiction;
                     repeat split; reflexivity
                    |intros (_ & H1 & H2); try discriminate H1;
                     try discriminate H2; cbn; auto]
            |intros e [=]; subst; cbn; auto]).
Qed.

Lemma periodic_db_cleanups_is_for_sqlite_witness :
  let instance := Jobs.mkRecorder (Some SQLITE) (1 # 10) in
  let locked := Connections.Raised "OperationalError" in
  let run := Connections.periodic_db_cleanups instance
               [None; Some locked] in
  Jobs.engine instance = Some SQLITE /\
  Connections.closes (Connections.trace_of run)
  = Connections.connects (Connections.trace_of run).
Proof.
  intros instance locked run.
  assert (H1 : Jobs.engine instance = Some SQLITE) by reflexivity.
  split; [exact H1|].
  exact (proj1 (proj2 (periodic_db_cleanups_is_for_sqlite instance SQLITE
                         [None; Some locked] H1))).
Defined.


(** ** The database files *)

Lemma str_append_assoc (a b c : string) :
  String.append (String.append a b) c = String.append a (String.append b c).
Proof. induction a as [|x a IH]; simpl; [reflexivity|now rewrite IH]. Qed.

Lemma str_append_inj_l (a b c : string) :
  String.append a b = String.append a c -> b = c.
Proof.
  induction a as [|x a IH]; simpl; [auto|]. intros [= H]. now apply IH.
Qed.

Lemma str_length_append (a b : string) :
  String.length (String.append a b) = String.length a + String.length b.
Proof. induction a as [|x a IH]; simpl; [reflexivity|now rewrite IH]. Qed.

Lemma prefix_append (p s : string) : String.prefix p (String.append p s) = true.
Proof.
  induction p as [|x p IH]; simpl; [now destruct s|].
  destruct (Ascii.ascii_dec x x) as [_|N]; [exact IH|now elim N].
Qed.

Lemma slice_from_append (p s : string) :
  Files.slice_from (String.length p) (String.append p s) = s.
Proof. induction p as [|x p IH]; simpl; [reflexivity|exact IH]. Qed.

Lemma prefix_slice (p s : string) :
  String.prefix p s = true ->
  s = String.append p (Files.slice_from (String.length p) s).
Proof.
  revert s. induction p as [|x p IH]; intros s; [reflexivity|].
  destruct s as [|y s]; simpl; [discriminate|].
  destruct (Ascii.ascii_dec x y) as [->|_]; [|discriminate].
  intros H. f_equal. now apply IH.
Qed.

(** X25: [dburl_to_path] undoes the prefixing of a path with
    [SQLITE_URL_PREFIX], and leaves a url that does not start with the
    prefix as it is; in both cases the url is the path, with or without the
    prefix before it, and never longer than it was. *)
Theorem dburl_to_path_round_trip (SQLITE_URL_PREFIX : string) :
  (forall path,
     Files.dburl_to_path SQLITE_URL_PREFIX
       (String.append SQLITE_URL_PREFIX path) = path) /\
  (forall dburl,
     String.prefix SQLITE_URL_PREFIX dburl = false ->
     Files.dburl_to_path SQLITE_URL_PREFIX dburl = dburl) /\
  (forall dburl,
     let path := Files.dburl_to_path SQLITE_URL_PREFIX dburl in
     (dburl = String.append SQLITE_URL_PREFIX path \/ dburl = path) /\
     String.length path <= String.length dburl).
Proof.
  unfold Files.dburl_to_path, Files.removeprefix. split; [|split].
  - intros path. now rewrite prefix_append, slice_from_append.
  - intros dburl ->. reflexivity.
  - intros dburl.
    destruct (String.prefix SQLITE_URL_PREFIX dburl) eqn:E; cbv zeta.
    + pose proof (prefix_slice _ _ E) as H. split; [left; exact H|].
      rewrite H at 2. rewrite str_length_append. lia.
    + split; [now right|lia].
Qed.

Lemma flat_map_same_in {A B} (f g : A -> list B) (l : list A) :
  (forall a, In a l -> f a = g a) -> flat_map f l = flat_map g l.
Proof.
  induction l as [|a l IH]; intros H; [reflexivity|]. simpl.
  rewrite (H a) by now left. f_equal. apply IH. intros b Hb. apply H.
  now right.
Qed.

Section FilesFacts.
Variable content : Type.
Variable SQLITE_URL_PREFIX : string.
Variable open_and_check : string -> Files.P content unit.

Local Abbreviation move_loop dbfile cp ps :=
  (pfor_each ps
     (fun postfix =>
        found <~ Files.os_path_exists content (String.append dbfile postfix) ;;
        if negb found then pret tt
        else Files.os_rename content (String.append dbfile postfix)
               (String.append (String.append dbfile postfix) cp))).

Lemma src_not_dst dbfile cp p q :
  String.length p < String.length cp ->
  String.append dbfile p <> String.append (String.append dbfile q) cp.
Proof.
  intros Hlen H. rewrite str_append_assoc in H.
  apply str_append_inj_l in H. apply (f_equal String.length) in H.
  rewrite str_length_append in H. lia.
Qed.

Lemma dst_inj dbfile cp p q :
  String.append (String.append dbfile p) cp
  = String.append (String.append dbfile q) cp -> p = q.
Proof.
  rewrite !str_append_assoc. intros H. apply str_append_inj_l in H.
  revert q H. induction p as [|x p IH]; intros [|y q] H; simpl in H.
  - reflexivity.
  - exfalso. apply (f_equal String.length) in H. simpl in H.
    rewrite str_length_append in H. lia.
  - exfalso. apply (f_equal String.length) in H. simpl in H.
    rewrite str_length_append in H. lia.
  - injection H as -> H. f_equal. now apply IH.
Qed.

Lemma os_path_exists_run path (d : Files.Disk content) :
  Files.os_path_exists content path d =
  (inr (match Files.files d path with Some _ => true | None => false end),
   d, []).
Proof. reflexivity. Qed.

Lemma os_rename_run src dst (d : Files.Disk content) :
  Files.os_rename content src dst d =
  (inr tt,
   Files.mkDisk
     (fun p => if String.eqb p dst then Files.files d src
               else if String.eqb p src then None else Files.files d p)
     (Files.isotime d),
   [Files.EvRename src dst]).
Proof. reflexivity. Qed.

Lemma move_loop_run dbfile cp ps :
  NoDup ps ->
  (forall p, In p ps -> String.length p < String.length cp) ->
  forall d,
  exists d' t,
    move_loop dbfile cp ps d = (inr tt, d', t) /\
    Files.isotime d' = Files.isotime d /\
    (forall p, In p ps -> Files.files d' (String.append dbfile p) = None) /\
    (forall p c, In p ps ->
       Files.files d (String.append dbfile p) = Some c ->
       Files.files d' (String.append (String.append dbfile p) cp) = Some c) /\
    (forall path,
       (forall p, In p ps ->
          path <> String.append dbfile p /\
          path <> String.append (String.append dbfile p) cp) ->
       Files.files d' path = Files.files d path) /\
    Files.renames t =
      flat_map (fun p =>
                  match Files.files d (String.append dbfile p) with
                  | Some _ => [(String.append dbfile p,
                                String.append (String.append dbfile p) cp)]
                  | None => []
                  end) ps.
Proof.
  induction ps as [|p ps IH]; intros Hnd Hlen d.
  - exists d, []. split; [reflexivity|]. split; [reflexivity|].
    split; [intros ? []|]. split; [intros ? ? []|].
    split; [reflexivity|reflexivity].
  - apply NoDup_cons_iff in Hnd as [Hnotin Hnd].
    assert (Hlen' : forall q, In q ps ->
                      String.length q < String.length cp)
      by (intros q Hq; apply Hlen; now right).
    assert (Hp : String.length p < String.length cp)
      by (apply Hlen; now left).
    cbn [pfor_each]. set (rest := pfor_each ps _).
    unfold pbind at 1. unfold pbind at 1. rewrite os_path_exists_run.
    set (src := String.append dbfile p).
    set (dst := String.append src cp).
    assert (Hsd : src <> dst).
    { unfold dst, src. apply src_not_dst, Hp. }
    assert (Hsrc_other : forall q, In q ps -> String.append dbfile q <> src).
    { intros q Hq H. apply str_append_inj_l in H. congruence. }
    assert (Hdst_other : forall q, In q ps ->
              String.append (String.append dbfile q) cp <> dst).
    { intros q Hq H. apply dst_inj in H. congruence. }
    destruct (Files.files d src) as [c0|] eqn:Esrc; cbn [negb app].
    + rewrite os_rename_run. cbn [app].
      match goal with |- context [rest ?x] => set (d1 := x) end.
      destruct (IH Hnd Hlen' d1) as (d' & t & Hrun & Hiso & Hgone & Hmoved
                                     & Hother & Hren).
      unfold rest. rewrite Hrun. exists d', (Files.EvRename src dst :: t).
      split; [reflexivity|]. split; [exact Hiso|].
      assert (Hd1_src : Files.files d1 src = None).
      { unfold d1. cbn [Files.files].
        destruct (String.eqb_spec src dst); [contradiction|].
        now rewrite String.eqb_refl. }
      assert (Hd1_dst : Files.files d1 dst = Some c0).
      { unfold d1. cbn [Files.files]. now rewrite String.eqb_refl. }
      assert (Hd1_other : forall path, path <> src -> path <> dst ->
                Files.files d1 path = Files.files d path).
      { intros path H1 H2. unfold d1. cbn [Files.files].
        destruct (String.eqb_spec path dst); [contradiction|].
        destruct (String.eqb_spec path src); [contradiction|]. reflexivity. }
      assert (Hkeep : forall path,
                (forall q, In q ps ->
                   path <> String.append dbfile q /\
                   path <> String.append (String.append dbfile q) cp) ->
                Files.files d' path = Files.files d1 path)
        by exact Hother.
      repeat split.
      * intros q [<-|Hq]; [|now apply Hgone]. fold src.
        rewrite Hkeep; [exact Hd1_src|].
        intros q Hq. split; [intros H; now apply (Hsrc_other q Hq)|].
        apply src_not_dst, Hp.
      * intros q c [<-|Hq] Hc.
        -- fold src. fold dst. fold src in Hc. rewrite Hkeep.
           ++ congruence.
           ++ intros q Hq. split.
              ** intros H. symmetry in H. revert H.
                 apply src_not_dst, Hlen', Hq.
              ** intros H. now apply (Hdst_other q Hq).
        -- apply Hmoved; [exact Hq|]. rewrite Hd1_other; [exact Hc| |].
           ++ now apply Hsrc_other.
           ++ apply src_not_dst, Hlen', Hq.
      * intros path Hpath. rewrite Hkeep.
        -- apply Hd1_other; apply (Hpath p); now left.
        -- intros q Hq. apply Hpath. now right.
      * cbn [flat_map Files.renames app]. fold src. rewrite Esrc. fold dst.
        cbn [app]. f_equal. change (flat_map _ t) with (Files.renames t).
        rewrite Hren. apply flat_map_same_in. intros q Hq.
        rewrite Hd1_other; [reflexivity| |].
        ++ now apply Hsrc_other.
        ++ apply src_not_dst, Hlen', Hq.
    + unfold pret at 1.
      destruct (IH Hnd Hlen' d) as (d' & t & Hrun & Hiso & Hgone & Hmoved
                                    & Hother & Hren).
      unfold rest. rewrite Hrun. exists d', t. split; [reflexivity|].
      split; [exact Hiso|]. repeat split.
      * intros q [<-|Hq]; [|now apply Hgone]. fold src.
        rewrite Hother; [exact Esrc|].
        intros q Hq. split; [intros H; now apply (Hsrc_other q Hq)|].
        apply src_not_dst, Hp.
      * intros q c [<-|Hq] Hc; [fold src in Hc; congruence|].
        now apply Hmoved.
      * intros path Hpath. apply Hother. intros q Hq. apply Hpath.
        now right.
      * cbn [flat_map]. fold src. rewrite Esrc. exact Hren.
Qed.

Lemma str_append_empty_r (a : string) : String.append a "" = a.
Proof. induction a as [|x a IH]; simpl; [reflexivity|now rewrite IH]. Qed.

Lemma postfixes_short iso p :
  In p Files.SQLITE3_POSTFIXES ->
  String.length p < String.length (String.append ".corrupt." iso).
Proof.
  rewrite str_length_append.
  intros [<-|[<-|[<-|[]]]]; simpl; lia.
Qed.

Lemma postfixes_nodup : NoDup Files.SQLITE3_POSTFIXES.
Proof.
  unfold Files.SQLITE3_POSTFIXES.
  repeat constructor; simpl; intuition discriminate.
Qed.

Lemma move_away_moves_run (dbfile : string) (d : Files.Disk content) :
  exists d' t,
    Files.move_away_broken_database content dbfile d = (inr tt, d', t) /\
    forall postfix, In postfix Files.SQLITE3_POSTFIXES ->
      Files.files d' (String.append dbfile postfix) = None.
Proof.
  unfold Files.move_away_broken_database, Files.utcnow_isoformat.
  unfold pbind at 1. unfold pbind at 1. unfold pget at 1, pret at 1.
  unfold pbind at 1. unfold pemit at 1.
  destruct (move_loop_run dbfile (String.append ".corrupt." (Files.isotime d))
              Files.SQLITE3_POSTFIXES postfixes_nodup
              (postfixes_short (Files.isotime d)) d)
    as (d' & t & Hrun & _ & Hgone & _).
  rewrite Hrun. eexists d', _. split; [reflexivity|exact Hgone].
Qed.

(** X26: [move_away_broken_database] does not raise, and afterwards none
    of the three files of the database (the file itself, [-wal], [-shm])
    is at its path: each one that existed is now, with its content, at its
    path followed by [.corrupt.<time>], by one rename each, in the order
    of [SQLITE3_POSTFIXES]; every other path holds what it held. *)
Theorem move_away_moves_the_database_files (dbfile : string)
  (d : Files.Disk content) :
  exists d' t,
    Files.move_away_broken_database content dbfile d = (inr tt, d', t) /\
    (forall postfix, In postfix Files.SQLITE3_POSTFIXES ->
       Files.files d' (String.append dbfile postfix) = None /\
       forall c,
         Files.files d (String.append dbfile postfix) = Some c ->
         Files.files d' (Files.moved_away d (String.append dbfile postfix))
         = Some c) /\
    (forall path,
       (forall postfix, In postfix Files.SQLITE3_POSTFIXES ->
          path <> String.append dbfile postfix /\
          path <> Files.moved_away d (String.append dbfile postfix)) ->
       Files.files d' path = Files.files d path) /\
    Files.renames t =
      flat_map
        (fun postfix =>
           match Files.files d (String.append dbfile postfix) with
           | Some _ =>
               [(String.append dbfile postfix,
                 Files.moved_away d (String.append dbfile postfix))]
           | None => []
           end) Files.SQLITE3_POSTFIXES.
Proof.
  unfold Files.move_away_broken_database, Files.utcnow_isoformat.
  unfold pbind at 1. unfold pbind at 1. unfold pget at 1, pret at 1.
  unfold pbind at 1. unfold pemit at 1.
  destruct (move_loop_run dbfile (String.append ".corrupt." (Files.isotime d))
              Files.SQLITE3_POSTFIXES postfixes_nodup
              (postfixes_short (Files.isotime d)) d)
    as (d' & t & Hrun & _ & Hgone & Hmoved & Hother & Hren).
  rewrite Hrun. eexists d', _. split; [reflexivity|].
  split; [|split].
  - intros postfix Hin. split; [now apply Hgone|].
    intros c Hc. now apply Hmoved.
  - exact Hother.
  - cbn [Files.renames flat_map app]. exact Hren.
Qed.

(** X27: [validate_or_move_away_sqlite_database] answers [True] at once,
    touching nothing, when there is no file at the path of the url.  When
    it answers [False], the three files of the database are gone from
    their paths, so that asking again answers [True] without any check.
    A [DatabaseError] of the checks never comes out of it (it is what
    makes the answer [False]); any other exception of the checks does. *)
Theorem validate_or_move_away_outcome (dburl : string)
  (d d' : Files.Disk content) (r : Files.exc + bool)
  (t : list Files.event)
  (Hrun : Files.validate_or_move_away_sqlite_database content
            SQLITE_URL_PREFIX open_and_check dburl d = (r, d', t)) :
  let dbpath := Files.dburl_to_path SQLITE_URL_PREFIX dburl in
  (Files.files d dbpath = None -> r = inr true /\ d' = d /\ t = []) /\
  (r = inr false ->
   (exists msg d1 t1,
      open_and_check dbpath d = (inl (Files.DatabaseError msg), d1, t1)) /\
   (forall postfix, In postfix Files.SQLITE3_POSTFIXES ->
      Files.files d' (String.append dbpath postfix) = None) /\
   Files.validate_or_move_away_sqlite_database content SQLITE_URL_PREFIX
     open_and_check dburl d' = (inr true, d', [])) /\
  (forall e,
     r = inl e ->
     Files.is_DatabaseError e = false /\
     exists t1, open_and_check dbpath d = (inl e, d', t1)) /\
  (r = inr true ->
   Files.files d dbpath = None \/
   open_and_check dbpath d = (inr tt, d', t)).
Proof.
  intros dbpath. revert Hrun.
  unfold Files.validate_or_move_away_sqlite_database. fold dbpath.
  unfold pbind at 1. rewrite os_path_exists_run.
  destruct (Files.files d dbpath) as [c|] eqn:Efile; cbn [negb].
  2:{ unfold pret. intros [= <- <- <-].
      split; [auto|]. split; [discriminate|]. split; [discriminate|].
      auto. }
  unfold pbind at 1. unfold Files.validate_sqlite_database, ptry.
  unfold pbind at 1.
  destruct (open_and_check dbpath d) as [[[e|[]] d1] t1] eqn:Echeck.
  - destruct (Files.is_DatabaseError e) eqn:Ee.
    + unfold pbind at 1. unfold pemit at 1, pret at 1. cbn [negb].
      unfold pbind at 1.
      destruct (move_away_moves_run dbpath d1) as (d2 & t2 & Hmove & Hgone).
      rewrite Hmove. unfold pret. intros [= <- <- <-].
      split; [discriminate|]. split; [|split; [discriminate|discriminate]].
      intros _. split; [|split; [exact Hgone|]].
      * destruct e as [msg|]; [|discriminate]. now exists msg, d1, t1.
      * unfold pbind at 1. rewrite os_path_exists_run.
        pose proof (Hgone "" (or_introl eq_refl)) as Hdb.
        rewrite str_append_empty_r in Hdb. rewrite Hdb. reflexivity.
    + intros [= <- <- <-].
      split; [discriminate|]. split; [discriminate|].
      split; [|discriminate]. intros e' [= <-]. split; [exact Ee|].
      exists (t1 ++ []) . rewrite app_nil_r. reflexivity.
  - unfold pret at 1. cbn [negb]. unfold pret. intros [= <- <- <-].
    split; [discriminate|]. split; [discriminate|].
    split; [discriminate|]. intros _. right.
    now rewrite !app_nil_r.
Qed.

End FilesFacts.

Lemma triple_eta {A B C} (x : A * B * C) :
  x = (fst (fst x), snd (fst x), snd x).
Proof. now destruct x as [[a b] c]. Qed.

Lemma validate_or_move_away_outcome_witness :
  let checks := fun dbpath : string =>
                  (pemit (Files.EvChecks dbpath) ~;;
                   praise (Files.DatabaseError "malformed"))
                  : Files.P nat unit in
  let d := Files.mkDisk
             (fun p => if String.eqb p "/config/home.db" then Some 1
                       else if String.eqb p "/config/home.db-wal" then Some 2
                       else None)
             "2023-03-12T02:00:00" in
  let run := Files.validate_or_move_away_sqlite_database nat "sqlite:///"
               checks "sqlite:////config/home.db" d in
  fst (fst run) = inr false /\
  forall postfix, In postfix Files.SQLITE3_POSTFIXES ->
    Files.files (snd (fst run)) (String.append "/config/home.db" postfix)
    = None.
Proof.
  intros checks d run.
  assert (Hfalse : fst (fst run) = inr false) by reflexivity.
  split; [exact Hfalse|].
  exact (proj1 (proj2 (proj1 (proj2
           (validate_or_move_away_outcome nat "sqlite:///" checks
              "sqlite:////config/home.db" d (snd (fst run)) (fst (fst run))
              (snd run) (triple_eta run))) Hfalse))).
Defined.


(** ** Ending the incomplete runs *)

Lemma update_at_length {A} i (f : A -> A) l :
  List.length (Runs.update_at i f l) = List.length l.
Proof.
  revert i. induction l as [|a l IH]; intros [|i]; simpl; auto.
Qed.

Lemma update_at_nth_same {A} i (f : A -> A) l :
  nth_error (Runs.update_at i f l) i = option_map f (nth_error l i).
Proof.
  revert i. induction l as [|a l IH]; intros [|i]; simpl; auto.
Qed.

Lemma update_at_nth_other {A} i j (f : A -> A) l :
  i <> j -> nth_error (Runs.update_at i f l) j = nth_error l j.
Proof.
  revert i j. induction l as [|a l IH]; intros [|i] [|j] H; simpl; auto.
  now elim H.
Qed.

Lemma update_at_twice {A} i (f g : A -> A) l :
  Runs.update_at i g (Runs.update_at i f l)
  = Runs.update_at i (fun a => g (f a)) l.
Proof.
  revert i. induction l as [|a l IH]; intros [|i]; simpl; auto.
  now rewrite IH.
Qed.

Lemma filter_none {A} (f : A -> bool) (l : list A) :
  (forall a, In a l -> f a = false) -> filter f l = [].
Proof.
  induction l as [|a l IH]; intros H; [reflexivity|]. simpl.
  rewrite (H a) by now left. apply IH. intros b Hb. apply H. now right.
Qed.

Section RunsFacts.
Variable start_time : Z.

Local Abbreviation finish :=
  (fun run => Runs.mkRun (Runs.run_id run) (Runs.start run)
                (Some start_time) true).

Local Abbreviation end_one :=
  (fun i =>
     Runs.modify_run i
       (fun run => Runs.mkRun (Runs.run_id run) (Runs.start run)
                     (Runs.end_ run) true) ~;;
     Runs.modify_run i
       (fun run => Runs.mkRun (Runs.run_id run) (Runs.start run)
                     (Some start_time) (Runs.closed_incorrect run)) ~;;
     run <~ Runs.read_run i ;;
     pemit (Runs.EvLogWarning (Runs.run_id run) (Runs.start run)) ~;;
     pemit (Runs.EvAdd (Runs.run_id run))).

(** One turn of the loop, on a row that is there. *)
Lemma end_one_run i session run :
  nth_error session i = Some run ->
  end_one i session =
  (inr tt, Runs.update_at i finish session,
   [Runs.EvLogWarning (Runs.run_id run) (Runs.start run);
    Runs.EvAdd (Runs.run_id run)]).
Proof.
  intros Hrun.
  unfold Runs.modify_run, Runs.read_run, pbind, pget, pput, pemit.
  rewrite update_at_twice, update_at_nth_same, Hrun. reflexivity.
Qed.

Lemma end_loop_run places :
  forall session,
  NoDup places ->
  (forall i, In i places -> i < List.length session) ->
  exists t,
    pfor_each places end_one session =
      (inr tt,
       fold_left (fun s i => Runs.update_at i finish s) places session, t) /\
    Runs.warnings t =
      flat_map (fun i => match nth_error session i with
                         | Some run => [(Runs.run_id run, Runs.start run)]
                         | None => []
                         end) places.
Proof.
  induction places as [|i places IH]; intros session Hnd Hin.
  - exists []. split; reflexivity.
  - apply NoDup_cons_iff in Hnd as [Hnotin Hnd].
    destruct (nth_error session i) as [run|] eqn:Erun.
    2:{ apply nth_error_None in Erun.
        specialize (Hin i (or_introl eq_refl)). lia. }
    cbn [pfor_each fold_left flat_map]. unfold pbind at 1.
    rewrite (end_one_run i session run Erun).
    destruct (IH (Runs.update_at i finish session) Hnd) as (t & Hrun & Hw).
    { intros j Hj. rewrite update_at_length. apply Hin. now right. }
    rewrite Hrun. eexists. split; [reflexivity|].
    cbn [app Runs.warnings flat_map]. rewrite Erun. cbn [app]. f_equal.
    change (flat_map _ t) with (Runs.warnings t). rewrite Hw.
    apply flat_map_same_in. intros j Hj.
    rewrite update_at_nth_other; [reflexivity|]. intros ->. contradiction.
Qed.

Lemma fold_update_nth places :
  forall session j,
  NoDup places ->
  nth_error (fold_left (fun s i => Runs.update_at i finish s) places session)
            j =
  if in_dec Nat.eq_dec j places then option_map finish (nth_error session j)
  else nth_error session j.
Proof.
  induction places as [|i places IH]; intros session j Hnd;
    [reflexivity|].
  apply NoDup_cons_iff in Hnd as [Hnotin Hnd]. cbn [fold_left].
  rewrite (IH _ j Hnd).
  destruct (in_dec Nat.eq_dec j (i :: places)) as [[->|Hj]|Hnj].
  - destruct (in_dec Nat.eq_dec j places); [contradiction|].
    apply update_at_nth_same.
  - destruct (in_dec Nat.eq_dec j places); [|contradiction].
    rewrite update_at_nth_other; [reflexivity|]. intros ->. contradiction.
  - destruct (in_dec Nat.eq_dec j places) as [Hj|_].
    + elim Hnj. now right.
    + rewrite update_at_nth_other; [reflexivity|]. intros ->. apply Hnj.
      now left.
Qed.

Lemma incomplete_places_keys pre session :
  flat_map (fun i => match nth_error (pre ++ session) i with
                     | Some run => [(Runs.run_id run, Runs.start run)]
                     | None => []
                     end)
    (filter (fun i => match nth_error (pre ++ session) i with
                      | Some run => Runs.is_incomplete run
                      | None => false
                      end)
            (seq (List.length pre) (List.length session)))
  = map (fun run => (Runs.run_id run, Runs.start run))
        (filter Runs.is_incomplete session).
Proof.
  revert pre. induction session as [|run session IH]; intros pre;
    [reflexivity|].
  cbn [List.length seq filter].
  assert (Hhere : nth_error (pre ++ run :: session) (List.length pre)
                  = Some run).
  { rewrite nth_error_app2 by lia. now rewrite Nat.sub_diag. }
  rewrite Hhere.
  specialize (IH (pre ++ [run])). rewrite <- app_assoc in IH.
  cbn [app] in IH. rewrite length_app in IH. cbn [List.length] in IH.
  rewrite Nat.add_1_r in IH.
  destruct (Runs.is_incomplete run); cbn [flat_map map]; rewrite ?Hhere;
    cbn [app]; now rewrite IH.
Qed.


End RunsFacts.

(** ** Looking an index up by its name *)

Lemma slice_from_suffix k s :
  exists pre, s = String.append pre (Files.slice_from k s).
Proof.
  revert s. induction k as [|k IH]; intros s.
  - now exists EmptyString.
  - destruct s as [|x s]; [now exists EmptyString|].
    destruct (IH s) as (pre & Hpre). exists (String x pre). simpl.
    now rewrite <- Hpre.
Qed.

Lemma endswith_suffix s suffix :
  Runs.endswith s suffix = true -> exists pre, s = String.append pre suffix.
Proof.
  unfold Runs.endswith. intros H. apply andb_prop in H as [_ H].
  apply String.eqb_eq in H.
  destruct (slice_from_suffix (String.length s - String.length suffix) s)
    as (pre & Hpre).
  exists pre. now rewrite <- H.
Qed.

Lemma endswith_append pre suffix :
  Runs.endswith (String.append pre suffix) suffix = true.
Proof.
  unfold Runs.endswith. rewrite str_length_append.
  replace (String.length pre + String.length suffix - String.length suffix)
    with (String.length pre) by lia.
  rewrite slice_from_append, String.eqb_refl.
  replace (Nat.leb _ _) with true; [reflexivity|].
  symmetry. apply Nat.leb_le. lia.
Qed.

Lemma index_matches_cons index_name possible rest :
  Runs.get_index_by_name (possible :: rest) index_name =
  if Runs.index_matches index_name possible
  then possible
  else Runs.get_index_by_name rest index_name.
Proof.
  destruct possible as [name|]; [|reflexivity].
  cbn [Runs.get_index_by_name Runs.index_matches].
  now destruct (_ && _).
Qed.

(** X29: [get_index_by_name] returns the first index, in the order of the
    inspector, whose name is not empty and is [index_name] or ends with
    [_index_name]; so a name it returns always ends with [index_name].  It
    returns [None] exactly when no index qualifies; an index named
    [index_name] or [<prefix>_index_name] is therefore never missed. *)
Theorem get_index_by_name_finds_the_first_match
  (indexes : list (option string)) (index_name : string) :
  match Runs.get_index_by_name indexes index_name with
  | Some name =>
      (exists before after,
         indexes = before ++ Some name :: after /\
         forall possible, In possible before ->
           Runs.index_matches index_name possible = false) /\
      name <> EmptyString /\
      exists pre,
        name = String.append pre index_name /\
        (pre = EmptyString \/
         exists pre', pre = String.append pre' "_")
  | None =>
      forall possible, In possible indexes ->
        Runs.index_matches index_name possible = false
  end /\
  (forall pre,
     In (Some (String.append pre (String.append "_" index_name))) indexes ->
     Runs.get_index_by_name indexes index_name <> None) /\
  (index_name <> EmptyString -> In (Some index_name) indexes ->
   Runs.get_index_by_name indexes index_name <> None).
Proof.
  assert (Hfirst :
    match Runs.get_index_by_name indexes index_name with
    | Some name =>
        (exists before after,
           indexes = before ++ Some name :: after /\
           forall possible, In possible before ->
             Runs.index_matches index_name possible = false) /\
        Runs.index_matches index_name (Some name) = true
    | None =>
        forall possible, In possible indexes ->
          Runs.index_matches index_name possible = false
    end).
  { induction indexes as [|possible rest IH]; [intros ? []|].
    rewrite index_matches_cons.
    destruct (Runs.index_matches index_name possible) eqn:Em.
    - destruct possible as [name|]; [|discriminate]. split; [|exact Em].
      exists [], rest. split; [reflexivity|intros ? []].
    - destruct (Runs.get_index_by_name rest index_name) as [name|].
      + destruct IH as [(before & after & -> & Hbefore) Hm]. split; [|exact Hm].
        exists (possible :: before), after. split; [reflexivity|].
        intros p [<-|Hp]; [exact Em|now apply Hbefore].
      + intros p [<-|Hp]; [exact Em|now apply IH]. }
  split; [|split].
  - destruct (Runs.get_index_by_name indexes index_name) as [name|];
      [|exact Hfirst].
    destruct Hfirst as [Hsplit Hm]. split; [exact Hsplit|].
    cbn [Runs.index_matches] in Hm. apply andb_prop in Hm as [Hne Hm].
    split.
    + intros ->. discriminate.
    + apply orb_prop in Hm as [Hm|Hm].
      * apply String.eqb_eq in Hm. exists EmptyString. split; [exact Hm|].
        now left.
      * apply endswith_suffix in Hm as (pre' & ->).
        exists (String.append pre' "_"). split.
        -- now rewrite str_append_assoc.
        -- right. now exists pre'.
  - intros pre Hin Hnone. rewrite Hnone in Hfirst.
    specialize (Hfirst _ Hin). cbn [Runs.index_matches] in Hfirst.
    rewrite endswith_append, orb_true_r, andb_true_r in Hfirst.
    apply negb_false_iff, String.eqb_eq in Hfirst.
    destruct pre; discriminate.
  - intros Hne Hin Hnone. rewrite Hnone in Hfirst.
    specialize (Hfirst _ Hin). cbn [Runs.index_matches] in Hfirst.
    rewrite String.eqb_refl, orb_true_l, andb_true_r in Hfirst.
    apply negb_false_iff, String.eqb_eq in Hfirst. contradiction.
Qed.


(** ** The time window of [execute_stmt_lambda_element] *)

Lemma round_trips_app t1 t2 :
  Statements.round_trips (t1 ++ t2)
  = Statements.round_trips t1 ++ Statements.round_trips t2.
Proof. apply filter_app. Qed.

Section WindowFacts.
Variable row : Type.

Lemma stmt_execute_from_failures (use_all : bool) (yield_per : Z)
  (orm_rows : bool) (errs : list Statements.exc) :
  forall first n (s : Statements.state row) fs,
  first + n = RETRIES ->
  List.length errs < n ->
  Forall (fun e => Statements.is_SQLAlchemyError e = true) errs ->
  Statements.stmt_faults s = map Some errs ++ fs ->
  exists pre,
    Statements.round_trips pre =
      repeat (if orm_rows then Statements.EvSessionExecute
              else Statements.EvConnectionExecute) (List.length errs) /\
    Statements.execute_from row use_all yield_per orm_rows (seq first n) s =
    match Statements.execute_from row use_all yield_per orm_rows
            (seq (first + List.length errs) (n - List.length errs))
            (Statements.mkState (Statements.stmt_rows s) fs
               (Statements.utcnow s)) with
    | (r, s2, t2) => (r, s2, pre ++ t2)
    end.
Proof.
  induction errs as [|e errs IH]; intros first n s fs Hsum Hlen Hall Hf.
  - exists []. split; [reflexivity|]. cbn [List.length map app] in *.
    rewrite Nat.add_0_r, Nat.sub_0_r. destruct s as [rows faults now].
    cbn [Statements.stmt_rows Statements.stmt_faults Statements.utcnow] in *.
    subst faults.
    now destruct (Statements.execute_from row use_all yield_per orm_rows
                    (seq first n) _) as [[r s2] t2].
  - apply Forall_cons_iff in Hall as [He Hall].
    destruct n as [|n]; [simpl in Hlen; lia|].
    cbn [seq Statements.execute_from]. unfold ptry.
    unfold pbind at 1.
    assert (Hneq : Nat.eqb first (RETRIES - 1) = false).
    { apply Nat.eqb_neq. simpl in Hlen. lia. }
    destruct (IH (Datatypes.S first) n
                (Statements.mkState (Statements.stmt_rows s)
                   (map Some errs ++ fs) (Statements.utcnow s)) fs)
      as (pre' & Hpre & Hrun);
      [lia|simpl in Hlen; lia|exact Hall|reflexivity|].
    cbn [Statements.stmt_rows Statements.utcnow] in Hrun.
    cbn [List.length].
    replace (first + Datatypes.S (List.length errs))
      with (Datatypes.S first + List.length errs) by lia.
    replace (Datatypes.S n - Datatypes.S (List.length errs))
      with (n - List.length errs) by lia.
    destruct orm_rows; unfold Statements.round_trip; rewrite Hf;
      cbn [map app]; rewrite He; unfold pbind at 1; unfold pemit at 1;
      rewrite Hneq; unfold pbind at 1; unfold pemit at 1; rewrite Hrun;
      destruct (Statements.execute_from row use_all yield_per _
                  (seq (Datatypes.S first + _) _) _) as [[r s2] t2];
      eexists (_ :: _ :: _ :: pre'); (split; [|cbn [app]; reflexivity]);
      cbn [Statements.round_trips filter app repeat]; f_equal; exact Hpre.
Qed.

(** X30: [execute_stmt_lambda_element] reads everything with [.all()]
    exactly when it has no [start_time] or the window, up to [end_time] or
    else to now, is shorter than two days; from two days on it returns
    [yield_per].  This holds for the attempt that succeeds after fewer
    than [RETRIES] errors, and every attempt goes through the session if
    [orm_rows] and through its connection if not. *)
Theorem window_of_two_days_switches_to_yield_per
  (start_time end_time : option Z) (yield_per : Z) (orm_rows : bool)
  (s : Statements.state row) (errs : list Statements.exc)
  (fs : list (option Statements.exc))
  (Hfaults : Statements.stmt_faults s = map Some errs ++ fs)
  (Hnext : fs = [] \/ exists fs', fs = None :: fs')
  (Herrs : Forall (fun e => Statements.is_SQLAlchemyError e = true) errs)
  (Hfew : List.length errs < RETRIES) :
  let short :=
    match start_time with
    | None => true
    | Some start_time =>
        (Statements.window_end end_time (Statements.utcnow s) - start_time
         <? 2 * Statements.DAY)%Z
    end in
  exists s' t,
    Statements.execute_stmt_lambda_element row start_time end_time yield_per
      orm_rows s =
    (inr (if short then Statements.All (Statements.stmt_rows s)
          else Statements.YieldPer yield_per (Statements.stmt_rows s)),
     s', t) /\
    Statements.round_trips t =
      repeat (if orm_rows then Statements.EvSessionExecute
              else Statements.EvConnectionExecute)
             (Datatypes.S (List.length errs)).
Proof.
  intros short.
  assert (Hshort : Statements.use_all_of start_time end_time
                     (Statements.utcnow s) = short).
  { unfold short, Statements.use_all_of, Statements.window_end,
      Statements.days_between, Statements.DAY.
    destruct start_time as [st|]; [|reflexivity].
    destruct end_time as [en|].
    - destruct (Z.ltb_spec (en - st) (2 * 86400000000));
        [apply Z.leb_le|apply Z.leb_gt]; Z.div_mod_to_equations; lia.
    - destruct (Z.ltb_spec (Statements.utcnow s - st) (2 * 86400000000));
        [apply Z.leb_le|apply Z.leb_gt]; Z.div_mod_to_equations; lia. }
  unfold Statements.execute_stmt_lambda_element.
  unfold pbind at 1. unfold pget at 1. rewrite Hshort.
  destruct (stmt_execute_from_failures short yield_per orm_rows errs
              0 RETRIES s fs eq_refl Hfew Herrs Hfaults)
    as (pre & Hpre & ->).
  destruct (RETRIES - List.length errs) as [|k] eqn:Ek; [exfalso; lia|].
  cbn [seq Statements.execute_from]. unfold ptry, pbind.
  assert (Hrt : forall how,
    exists s',
      Statements.round_trip row how
        (Statements.mkState (Statements.stmt_rows s) fs
           (Statements.utcnow s)) = (inr (Statements.stmt_rows s), s', [how])).
  { intros how. unfold Statements.round_trip.
    cbn [Statements.stmt_faults Statements.stmt_rows Statements.utcnow].
    destruct Hnext as [->|(fs' & ->)]; eexists; reflexivity. }
  destruct orm_rows.
  - destruct (Hrt Statements.EvSessionExecute) as (s' & ->).
    destruct short; unfold pret; cbn [app]; eexists s', _;
      (split; [reflexivity|]);
      rewrite round_trips_app, Hpre;
      change (Statements.round_trips [Statements.EvSessionExecute])
        with [Statements.EvSessionExecute];
      now rewrite <- repeat_cons.
  - destruct (Hrt Statements.EvConnectionExecute) as (s' & ->).
    destruct short; unfold pret; cbn [app]; eexists s', _;
      (split; [reflexivity|]);
      rewrite round_trips_app, Hpre;
      change (Statements.round_trips [Statements.EvConnectionExecute])
        with [Statements.EvConnectionExecute];
      now rewrite <- repeat_cons.
Qed.

End WindowFacts.

Lemma window_of_two_days_switches_to_yield_per_witness :
  let day := Statements.DAY in
  let s := Statements.mkState [1%Z; 2%Z]
             [Some (Statements.SQLAlchemyError "gone away")]
             (100 * day)%Z in
  let errs := [Statements.SQLAlchemyError "gone away"] in
  Statements.stmt_faults s = map Some errs ++ [] /\
  Forall (fun e => Statements.is_SQLAlchemyError e = true) errs /\
  List.length errs < RETRIES /\
  exists s' t,
    Statements.execute_stmt_lambda_element Z (Some (98 * day + 1)%Z) None 500
      false s = (inr (Statements.All [1%Z; 2%Z]), s', t) /\
    Statements.round_trips t =
      [Statements.EvConnectionExecute; Statements.EvConnectionExecute].
Proof.
  intros day s errs.
  assert (H1 : Statements.stmt_faults s = map Some errs ++ []) by reflexivity.
  assert (H2 : Forall (fun e => Statements.is_SQLAlchemyError e = true) errs)
    by (repeat constructor).
  assert (H3 : List.length errs < RETRIES) by (vm_compute; lia).
  repeat (split; [assumption|]).
  exact (window_of_two_days_switches_to_yield_per Z (Some (98 * day + 1)%Z)
           None 500 false s errs [] H1 (or_introl eq_refl) H2 H3).
Defined.
